(** * Partially persistent red-black tree (arvore_rubro_negra): model and properties

    The Python sources [no.py], [arvore_rubro_negra.py] and
    [processador_operacoes.py] are embedded as follows.

    - A [No] object is a record; its three history dictionaries are finite
      maps keyed by version ([gmap Z _]).
    - Python objects have identity and are mutated in place, so the objects
      live in a heap ([Memoria], a list of records) and are named by their
      index ([Ref]).  [No(...)] appends a record; a method that assigns to a
      field rewrites the record at its index.
    - Methods are computations in a state monad with three outcomes: a value,
      a raised Python exception (the state mutated so far is kept, as in
      Python), or [Div], which stands for executions that have no finite
      Python counterpart (unbounded recursion on a cyclic structure).
    - Recursive methods and [while] loops take a fuel argument; public methods
      supply one more than the number of objects in the heap, which is enough
      for every acyclic structure. *)

From stdpp Require Import base numbers option list gmap fin_maps strings pretty sorting.
From Stdlib Require Import ZArith Lia.

Local Open Scope Z_scope.

(** ** Outcomes and the state monad *)

Inductive Excecao := IndexError | AttributeError.

Inductive Res (S A : Type) :=
  | Val (a : A) (s : S)
  | Exc (e : Excecao) (s : S)
  | Div.
Arguments Val {S A} a s.
Arguments Exc {S A} e s.
Arguments Div {S A}.

Definition M (S A : Type) := S -> Res S A.

Definition ret {S A} (a : A) : M S A := fun s => Val a s.

Definition bind {S A B} (m : M S A) (k : A -> M S B) : M S B :=
  fun s => match m s with
           | Val a s' => k a s'
           | Exc e s' => Exc e s'
           | Div => Div
           end.

Definition levantar {S A} (e : Excecao) : M S A := fun s => Exc e s.
Definition divergir {S A} : M S A := fun _ => Div.

Notation "x <~ m ;; k" := (bind m (fun x => k))
  (at level 100, m at next level, right associativity).
Notation "m ;;; k" := (bind m (fun _ => k))
  (at level 100, right associativity).

(** ** no.py *)

Inductive Cor := VERMELHO | PRETO.

Definition Cor_eqb (a b : Cor) : bool :=
  match a, b with
  | VERMELHO, VERMELHO | PRETO, PRETO => true
  | _, _ => false
  end.

(** [Cor.value] *)
Definition Cor_value (c : Cor) : string :=
  match c with VERMELHO => "R" | PRETO => "N" end.

Abbreviation Ref := nat (only parsing).

Module No.

Record t := mk {
  valor : Z;
  versao_criacao : Z;
  historico_cores : gmap Z Cor;
  historico_filhos : gmap Z (option Ref * option Ref);
  historico_pais : gmap Z (option Ref);
  versao_remocao : option Z
}.

(** [No.__init__] *)
Definition init (valor : Z) (cor : Cor) (versao_criacao : Z) : t :=
  {| valor := valor;
     versao_criacao := versao_criacao;
     historico_cores := {[ versao_criacao := cor ]};
     historico_filhos := {[ versao_criacao := (None, None) ]};
     historico_pais := {[ versao_criacao := None ]};
     versao_remocao := None |}.

(** [max(versoes_disponiveis) if versoes_disponiveis else 0] *)
Definition _obter_versao_valida {A} (versao : Z) (historico : gmap Z A) : Z :=
  let versoes_disponiveis :=
    filter (fun v => v <= versao) (elements (dom historico)) in
  match versoes_disponiveis with
  | [] => 0
  | v :: vs => foldr Z.max v vs
  end.

Definition obter_cor (n : t) (versao : Z) : Cor :=
  let versao_valida := _obter_versao_valida versao (historico_cores n) in
  default PRETO (historico_cores n !! versao_valida).

Definition definir_cor (n : t) (cor : Cor) (versao : Z) : t :=
  {| valor := valor n;
     versao_criacao := versao_criacao n;
     historico_cores := <[ versao := cor ]> (historico_cores n);
     historico_filhos := historico_filhos n;
     historico_pais := historico_pais n;
     versao_remocao := versao_remocao n |}.

Definition obter_filhos (n : t) (versao : Z) : option Ref * option Ref :=
  let versao_valida := _obter_versao_valida versao (historico_filhos n) in
  default (None, None) (historico_filhos n !! versao_valida).

Definition obter_filho_esquerdo (n : t) (versao : Z) : option Ref :=
  fst (obter_filhos n versao).

Definition obter_filho_direito (n : t) (versao : Z) : option Ref :=
  snd (obter_filhos n versao).

Definition definir_filhos (n : t) (filho_esquerdo filho_direito : option Ref)
    (versao : Z) : t :=
  {| valor := valor n;
     versao_criacao := versao_criacao n;
     historico_cores := historico_cores n;
     historico_filhos :=
       <[ versao := (filho_esquerdo, filho_direito) ]> (historico_filhos n);
     historico_pais := historico_pais n;
     versao_remocao := versao_remocao n |}.

Definition definir_filho_esquerdo (n : t) (filho : option Ref) (versao : Z) : t :=
  let filhos_atuais := obter_filhos n versao in
  definir_filhos n filho (snd filhos_atuais) versao.

Definition definir_filho_direito (n : t) (filho : option Ref) (versao : Z) : t :=
  let filhos_atuais := obter_filhos n versao in
  definir_filhos n (fst filhos_atuais) filho versao.

(** [self.historico_pais.get(versao_valida)]: the default is [None]. *)
Definition obter_pai (n : t) (versao : Z) : option Ref :=
  let versao_valida := _obter_versao_valida versao (historico_pais n) in
  default None (historico_pais n !! versao_valida).

Definition definir_pai (n : t) (pai : option Ref) (versao : Z) : t :=
  {| valor := valor n;
     versao_criacao := versao_criacao n;
     historico_cores := historico_cores n;
     historico_filhos := historico_filhos n;
     historico_pais := <[ versao := pai ]> (historico_pais n);
     versao_remocao := versao_remocao n |}.

Definition esta_ativo (n : t) (versao : Z) : bool :=
  (versao_criacao n <=? versao) &&
  match versao_remocao n with
  | None => true
  | Some r => versao <? r
  end.

Definition remover (n : t) (versao : Z) : t :=
  {| valor := valor n;
     versao_criacao := versao_criacao n;
     historico_cores := historico_cores n;
     historico_filhos := historico_filhos n;
     historico_pais := historico_pais n;
     versao_remocao := Some versao |}.

(** [no.valor = ...] *)
Definition atribuir_valor (n : t) (v : Z) : t :=
  {| valor := v;
     versao_criacao := versao_criacao n;
     historico_cores := historico_cores n;
     historico_filhos := historico_filhos n;
     historico_pais := historico_pais n;
     versao_remocao := versao_remocao n |}.

End No.

(** ** The heap of [No] objects *)

Abbreviation Memoria := (list No.t) (only parsing).

(** Read the object behind a reference. *)
Definition ler (r : Ref) : M Memoria No.t :=
  fun m => match m !! r with
           | Some n => Val n m
           | None => Div
           end.

(** Apply an in-place update to the object behind a reference. *)
Definition modificar (r : Ref) (f : No.t -> No.t) : M Memoria unit :=
  fun m => match m !! r with
           | Some n => Val tt (<[ r := f n ]> m)
           | None => Div
           end.

(** [No(valor, cor, versao)]: a new object, with a new identity. *)
Definition novo_No (valor : Z) (cor : Cor) (versao : Z) : M Memoria Ref :=
  fun m => Val (length m) (m ++ [No.init valor cor versao]).

(** A method call on a value that may be [None]. *)
Definition objeto (o : option Ref) : M Memoria Ref :=
  match o with
  | Some r => ret r
  | None => levantar AttributeError
  end.

Definition obter_valor (r : Ref) : M Memoria Z :=
  n <~ ler r ;; ret (No.valor n).
Definition obter_cor (r : Ref) (versao : Z) : M Memoria Cor :=
  n <~ ler r ;; ret (No.obter_cor n versao).
Definition obter_filho_esquerdo (r : Ref) (versao : Z) : M Memoria (option Ref) :=
  n <~ ler r ;; ret (No.obter_filho_esquerdo n versao).
Definition obter_filho_direito (r : Ref) (versao : Z) : M Memoria (option Ref) :=
  n <~ ler r ;; ret (No.obter_filho_direito n versao).
Definition obter_pai (r : Ref) (versao : Z) : M Memoria (option Ref) :=
  n <~ ler r ;; ret (No.obter_pai n versao).
Definition esta_ativo (r : Ref) (versao : Z) : M Memoria bool :=
  n <~ ler r ;; ret (No.esta_ativo n versao).

Definition definir_cor (r : Ref) (cor : Cor) (versao : Z) : M Memoria unit :=
  modificar r (fun n => No.definir_cor n cor versao).
Definition definir_filhos (r : Ref) (fe fd : option Ref) (versao : Z) : M Memoria unit :=
  modificar r (fun n => No.definir_filhos n fe fd versao).
Definition definir_filho_esquerdo (r : Ref) (filho : option Ref) (versao : Z)
    : M Memoria unit :=
  modificar r (fun n => No.definir_filho_esquerdo n filho versao).
Definition definir_filho_direito (r : Ref) (filho : option Ref) (versao : Z)
    : M Memoria unit :=
  modificar r (fun n => No.definir_filho_direito n filho versao).
Definition definir_pai (r : Ref) (pai : option Ref) (versao : Z) : M Memoria unit :=
  modificar r (fun n => No.definir_pai n pai versao).
Definition retirar (r : Ref) (versao : Z) : M Memoria unit :=
  modificar r (fun n => No.remover n versao).
Definition atribuir_valor (r : Ref) (v : Z) : M Memoria unit :=
  modificar r (fun n => No.atribuir_valor n v).

(** [if x: x.definir_pai(pai, versao)] *)
Definition definir_pai_se (o : option Ref) (pai : Ref) (versao : Z) : M Memoria unit :=
  match o with
  | Some r => definir_pai r (Some pai) versao
  | None => ret tt
  end.

(** [x and x.obter_cor(versao) == Cor.VERMELHO] *)
Definition e_vermelho (o : option Ref) (versao : Z) : M Memoria bool :=
  match o with
  | Some r => c <~ obter_cor r versao ;; ret (Cor_eqb c VERMELHO)
  | None => ret false
  end.

(** ** arvore_rubro_negra.py: the recursive helpers, on the heap *)

Definition _balancear_caso_esquerda_esquerda (no : Ref) (versao : Z) : M Memoria Ref :=
  filho_esquerdo <~ obter_filho_esquerdo no versao ;;
  fe <~ objeto filho_esquerdo ;;
  neto_esq_esq <~ obter_filho_esquerdo fe versao ;;
  neto_esq_dir <~ obter_filho_direito fe versao ;;
  filho_direito <~ obter_filho_direito no versao ;;
  definir_cor fe VERMELHO versao ;;;
  nee <~ objeto neto_esq_esq ;;
  definir_cor nee PRETO versao ;;;
  definir_cor no PRETO versao ;;;
  definir_filhos fe neto_esq_esq (Some no) versao ;;;
  definir_filhos no neto_esq_dir filho_direito versao ;;;
  definir_pai_se neto_esq_dir no versao ;;;
  definir_pai no filho_esquerdo versao ;;;
  definir_pai nee filho_esquerdo versao ;;;
  ret fe.

Definition _balancear_caso_esquerda_direita (no : Ref) (versao : Z) : M Memoria Ref :=
  filho_esquerdo <~ obter_filho_esquerdo no versao ;;
  fe <~ objeto filho_esquerdo ;;
  neto_esq_dir <~ obter_filho_direito fe versao ;;
  ned <~ objeto neto_esq_dir ;;
  bisneto_esq <~ obter_filho_esquerdo ned versao ;;
  bisneto_dir <~ obter_filho_direito ned versao ;;
  filho_direito <~ obter_filho_direito no versao ;;
  definir_cor ned VERMELHO versao ;;;
  definir_cor fe PRETO versao ;;;
  definir_cor no PRETO versao ;;;
  definir_filhos ned filho_esquerdo (Some no) versao ;;;
  fe_esq <~ obter_filho_esquerdo fe versao ;;
  definir_filhos fe fe_esq bisneto_esq versao ;;;
  definir_filhos no bisneto_dir filho_direito versao ;;;
  definir_pai_se bisneto_esq fe versao ;;;
  definir_pai_se bisneto_dir no versao ;;;
  definir_pai fe neto_esq_dir versao ;;;
  definir_pai no neto_esq_dir versao ;;;
  ret ned.

Definition _balancear_caso_direita_esquerda (no : Ref) (versao : Z) : M Memoria Ref :=
  filho_direito <~ obter_filho_direito no versao ;;
  fd <~ objeto filho_direito ;;
  neto_dir_esq <~ obter_filho_esquerdo fd versao ;;
  nde <~ objeto neto_dir_esq ;;
  bisneto_esq <~ obter_filho_esquerdo nde versao ;;
  bisneto_dir <~ obter_filho_direito nde versao ;;
  filho_esquerdo <~ obter_filho_esquerdo no versao ;;
  definir_cor nde VERMELHO versao ;;;
  definir_cor no PRETO versao ;;;
  definir_cor fd PRETO versao ;;;
  definir_filhos nde (Some no) filho_direito versao ;;;
  definir_filhos no filho_esquerdo bisneto_esq versao ;;;
  fd_dir <~ obter_filho_direito fd versao ;;
  definir_filhos fd bisneto_dir fd_dir versao ;;;
  definir_pai_se bisneto_esq no versao ;;;
  definir_pai_se bisneto_dir fd versao ;;;
  definir_pai no neto_dir_esq versao ;;;
  definir_pai fd neto_dir_esq versao ;;;
  ret nde.

Definition _balancear_caso_direita_direita (no : Ref) (versao : Z) : M Memoria Ref :=
  filho_direito <~ obter_filho_direito no versao ;;
  fd <~ objeto filho_direito ;;
  neto_dir_dir <~ obter_filho_direito fd versao ;;
  neto_dir_esq <~ obter_filho_esquerdo fd versao ;;
  filho_esquerdo <~ obter_filho_esquerdo no versao ;;
  definir_cor fd VERMELHO versao ;;;
  definir_cor no PRETO versao ;;;
  ndd <~ objeto neto_dir_dir ;;
  definir_cor ndd PRETO versao ;;;
  definir_filhos fd (Some no) neto_dir_dir versao ;;;
  definir_filhos no filho_esquerdo neto_dir_esq versao ;;;
  definir_pai_se neto_dir_esq no versao ;;;
  definir_pai no filho_direito versao ;;;
  definir_pai ndd filho_direito versao ;;;
  ret fd.

(** The second half of [_balancear_apos_inclusao]: the tests on the right
    child. *)
Definition _balancear_lado_direito (no : Ref) (versao : Z) : M Memoria Ref :=
  filho_direito <~ obter_filho_direito no versao ;;
  dir_vermelho <~ e_vermelho filho_direito versao ;;
  if dir_vermelho then
    fd <~ objeto filho_direito ;;
    neto_dir_esq <~ obter_filho_esquerdo fd versao ;;
    neto_dir_dir <~ obter_filho_direito fd versao ;;
    nde_vermelho <~ e_vermelho neto_dir_esq versao ;;
    if nde_vermelho then _balancear_caso_direita_esquerda no versao
    else
      ndd_vermelho <~ e_vermelho neto_dir_dir versao ;;
      if ndd_vermelho then _balancear_caso_direita_direita no versao
      else ret no
  else ret no.

Definition _balancear_apos_inclusao (no : Ref) (versao : Z) : M Memoria Ref :=
  filho_esquerdo <~ obter_filho_esquerdo no versao ;;
  esq_vermelho <~ e_vermelho filho_esquerdo versao ;;
  if esq_vermelho then
    fe <~ objeto filho_esquerdo ;;
    neto_esq_esq <~ obter_filho_esquerdo fe versao ;;
    neto_esq_dir <~ obter_filho_direito fe versao ;;
    nee_vermelho <~ e_vermelho neto_esq_esq versao ;;
    if nee_vermelho then _balancear_caso_esquerda_esquerda no versao
    else
      ned_vermelho <~ e_vermelho neto_esq_dir versao ;;
      if ned_vermelho then _balancear_caso_esquerda_direita no versao
      else _balancear_lado_direito no versao
  else _balancear_lado_direito no versao.

Fixpoint _incluir_recursivo (fuel : nat) (no : option Ref) (valor versao : Z)
    : M Memoria (option Ref) :=
  match fuel with
  | O => divergir
  | S fuel' =>
    match no with
    | None => r <~ novo_No valor VERMELHO versao ;; ret (Some r)
    | Some no =>
      ativo <~ esta_ativo no versao ;;
      if negb ativo then r <~ novo_No valor VERMELHO versao ;; ret (Some r)
      else
        no_valor <~ obter_valor no ;;
        if valor <? no_valor then
          fe <~ obter_filho_esquerdo no versao ;;
          filho_esquerdo <~ _incluir_recursivo fuel' fe valor versao ;;
          definir_filho_esquerdo no filho_esquerdo versao ;;;
          definir_pai_se filho_esquerdo no versao ;;;
          r <~ _balancear_apos_inclusao no versao ;; ret (Some r)
        else if no_valor <? valor then
          fd <~ obter_filho_direito no versao ;;
          filho_direito <~ _incluir_recursivo fuel' fd valor versao ;;
          definir_filho_direito no filho_direito versao ;;;
          definir_pai_se filho_direito no versao ;;;
          r <~ _balancear_apos_inclusao no versao ;; ret (Some r)
        else ret (Some no)
    end
  end.

(** [while no and no.obter_filho_esquerdo(versao) and
    no.obter_filho_esquerdo(versao).esta_ativo(versao)] *)
Fixpoint _encontrar_minimo (fuel : nat) (no : option Ref) (versao : Z)
    : M Memoria (option Ref) :=
  match fuel with
  | O => divergir
  | S fuel' =>
    match no with
    | None => ret None
    | Some n =>
      fe <~ obter_filho_esquerdo n versao ;;
      match fe with
      | None => ret (Some n)
      | Some e =>
        ativo <~ esta_ativo e versao ;;
        if ativo then _encontrar_minimo fuel' (Some e) versao
        else ret (Some n)
      end
    end
  end.

Definition _corrigir_violacoes_remocao (no : option Ref) (versao : Z)
    : M Memoria (option Ref) :=
  match no with
  | Some n =>
    pai <~ obter_pai n versao ;;
    match pai with
    | None => definir_cor n PRETO versao ;;; ret no
    | Some _ => ret no
    end
  | None => ret no
  end.

Definition _balancear_apos_remocao (no : option Ref) (versao : Z)
    : M Memoria (option Ref) :=
  match no with
  | None => ret None
  | Some _ => _corrigir_violacoes_remocao no versao
  end.

(** [_remover_no], with the recursive call to [_remover_recursivo] abstracted
    ([_remover_recursivo] and [_remover_no] call each other). *)
Definition _remover_no
    (remover_rec : option Ref -> Z -> Z -> M Memoria (option Ref))
    (fuel : nat) (no : Ref) (versao : Z) : M Memoria (option Ref) :=
  filho_esquerdo <~ obter_filho_esquerdo no versao ;;
  filho_direito <~ obter_filho_direito no versao ;;
  match filho_esquerdo, filho_direito with
  | None, _ => retirar no versao ;;; ret filho_direito
  | Some _, None => retirar no versao ;;; ret filho_esquerdo
  | Some _, Some _ =>
    sucessor <~ _encontrar_minimo fuel filho_direito versao ;;
    suc <~ objeto sucessor ;;
    suc_valor <~ obter_valor suc ;;
    atribuir_valor no suc_valor ;;;
    suc_valor' <~ obter_valor suc ;;
    nova_subarvore_direita <~ remover_rec filho_direito suc_valor' versao ;;
    definir_filho_direito no nova_subarvore_direita versao ;;;
    definir_pai_se nova_subarvore_direita no versao ;;;
    ret (Some no)
  end.

Fixpoint _remover_recursivo (fuel : nat) (no : option Ref) (valor versao : Z)
    : M Memoria (option Ref) :=
  match fuel with
  | O => divergir
  | S fuel' =>
    match no with
    | None => ret None
    | Some n =>
      ativo <~ esta_ativo n versao ;;
      if negb ativo then ret no
      else
        no_valor <~ obter_valor n ;;
        if valor <? no_valor then
          fe <~ obter_filho_esquerdo n versao ;;
          filho_esquerdo <~ _remover_recursivo fuel' fe valor versao ;;
          definir_filho_esquerdo n filho_esquerdo versao ;;;
          definir_pai_se filho_esquerdo n versao ;;;
          _balancear_apos_remocao no versao
        else if no_valor <? valor then
          fd <~ obter_filho_direito n versao ;;
          filho_direito <~ _remover_recursivo fuel' fd valor versao ;;
          definir_filho_direito n filho_direito versao ;;;
          definir_pai_se filho_direito n versao ;;;
          _balancear_apos_remocao no versao
        else _remover_no (_remover_recursivo fuel') fuel' n versao
    end
  end.

(** One entry of the in-order dump, before it is formatted. *)
Record Entrada := { e_valor : Z; e_profundidade : Z; e_cor : Cor }.

(** [f"{no.valor},{profundidade},{cor_str}"] *)
Definition formatar (e : Entrada) : string :=
  pretty (e_valor e) +:+ "," +:+ pretty (e_profundidade e) +:+ "," +:+
  Cor_value (e_cor e).

(** [_percorrer_em_ordem]; the entries appended to [resultado] are returned
    with it. *)
Fixpoint _percorrer_em_ordem (fuel : nat) (no : option Ref) (versao profundidade : Z)
    (resultado : list Entrada) : M Memoria (list Entrada) :=
  match fuel with
  | O => divergir
  | S fuel' =>
    match no with
    | None => ret resultado
    | Some n =>
      ativo <~ esta_ativo n versao ;;
      if negb ativo then ret resultado
      else
        filho_esquerdo <~ obter_filho_esquerdo n versao ;;
        resultado <~ match filho_esquerdo with
                     | Some _ => _percorrer_em_ordem fuel' filho_esquerdo versao
                                   (profundidade + 1) resultado
                     | None => ret resultado
                     end ;;
        cor <~ obter_cor n versao ;;
        no_valor <~ obter_valor n ;;
        let resultado :=
          resultado ++ [ {| e_valor := no_valor; e_profundidade := profundidade;
                            e_cor := cor |} ] in
        filho_direito <~ obter_filho_direito n versao ;;
        match filho_direito with
        | Some _ => _percorrer_em_ordem fuel' filho_direito versao
                      (profundidade + 1) resultado
        | None => ret resultado
        end
    end
  end.

(** The [while] loop of [buscar_sucessor]. *)
Fixpoint _laco_sucessor (fuel : nat) (atual : option Ref) (sucessor : option Z)
    (valor versao : Z) : M Memoria (option Z) :=
  match fuel with
  | O => divergir
  | S fuel' =>
    match atual with
    | None => ret sucessor
    | Some a =>
      ativo <~ esta_ativo a versao ;;
      if ativo then
        a_valor <~ obter_valor a ;;
        if valor <? a_valor then
          fe <~ obter_filho_esquerdo a versao ;;
          _laco_sucessor fuel' fe (Some a_valor) valor versao
        else
          fd <~ obter_filho_direito a versao ;;
          _laco_sucessor fuel' fd sucessor valor versao
      else ret sucessor
    end
  end.

(** ** arvore_rubro_negra.py: the tree object and its public methods *)

(** The [ArvoreRubroNegra] object, together with the heap its nodes live in. *)
Record Arvore := {
  memoria : Memoria;
  raizes : list (option Ref);
  versao_atual : Z
}.

(** [ArvoreRubroNegra()]: [raizes = [None] * 100], [versao_atual = 0]. *)
Definition arvore_vazia : Arvore :=
  {| memoria := []; raizes := replicate 100 None; versao_atual := 0 |}.

(** Python list indexing [l[i]]: a negative index counts from the end, an
    index outside [-len, len) is an [IndexError] (here [None]). *)
Definition py_indice {A} (l : list A) (i : Z) : option nat :=
  let n := Z.of_nat (length l) in
  if (0 <=? i) && (i <? n) then Some (Z.to_nat i)
  else if (i <? 0) && (- n <=? i) then Some (Z.to_nat (n + i))
  else None.

Definition py_obter {A} (l : list A) (i : Z) : option A :=
  j ← py_indice l i; l !! j.

Definition py_atribuir {A} (l : list A) (i : Z) (x : A) : option (list A) :=
  j ← py_indice l i; Some (<[ j := x ]> l).

(** A heap computation run on the tree's heap. *)
Definition na_memoria {A} (m : M Memoria A) : M Arvore A :=
  fun t => match m (memoria t) with
           | Val a mem => Val a {| memoria := mem; raizes := raizes t;
                                   versao_atual := versao_atual t |}
           | Exc e mem => Exc e {| memoria := mem; raizes := raizes t;
                                   versao_atual := versao_atual t |}
           | Div => Div
           end.

Definition ler_versao_atual : M Arvore Z := fun t => Val (versao_atual t) t.

Definition escrever_versao_atual (v : Z) : M Arvore unit :=
  fun t => Val tt {| memoria := memoria t; raizes := raizes t; versao_atual := v |}.

(** [self.raizes[i]] *)
Definition ler_raiz (i : Z) : M Arvore (option Ref) :=
  fun t => match py_obter (raizes t) i with
           | Some r => Val r t
           | None => Exc IndexError t
           end.

(** [self.raizes[i] = r] *)
Definition escrever_raiz (i : Z) (r : option Ref) : M Arvore unit :=
  fun t => match py_atribuir (raizes t) i r with
           | Some rs => Val tt {| memoria := memoria t; raizes := rs;
                                  versao_atual := versao_atual t |}
           | None => Exc IndexError t
           end.

(** Fuel for one public call: one more than the number of objects. *)
Definition combustivel : M Arvore nat := fun t => Val (S (length (memoria t))) t.

(** [if nova_raiz: nova_raiz.definir_cor(Cor.PRETO, nova_versao)] *)
Definition pintar_raiz (nova_raiz : option Ref) (versao : Z) : M Memoria unit :=
  match nova_raiz with
  | Some r => definir_cor r PRETO versao
  | None => ret tt
  end.

Definition incluir (valor : Z) : M Arvore unit :=
  va <~ ler_versao_atual ;;
  let nova_versao := va + 1 in
  raiz <~ ler_raiz va ;;
  fuel <~ combustivel ;;
  nova_raiz <~ na_memoria (_incluir_recursivo fuel raiz valor nova_versao) ;;
  na_memoria (pintar_raiz nova_raiz nova_versao) ;;;
  escrever_raiz nova_versao nova_raiz ;;;
  escrever_versao_atual nova_versao.

Definition remover (valor : Z) : M Arvore unit :=
  va <~ ler_versao_atual ;;
  let nova_versao := va + 1 in
  raiz <~ ler_raiz va ;;
  fuel <~ combustivel ;;
  nova_raiz <~ na_memoria (_remover_recursivo fuel raiz valor nova_versao) ;;
  na_memoria (pintar_raiz nova_raiz nova_versao) ;;;
  escrever_raiz nova_versao nova_raiz ;;;
  escrever_versao_atual nova_versao.

(** [if versao is None or versao > self.versao_atual: versao = self.versao_atual] *)
Definition ajustar_versao (versao : option Z) (atual : Z) : Z :=
  match versao with
  | None => atual
  | Some v => if atual <? v then atual else v
  end.

Definition buscar_sucessor (valor : Z) (versao : option Z) : M Arvore (option Z) :=
  va <~ ler_versao_atual ;;
  let versao := ajustar_versao versao va in
  raiz <~ ler_raiz versao ;;
  fuel <~ combustivel ;;
  na_memoria (_laco_sucessor fuel raiz None valor versao).

(** The entries of [imprimir_arvore], before formatting. *)
Definition entradas_arvore (versao : option Z) : M Arvore (list Entrada) :=
  va <~ ler_versao_atual ;;
  let versao := ajustar_versao versao va in
  raiz <~ ler_raiz versao ;;
  fuel <~ combustivel ;;
  match raiz with
  | Some _ => na_memoria (_percorrer_em_ordem fuel raiz versao 0 [])
  | None => ret []
  end.

Definition imprimir_arvore (versao : option Z) : M Arvore (list string) :=
  es <~ entradas_arvore versao ;; ret (map formatar es).

(** ** processador_operacoes.py *)

(** A command line after [split], [upper] and [int]: [Malformada] is a line
    whose arity test or [int()] raises [ValueError], [Desconhecida] a line
    with another keyword. *)
Inductive Comando :=
  | INC (valor : Z)
  | REM (valor : Z)
  | SUC (valor versao : Z)
  | IMP (versao : Z)
  | Malformada
  | Desconhecida.

(** What [print] wrote while a command was processed. *)
Inductive Diagnostico :=
  | ErroAoProcessar (e : option Excecao)   (* [None]: a [ValueError] *)
  | OperacaoDesconhecida.

Record Saida := {
  linhas : option (list string);   (* the value returned *)
  console : list Diagnostico
}.

Definition eco_SUC (valor versao : Z) : string :=
  "SUC " +:+ pretty valor +:+ " " +:+ pretty versao.
Definition eco_IMP (versao : Z) : string := "IMP " +:+ pretty versao.

Definition _processar_sucessor (valor versao : Z) : M Arvore (option (list string)) :=
  sucessor <~ buscar_sucessor valor (Some versao) ;;
  let linha_resultado :=
    match sucessor with Some s => pretty s | None => "infinito" end in
  ret (Some [eco_SUC valor versao; linha_resultado]).

(** [" ".join(elementos)] *)
Fixpoint juntar (l : list string) : string :=
  match l with
  | [] => ""
  | [x] => x
  | x :: xs => x +:+ " " +:+ juntar xs
  end.

Definition _processar_impressao (versao : Z) : M Arvore (option (list string)) :=
  elementos <~ imprimir_arvore (Some versao) ;;
  ret (Some [eco_IMP versao; juntar elementos]).

(** [processar_operacao]: the [try] block, then
    [except (ValueError, IndexError)], which prints and returns [None];
    any other exception propagates. *)
Definition processar_operacao (c : Comando) : M Arvore Saida :=
  fun t =>
    let corpo : M Arvore (option (list string)) :=
      match c with
      | INC valor => incluir valor ;;; ret None
      | REM valor => remover valor ;;; ret None
      | SUC valor versao => _processar_sucessor valor versao
      | IMP versao => _processar_impressao versao
      | Malformada | Desconhecida => ret None
      end in
    match c with
    | Malformada => Val {| linhas := None; console := [ErroAoProcessar None] |} t
    | Desconhecida => Val {| linhas := None; console := [OperacaoDesconhecida] |} t
    | _ =>
      match corpo t with
      | Val r t' => Val {| linhas := r; console := [] |} t'
      | Exc IndexError t' =>
          Val {| linhas := None; console := [ErroAoProcessar (Some IndexError)] |} t'
      | Exc e t' => Exc e t'
      | Div => Div
      end
    end.

(** [processar_arquivo]: the loop over the lines, collecting the output. *)
Fixpoint processar_linhas (cs : list Comando) : M Arvore (list string * list Diagnostico) :=
  match cs with
  | [] => ret ([], [])
  | c :: cs' =>
    s <~ processar_operacao c ;;
    r <~ processar_linhas cs' ;;
    ret (default [] (linhas s) ++ fst r, console s ++ snd r)
  end.

(** ** The scenarios of the test suite and of the demonstration *)

Definition executar (cs : list Comando) : Res Arvore (list string * list Diagnostico) :=
  processar_linhas cs arvore_vazia.

Definition saida_de (r : Res Arvore (list string * list Diagnostico)) : list string :=
  match r with Val a _ => fst a | _ => [] end.

(** * Properties *)

(** ** Version lookup in a history *)

Section Historico.
Context {A : Type}.
Implicit Types (h : gmap Z A) (v u m : Z).

Lemma foldr_max_elem (v : Z) (vs : list Z) :
  foldr Z.max v vs ∈ v :: vs ∧ ∀ x, x ∈ v :: vs → x <= foldr Z.max v vs.
Proof.
  induction vs as [|w vs [IHin IHmax]]; simpl.
  - split; [left|]. intros x Hx. apply list_elem_of_singleton in Hx. lia.
  - split.
    + destruct (Z.max_spec w (foldr Z.max v vs)) as [[_ ->]|[_ ->]].
      * apply elem_of_cons in IHin as [->|?]; [left|right; by right].
      * right; left.
    + intros x Hx. apply elem_of_cons in Hx as [->|Hx].
      * specialize (IHmax v ltac:(left)). lia.
      * apply elem_of_cons in Hx as [->|Hx]; [lia|].
        specialize (IHmax x ltac:(by right)). lia.
Qed.

Lemma candidatas_elem h v x :
  x ∈ filter (fun k => k <= v) (elements (dom h)) ↔ is_Some (h !! x) ∧ x <= v.
Proof.
  rewrite list_elem_of_filter, elem_of_elements, elem_of_dom. tauto.
Qed.

(** The version chosen is the greatest recorded one not above [v]. *)
Lemma versao_valida_max h v m :
  is_Some (h !! m) → m <= v →
  (∀ x, is_Some (h !! x) → x <= v → x <= m) →
  No._obter_versao_valida v h = m.
Proof.
  intros Hm Hle Hmax. unfold No._obter_versao_valida.
  destruct (filter _ _) as [|w ws] eqn:E.
  - assert (m ∈ filter (fun k => k <= v) (elements (dom h))) as Hin
      by (by apply candidatas_elem).
    rewrite E in Hin. by apply elem_of_nil in Hin.
  - destruct (foldr_max_elem w ws) as [Hin Hge].
    rewrite <- E in Hin. apply candidatas_elem in Hin as [Hs Hl].
    assert (m ∈ w :: ws) as Hmin by (rewrite <- E; by apply candidatas_elem).
    specialize (Hge _ Hmin). specialize (Hmax _ Hs Hl). lia.
Qed.

(** With no recorded version at or below [v], the answer is [0]. *)
Lemma versao_valida_nenhuma h v :
  (∀ x, is_Some (h !! x) → v < x) → No._obter_versao_valida v h = 0.
Proof.
  intros Hno. unfold No._obter_versao_valida.
  destruct (filter _ _) as [|w ws] eqn:E; [done|].
  assert (w ∈ filter (fun k => k <= v) (elements (dom h))) as Hin
    by (rewrite E; left).
  apply candidatas_elem in Hin as [Hs Hl]. specialize (Hno _ Hs). lia.
Qed.

Lemma versao_valida_casos h v :
  ((∀ x, is_Some (h !! x) → v < x) ∧ No._obter_versao_valida v h = 0) ∨
  (∃ m, No._obter_versao_valida v h = m ∧ is_Some (h !! m) ∧ m <= v ∧
        ∀ x, is_Some (h !! x) → x <= v → x <= m).
Proof.
  unfold No._obter_versao_valida.
  destruct (filter _ _) as [|w ws] eqn:E.
  - left. split; [|done]. intros x Hx.
    destruct (decide (x <= v)) as [Hl|]; [|lia].
    assert (x ∈ filter (fun k => k <= v) (elements (dom h))) as Hin
      by (by apply candidatas_elem).
    rewrite E in Hin. by apply elem_of_nil in Hin.
  - right. destruct (foldr_max_elem w ws) as [Hin Hge].
    exists (foldr Z.max w ws). split; [done|].
    rewrite <- E in Hin. apply candidatas_elem in Hin as [Hs Hl].
    repeat split; [done..|].
    intros x Hx Hxv. apply Hge. rewrite <- E. by apply candidatas_elem.
Qed.

(** The value in force at version [v]. *)
Definition consultar (d : A) h v : A :=
  default d (h !! No._obter_versao_valida v h).

(** A write at [v] is what a read at [v] sees. *)
Lemma consultar_insert_eq d h v a : consultar d (<[v := a]> h) v = a.
Proof.
  unfold consultar.
  rewrite (versao_valida_max (<[v := a]> h) v v).
  - by rewrite lookup_insert_eq.
  - rewrite lookup_insert_eq. by eexists.
  - lia.
  - auto.
Qed.

(** A write at [v] is invisible to a read at an earlier version. *)
Lemma consultar_insert_lt d h v u a :
  u < v → v ≠ 0 → consultar d (<[v := a]> h) u = consultar d h u.
Proof.
  intros Hu Hv. unfold consultar.
  destruct (versao_valida_casos h u) as [[Hno ->]|(m & -> & Hs & Hl & Hmax)].
  - rewrite versao_valida_nenhuma.
    + by rewrite lookup_insert_ne.
    + intros x Hx. rewrite lookup_insert_is_Some in Hx.
      destruct Hx as [->|[_ Hx]]; [done|by apply Hno].
  - rewrite (versao_valida_max (<[v := a]> h) u m).
    + rewrite lookup_insert_ne; [done|lia].
    + rewrite lookup_insert_is_Some. right. split; [lia|done].
    + done.
    + intros x Hx Hxu. rewrite lookup_insert_is_Some in Hx.
      destruct Hx as [->|[_ Hx]]; [lia|by apply Hmax].
Qed.

(** When every recorded version is at most [v], later reads see what a read
    at [v] sees. *)
Lemma consultar_posterior d h v u :
  (∀ x, is_Some (h !! x) → x <= v) → v <= u →
  consultar d h u = consultar d h v.
Proof.
  intros Hb Hu. unfold consultar.
  destruct (versao_valida_casos h v) as [[Hno ->]|(m & -> & Hs & Hl & Hmax)].
  - rewrite versao_valida_nenhuma; [done|].
    intros x Hx. specialize (Hno _ Hx). specialize (Hb _ Hx). lia.
  - rewrite (versao_valida_max h u m); [done|done|lia|].
    intros x Hx _. apply Hmax; [done|by apply Hb].
Qed.

End Historico.

Lemma obter_cor_consultar n v :
  No.obter_cor n v = consultar PRETO (No.historico_cores n) v.
Proof. done. Qed.

Lemma obter_filhos_consultar n v :
  No.obter_filhos n v = consultar (None, None) (No.historico_filhos n) v.
Proof. done. Qed.

Lemma obter_pai_consultar n v :
  No.obter_pai n v = consultar None (No.historico_pais n) v.
Proof. done. Qed.

(** ** Outcomes of composed computations *)

Lemma bind_Val {S A B} (c : M S A) (k : A -> M S B) s b s' :
  bind c k s = Val b s' ↔ ∃ a s1, c s = Val a s1 ∧ k a s1 = Val b s'.
Proof.
  unfold bind. destruct (c s) as [a s1| |]; split.
  - eauto.
  - by intros (? & ? & [= <- <-] & ?).
  - done.
  - by intros (? & ? & ? & ?).
  - done.
  - by intros (? & ? & ? & ?).
Qed.

Lemma bind_Exc {S A B} (c : M S A) (k : A -> M S B) s e s' :
  bind c k s = Exc e s' ↔
  c s = Exc e s' ∨ ∃ a s1, c s = Val a s1 ∧ k a s1 = Exc e s'.
Proof.
  unfold bind. destruct (c s) as [a s1| |]; split.
  - eauto.
  - by intros [?|(? & ? & [= <- <-] & ?)].
  - intros [= -> ->]. by left.
  - intros [[= -> ->]|(? & ? & ? & ?)]; done.
  - done.
  - by intros [?|(? & ? & ? & ?)].
Qed.

(** The state an outcome leaves behind, if any. *)
Definition estado_final {S A} (r : Res S A) : option S :=
  match r with
  | Val _ s | Exc _ s => Some s
  | Div => None
  end.

(** [pos c P s]: whatever state [c] leaves behind from [s] satisfies [P]. *)
Definition pos {S A} (c : M S A) (P : S -> Prop) (s : S) : Prop :=
  ∀ s', estado_final (c s) = Some s' → P s'.

Lemma pos_ret {S A} (a : A) (P : S -> Prop) s : P s → pos (ret a) P s.
Proof. intros H s' [= <-]. done. Qed.

Lemma pos_levantar {S A} e (P : S -> Prop) s : P s → pos (@levantar S A e) P s.
Proof. intros H s' [= <-]. done. Qed.

Lemma pos_divergir {S A} (P : S -> Prop) s : pos (@divergir S A) P s.
Proof. intros s' [=]. Qed.

Lemma pos_bind {S A B} (c : M S A) (k : A -> M S B) (P Q : S -> Prop) s :
  pos c Q s →
  (∀ a s1, c s = Val a s1 → Q s1 → pos (k a) P s1) →
  (∀ s1, Q s1 → P s1) →
  pos (bind c k) P s.
Proof.
  intros Hc Hk HQP s'. unfold bind, pos in *.
  destruct (c s) as [a s1|e s1|] eqn:E; simpl in *.
  - intros Hs'. apply (Hk a s1 eq_refl); [|done]. by apply Hc.
  - intros [= <-]. apply HQP, Hc. done.
  - done.
Qed.

(** ** What an operation at version [V'] leaves untouched *)

Section Quadro.
Variable V' : Z.
Hypothesis V'_nao_zero : V' ≠ 0.

Definition chaves_em {A} (h h' : gmap Z A) : Prop :=
  ∀ x, is_Some (h' !! x) → is_Some (h !! x) ∨ x = V'.

(** [Rh n n']: [n'] is [n] after some writes at version [V']; what the
    histories answer for earlier versions is the same. *)
Record Rh (n n' : No.t) : Prop := {
  rh_criacao : No.versao_criacao n' = No.versao_criacao n;
  rh_cor : ∀ u, u < V' → No.obter_cor n' u = No.obter_cor n u;
  rh_filhos : ∀ u, u < V' → No.obter_filhos n' u = No.obter_filhos n u;
  rh_pai : ∀ u, u < V' → No.obter_pai n' u = No.obter_pai n u;
  rh_chaves_cores : chaves_em (No.historico_cores n) (No.historico_cores n');
  rh_chaves_filhos : chaves_em (No.historico_filhos n) (No.historico_filhos n');
  rh_chaves_pais : chaves_em (No.historico_pais n) (No.historico_pais n');
  rh_remocao : No.versao_remocao n' = No.versao_remocao n ∨
               No.versao_remocao n' = Some V'
}.

(** [Rt n n']: moreover the key and the removal mark are the same. *)
Definition Rt (n n' : No.t) : Prop :=
  Rh n n' ∧ No.valor n' = No.valor n ∧ No.versao_remocao n' = No.versao_remocao n.

(** An object created during the operation. *)
Record novo (n : No.t) : Prop := {
  nv_criacao : No.versao_criacao n = V';
  nv_cores : ∀ x, is_Some (No.historico_cores n !! x) → x = V';
  nv_filhos : ∀ x, is_Some (No.historico_filhos n !! x) → x = V';
  nv_pais : ∀ x, is_Some (No.historico_pais n !! x) → x = V';
  nv_remocao : No.versao_remocao n = None ∨ No.versao_remocao n = Some V'
}.

Lemma chaves_em_refl {A} (h : gmap Z A) : chaves_em h h.
Proof. intros x Hx. by left. Qed.

Lemma chaves_em_trans {A} (h1 h2 h3 : gmap Z A) :
  chaves_em h1 h2 → chaves_em h2 h3 → chaves_em h1 h3.
Proof. intros H12 H23 x Hx. destruct (H23 x Hx) as [H|H]; auto. Qed.

Lemma chaves_em_insert {A} (h : gmap Z A) a : chaves_em h (<[V' := a]> h).
Proof.
  intros x Hx. rewrite lookup_insert_is_Some in Hx. destruct Hx as [<-|[_ H]]; auto.
Qed.

Lemma Rh_refl n : Rh n n.
Proof. split; auto using chaves_em_refl. Qed.

Lemma Rh_trans n1 n2 n3 : Rh n1 n2 → Rh n2 n3 → Rh n1 n3.
Proof.
  intros [] []. split.
  - congruence.
  - intros u Hu. rewrite rh_cor1, rh_cor0; done.
  - intros u Hu. rewrite rh_filhos1, rh_filhos0; done.
  - intros u Hu. rewrite rh_pai1, rh_pai0; done.
  - eapply chaves_em_trans; eassumption.
  - eapply chaves_em_trans; eassumption.
  - eapply chaves_em_trans; eassumption.
  - destruct rh_remocao1 as [E|E]; [|by right].
    rewrite E. done.
Qed.

Lemma Rt_refl n : Rt n n.
Proof. split; [apply Rh_refl|done]. Qed.

Lemma Rt_trans n1 n2 n3 : Rt n1 n2 → Rt n2 n3 → Rt n1 n3.
Proof.
  intros (H1 & E1 & F1) (H2 & E2 & F2).
  split; [by eapply Rh_trans|]. split; congruence.
Qed.

Lemma Rh_novo n n' : Rh n n' → novo n → novo n'.
Proof.
  intros [] []. split.
  - congruence.
  - intros x Hx. destruct (rh_chaves_cores0 x Hx); auto.
  - intros x Hx. destruct (rh_chaves_filhos0 x Hx); auto.
  - intros x Hx. destruct (rh_chaves_pais0 x Hx); auto.
  - destruct rh_remocao0 as [E|E]; [rewrite E|]; auto.
Qed.

Lemma novo_init k c : novo (No.init k c V').
Proof.
  split; simpl; auto; intros x [y Hx];
    apply lookup_singleton_Some in Hx as [<- _]; done.
Qed.

(** *** The writes of [no.py] *)

Lemma Rt_definir_cor n c : Rt n (No.definir_cor n c V').
Proof.
  split; [|done]. split; simpl; auto using chaves_em_refl, chaves_em_insert.
  intros u Hu. rewrite !obter_cor_consultar. simpl.
  by apply consultar_insert_lt.
Qed.

Lemma Rt_definir_filhos n e d : Rt n (No.definir_filhos n e d V').
Proof.
  split; [|done]. split; simpl; auto using chaves_em_refl, chaves_em_insert.
  intros u Hu. rewrite !obter_filhos_consultar. simpl.
  by apply consultar_insert_lt.
Qed.

Lemma Rt_definir_filho_esquerdo n e : Rt n (No.definir_filho_esquerdo n e V').
Proof. apply Rt_definir_filhos. Qed.

Lemma Rt_definir_filho_direito n d : Rt n (No.definir_filho_direito n d V').
Proof. apply Rt_definir_filhos. Qed.

Lemma Rt_definir_pai n p : Rt n (No.definir_pai n p V').
Proof.
  split; [|done]. split; simpl; auto using chaves_em_refl, chaves_em_insert.
  intros u Hu. rewrite !obter_pai_consultar. simpl.
  by apply consultar_insert_lt.
Qed.

Lemma Rh_remover n : Rh n (No.remover n V').
Proof. split; simpl; auto using chaves_em_refl. Qed.

Lemma Rh_atribuir_valor n k : Rh n (No.atribuir_valor n k).
Proof. split; simpl; auto using chaves_em_refl. Qed.

(** *** Heaps *)

(** The relations between the old and the new state of an object that
    compose along a computation. *)
Class BoaRelacao (R : No.t -> No.t -> Prop) : Prop := {
  R_refl : ∀ n, R n n;
  R_trans : ∀ n1 n2 n3, R n1 n2 → R n2 n3 → R n1 n3;
  R_novo : ∀ n n', R n n' → novo n → novo n'
}.

#[global] Instance Rh_boa : BoaRelacao Rh.
Proof. split; [apply Rh_refl|apply Rh_trans|apply Rh_novo]. Qed.

#[global] Instance Rt_boa : BoaRelacao Rt.
Proof.
  split; [apply Rt_refl|apply Rt_trans|].
  intros n n' [H _]. by apply Rh_novo.
Qed.

Section Relacao.
Context (R : No.t -> No.t -> Prop) `{!BoaRelacao R}.

Definition quadro (m m' : Memoria) : Prop :=
  (length m ≤ length m')%nat ∧
  (∀ r n, m !! r = Some n → ∃ n', m' !! r = Some n' ∧ R n n') ∧
  (∀ r n', (length m ≤ r)%nat → m' !! r = Some n' → novo n').

Lemma quadro_refl m : quadro m m.
Proof.
  split; [lia|]. split.
  - intros r n Hn. exists n. split; [done|apply R_refl].
  - intros r n' Hr Hn. apply lookup_lt_Some in Hn. lia.
Qed.

Lemma quadro_trans m1 m2 m3 : quadro m1 m2 → quadro m2 m3 → quadro m1 m3.
Proof.
  intros (L1 & O1 & N1) (L2 & O2 & N2). split; [lia|]. split.
  - intros r n Hn. destruct (O1 r n Hn) as (n2 & Hn2 & R12).
    destruct (O2 r n2 Hn2) as (n3 & Hn3 & R23).
    exists n3. split; [done|]. by eapply R_trans.
  - intros r n3 Hr Hn3. destruct (decide (r < length m2)%nat) as [Hlt|Hge].
    + destruct (lookup_lt_is_Some_2 m2 r Hlt) as [n2 Hn2].
      destruct (O2 r n2 Hn2) as (n3' & Hn3' & R23).
      assert (n3' = n3) as -> by congruence.
      eapply R_novo; [done|]. by eapply N1.
    + eapply N2; [|done]. lia.
Qed.

(** [respeita c]: every state that [c] leaves behind frames the initial
    one. *)
Definition respeita {A} (c : M Memoria A) : Prop :=
  ∀ m, pos c (quadro m) m.

Lemma pos_quadro_bind {A B} (c : M Memoria A) (k : A -> M Memoria B) m0 m :
  quadro m0 m →
  pos c (quadro m) m →
  (∀ a m1, c m = Val a m1 → quadro m0 m1 → pos (k a) (quadro m0) m1) →
  pos (bind c k) (quadro m0) m.
Proof.
  intros H0 Hc Hk. eapply (pos_bind _ _ _ (quadro m0)).
  - intros s' Hs'. eapply quadro_trans; [done|]. by apply Hc.
  - done.
  - done.
Qed.

Lemma respeita_ret {A} (a : A) : respeita (ret a).
Proof. intros m. apply pos_ret, quadro_refl. Qed.

Lemma respeita_levantar {A} e : respeita (@levantar _ A e).
Proof. intros m. apply pos_levantar, quadro_refl. Qed.

Lemma respeita_divergir {A} : respeita (@divergir _ A).
Proof. intros m. apply pos_divergir. Qed.

Lemma respeita_bind {A B} (c : M Memoria A) (k : A -> M Memoria B) :
  respeita c → (∀ a, respeita (k a)) → respeita (bind c k).
Proof.
  intros Hc Hk m. apply pos_quadro_bind.
  - apply quadro_refl.
  - apply Hc.
  - intros a m1 _ H1 s' Hs'. eapply quadro_trans; [done|]. by apply (Hk a m1).
Qed.

Lemma respeita_ler r : respeita (ler r).
Proof.
  intros m s'. unfold ler. destruct (m !! r); [|done].
  intros [= <-]. apply quadro_refl.
Qed.

Lemma quadro_insert m r n f :
  m !! r = Some n → R n (f n) → quadro m (<[r := f n]> m).
Proof.
  intros Hn HR. split; [by rewrite length_insert|]. split.
  - intros r' n' Hn'. destruct (decide (r = r')) as [<-|Hne].
    + exists (f n). rewrite list_lookup_insert_eq by (by eapply lookup_lt_Some).
      split; [done|]. congruence.
    + exists n'. rewrite list_lookup_insert_ne by done.
      split; [done|apply R_refl].
  - intros r' n' Hr' Hn'. apply lookup_lt_Some in Hn'.
    rewrite length_insert in Hn'. lia.
Qed.

Lemma respeita_modificar r f : (∀ n, R n (f n)) → respeita (modificar r f).
Proof.
  intros Hf m s'. unfold modificar. destruct (m !! r) as [n|] eqn:E; [|done].
  intros [= <-]. by apply quadro_insert.
Qed.

Lemma respeita_novo_No k c : respeita (novo_No k c V').
Proof.
  intros m s' [= <-]. split; [rewrite length_app; lia|]. split.
  - intros r n Hn. exists n. split; [|apply R_refl]. by apply lookup_app_l_Some.
  - intros r n' Hr Hn'. rewrite lookup_app_r in Hn' by done.
    apply list_lookup_singleton_Some in Hn' as [_ <-]. apply novo_init.
Qed.

Lemma respeita_objeto o : respeita (objeto o).
Proof.
  destruct o; [apply respeita_ret|apply respeita_levantar].
Qed.

End Relacao.

End Quadro.

(** ** Every helper of the tree frames the heap *)

Section Respeito.
Variable V' : Z.
Hypothesis V'_nao_zero : V' ≠ 0.

(** [R] admits the writes that leave key and removal mark alone. *)
Class Admite (R : No.t -> No.t -> Prop) : Prop :=
  admite : ∀ n n', Rt V' n n' → R n n'.

#[global] Instance Rt_admite : Admite (Rt V').
Proof. by intros n n'. Qed.

#[global] Instance Rh_admite : Admite (Rh V').
Proof. by intros n n' [H _]. Qed.

Context (R : No.t -> No.t -> Prop) `{!BoaRelacao V' R} `{!Admite R}.

Local Abbreviation resp := (respeita V' R).

Lemma resp_obter_valor r : resp (obter_valor r).
Proof. apply respeita_bind; [done|apply respeita_ler; done|intros; by apply respeita_ret]. Qed.
Lemma resp_obter_cor r v : resp (obter_cor r v).
Proof. apply respeita_bind; [done|apply respeita_ler; done|intros; by apply respeita_ret]. Qed.
Lemma resp_obter_filho_esquerdo r v : resp (obter_filho_esquerdo r v).
Proof. apply respeita_bind; [done|apply respeita_ler; done|intros; by apply respeita_ret]. Qed.
Lemma resp_obter_filho_direito r v : resp (obter_filho_direito r v).
Proof. apply respeita_bind; [done|apply respeita_ler; done|intros; by apply respeita_ret]. Qed.
Lemma resp_obter_pai r v : resp (obter_pai r v).
Proof. apply respeita_bind; [done|apply respeita_ler; done|intros; by apply respeita_ret]. Qed.
Lemma resp_esta_ativo r v : resp (esta_ativo r v).
Proof. apply respeita_bind; [done|apply respeita_ler; done|intros; by apply respeita_ret]. Qed.

Lemma resp_definir_cor r c : resp (definir_cor r c V').
Proof. apply respeita_modificar; [done|]. intros n. by apply admite, Rt_definir_cor. Qed.
Lemma resp_definir_filhos r e d : resp (definir_filhos r e d V').
Proof. apply respeita_modificar; [done|]. intros n. by apply admite, Rt_definir_filhos. Qed.
Lemma resp_definir_filho_esquerdo r e : resp (definir_filho_esquerdo r e V').
Proof. apply respeita_modificar; [done|]. intros n. by apply admite, Rt_definir_filhos. Qed.
Lemma resp_definir_filho_direito r d : resp (definir_filho_direito r d V').
Proof. apply respeita_modificar; [done|]. intros n. by apply admite, Rt_definir_filhos. Qed.
Lemma resp_definir_pai r p : resp (definir_pai r p V').
Proof. apply respeita_modificar; [done|]. intros n. by apply admite, Rt_definir_pai. Qed.

Lemma resp_definir_pai_se o p : resp (definir_pai_se o p V').
Proof. destruct o; [apply resp_definir_pai|by apply respeita_ret]. Qed.

Lemma resp_e_vermelho o v : resp (e_vermelho o v).
Proof.
  destruct o; [|by apply respeita_ret].
  apply respeita_bind; [done|apply resp_obter_cor|intros; by apply respeita_ret].
Qed.

Lemma resp_pintar_raiz o : resp (pintar_raiz o V').
Proof. destruct o; [apply resp_definir_cor|by apply respeita_ret]. Qed.

Ltac resp_passo :=
  first
    [ apply respeita_ret; solve [done]
    | apply respeita_levantar; solve [done]
    | apply respeita_divergir
    | apply respeita_objeto; solve [done]
    | apply respeita_novo_No; solve [done]
    | apply resp_obter_valor | apply resp_obter_cor
    | apply resp_obter_filho_esquerdo | apply resp_obter_filho_direito
    | apply resp_obter_pai | apply resp_esta_ativo
    | apply resp_definir_cor | apply resp_definir_filhos
    | apply resp_definir_filho_esquerdo | apply resp_definir_filho_direito
    | apply resp_definir_pai | apply resp_definir_pai_se
    | apply resp_e_vermelho | apply resp_pintar_raiz
    | apply respeita_bind; [solve [done]| |intros]
    | match goal with
      | |- respeita _ _ (if ?b then _ else _) => destruct b
      | |- respeita _ _ (match ?o with Some _ => _ | None => _ end) => destruct o
      end ].

Lemma resp_caso_esquerda_esquerda no : resp (_balancear_caso_esquerda_esquerda no V').
Proof. unfold _balancear_caso_esquerda_esquerda. repeat resp_passo. Qed.

Lemma resp_caso_esquerda_direita no : resp (_balancear_caso_esquerda_direita no V').
Proof. unfold _balancear_caso_esquerda_direita. repeat resp_passo. Qed.

Lemma resp_caso_direita_esquerda no : resp (_balancear_caso_direita_esquerda no V').
Proof. unfold _balancear_caso_direita_esquerda. repeat resp_passo. Qed.

Lemma resp_caso_direita_direita no : resp (_balancear_caso_direita_direita no V').
Proof. unfold _balancear_caso_direita_direita. repeat resp_passo. Qed.

Lemma resp_lado_direito no : resp (_balancear_lado_direito no V').
Proof.
  unfold _balancear_lado_direito.
  repeat first [apply resp_caso_direita_esquerda | apply resp_caso_direita_direita
               | resp_passo].
Qed.

Lemma resp_balancear_apos_inclusao no : resp (_balancear_apos_inclusao no V').
Proof.
  unfold _balancear_apos_inclusao.
  repeat first [apply resp_caso_esquerda_esquerda | apply resp_caso_esquerda_direita
               | apply resp_lado_direito | resp_passo].
Qed.

Lemma resp_incluir_recursivo fuel no valor :
  resp (_incluir_recursivo fuel no valor V').
Proof.
  revert no. induction fuel as [|fuel IH]; intros no; simpl.
  - apply respeita_divergir.
  - repeat first [apply IH | apply resp_balancear_apos_inclusao | resp_passo].
Qed.

Lemma resp_encontrar_minimo fuel no v : resp (_encontrar_minimo fuel no v).
Proof.
  revert no. induction fuel as [|fuel IH]; intros no; simpl.
  - apply respeita_divergir.
  - repeat first [apply IH | resp_passo].
Qed.

Lemma resp_corrigir_violacoes_remocao no : resp (_corrigir_violacoes_remocao no V').
Proof. unfold _corrigir_violacoes_remocao. repeat resp_passo. Qed.

Lemma resp_balancear_apos_remocao no : resp (_balancear_apos_remocao no V').
Proof.
  unfold _balancear_apos_remocao.
  destruct no; [apply resp_corrigir_violacoes_remocao|by apply respeita_ret].
Qed.

Lemma resp_percorrer_em_ordem fuel no v p res :
  resp (_percorrer_em_ordem fuel no v p res).
Proof.
  revert no p res. induction fuel as [|fuel IH]; intros no p res; simpl.
  - apply respeita_divergir.
  - repeat first [apply IH | resp_passo].
Qed.

Lemma resp_laco_sucessor fuel atual suc valor v :
  resp (_laco_sucessor fuel atual suc valor v).
Proof.
  revert atual suc. induction fuel as [|fuel IH]; intros atual suc; simpl.
  - apply respeita_divergir.
  - repeat first [apply IH | resp_passo].
Qed.

End Respeito.

Section RespeitoRemocao.
Variable V' : Z.
Hypothesis V'_nao_zero : V' ≠ 0.

Local Abbreviation resph := (respeita V' (Rh V')).

Lemma resp_retirar r : resph (retirar r V').
Proof. apply respeita_modificar; [apply _|]. intros n. apply Rh_remover. Qed.

Lemma resp_atribuir_valor r k : resph (atribuir_valor r k).
Proof. apply respeita_modificar; [apply _|]. intros n. apply Rh_atribuir_valor. Qed.

Ltac resph_passo :=
  first
    [ apply respeita_ret; solve [apply _]
    | apply respeita_divergir
    | apply respeita_objeto; solve [apply _]
    | apply resp_obter_valor; solve [done | apply _]
    | apply resp_obter_filho_esquerdo; solve [done | apply _]
    | apply resp_obter_filho_direito; solve [done | apply _]
    | apply resp_esta_ativo; solve [done | apply _]
    | apply resp_definir_filho_esquerdo; solve [done | apply _]
    | apply resp_definir_filho_direito; solve [done | apply _]
    | apply resp_definir_pai_se; solve [done | apply _]
    | apply resp_balancear_apos_remocao; solve [done | apply _]
    | apply resp_encontrar_minimo; solve [done | apply _]
    | apply resp_retirar | apply resp_atribuir_valor
    | apply respeita_bind; [solve [apply _]| |intros]
    | match goal with
      | |- respeita _ _ (if ?b then _ else _) => destruct b
      | |- respeita _ _ (match ?o with Some _ => _ | None => _ end) => destruct o
      end ].

Lemma resp_remover_no rec fuel no :
  (∀ o k, resph (rec o k V')) → resph (_remover_no rec fuel no V').
Proof.
  intros Hrec. unfold _remover_no. repeat first [apply Hrec | resph_passo].
Qed.

Lemma resp_remover_recursivo fuel no valor :
  resph (_remover_recursivo fuel no valor V').
Proof.
  revert no valor. induction fuel as [|fuel IH]; intros no valor; simpl.
  - apply respeita_divergir.
  - repeat first [apply IH | apply resp_remover_no; intros | resph_passo].
Qed.

End RespeitoRemocao.

(** ** The two mutating methods *)

(** [incluir] and [remover] are the same code around different recursive
    helpers. *)
Definition mutar (rec : nat -> option Ref -> Z -> Z -> M Memoria (option Ref))
    (valor : Z) : M Arvore unit :=
  va <~ ler_versao_atual ;;
  let nova_versao := va + 1 in
  raiz <~ ler_raiz va ;;
  fuel <~ combustivel ;;
  nova_raiz <~ na_memoria (rec fuel raiz valor nova_versao) ;;
  na_memoria (pintar_raiz nova_raiz nova_versao) ;;;
  escrever_raiz nova_versao nova_raiz ;;;
  escrever_versao_atual nova_versao.

Lemma incluir_mutar valor : incluir valor = mutar _incluir_recursivo valor.
Proof. done. Qed.

Lemma remover_mutar valor : remover valor = mutar _remover_recursivo valor.
Proof. done. Qed.

(** The outcomes of a mutation, by the step that ends it. *)
Inductive passo_mutar rec (valor : Z) (t : Arvore) : Res Arvore unit -> Prop :=
  | pm_raiz :
      py_obter (raizes t) (versao_atual t) = None →
      passo_mutar rec valor t (Exc IndexError t)
  | pm_rec_div raiz :
      py_obter (raizes t) (versao_atual t) = Some raiz →
      rec (S (length (memoria t))) raiz valor (versao_atual t + 1) (memoria t) = Div →
      passo_mutar rec valor t Div
  | pm_rec_exc raiz e m1 :
      py_obter (raizes t) (versao_atual t) = Some raiz →
      rec (S (length (memoria t))) raiz valor (versao_atual t + 1) (memoria t)
        = Exc e m1 →
      passo_mutar rec valor t
        (Exc e {| memoria := m1; raizes := raizes t; versao_atual := versao_atual t |})
  | pm_pintar_div raiz nova m1 :
      py_obter (raizes t) (versao_atual t) = Some raiz →
      rec (S (length (memoria t))) raiz valor (versao_atual t + 1) (memoria t)
        = Val nova m1 →
      pintar_raiz nova (versao_atual t + 1) m1 = Div →
      passo_mutar rec valor t Div
  | pm_pintar_exc raiz nova m1 e m2 :
      py_obter (raizes t) (versao_atual t) = Some raiz →
      rec (S (length (memoria t))) raiz valor (versao_atual t + 1) (memoria t)
        = Val nova m1 →
      pintar_raiz nova (versao_atual t + 1) m1 = Exc e m2 →
      passo_mutar rec valor t
        (Exc e {| memoria := m2; raizes := raizes t; versao_atual := versao_atual t |})
  | pm_cheia raiz nova m1 m2 :
      py_obter (raizes t) (versao_atual t) = Some raiz →
      rec (S (length (memoria t))) raiz valor (versao_atual t + 1) (memoria t)
        = Val nova m1 →
      pintar_raiz nova (versao_atual t + 1) m1 = Val tt m2 →
      py_atribuir (raizes t) (versao_atual t + 1) nova = None →
      passo_mutar rec valor t
        (Exc IndexError
           {| memoria := m2; raizes := raizes t; versao_atual := versao_atual t |})
  | pm_ok raiz nova m1 m2 rz :
      py_obter (raizes t) (versao_atual t) = Some raiz →
      rec (S (length (memoria t))) raiz valor (versao_atual t + 1) (memoria t)
        = Val nova m1 →
      pintar_raiz nova (versao_atual t + 1) m1 = Val tt m2 →
      py_atribuir (raizes t) (versao_atual t + 1) nova = Some rz →
      passo_mutar rec valor t
        (Val tt {| memoria := m2; raizes := rz; versao_atual := versao_atual t + 1 |}).

Lemma mutar_passo rec valor t : passo_mutar rec valor t (mutar rec valor t).
Proof.
  destruct t as [m rs va].
  unfold mutar, bind, ler_versao_atual, ler_raiz, combustivel, na_memoria,
    escrever_raiz, escrever_versao_atual; cbn [memoria raizes versao_atual].
  destruct (py_obter rs va) as [raiz|] eqn:Eraiz; [|by apply pm_raiz].
  cbn [memoria raizes versao_atual].
  destruct (rec (S (length m)) raiz valor (va + 1) m) as [nova m1|e m1|] eqn:Erec;
    [|by eapply (pm_rec_exc _ _ (Build_Arvore m rs va))
     |by eapply (pm_rec_div _ _ (Build_Arvore m rs va))].
  cbn [memoria raizes versao_atual].
  destruct (pintar_raiz nova (va + 1) m1) as [[] m2|e m2|] eqn:Epin;
    [|by eapply (pm_pintar_exc _ _ (Build_Arvore m rs va))
     |by eapply (pm_pintar_div _ _ (Build_Arvore m rs va))].
  cbn [memoria raizes versao_atual].
  destruct (py_atribuir rs (va + 1) nova) as [rz|] eqn:Eatr;
    [by eapply (pm_ok _ _ (Build_Arvore m rs va))
    |by eapply (pm_cheia _ _ (Build_Arvore m rs va))].
Qed.

Ltac casos_Zb :=
  repeat match goal with
         | |- context [?a <=? ?b] => destruct (Z.leb_spec a b)
         | |- context [?a <? ?b] => destruct (Z.ltb_spec a b)
         | H : context [?a <=? ?b] |- _ => destruct (Z.leb_spec a b)
         | H : context [?a <? ?b] |- _ => destruct (Z.ltb_spec a b)
         end.

Lemma py_indice_dentro {A} (l : list A) (i : Z) :
  0 <= i < Z.of_nat (length l) → py_indice l i = Some (Z.to_nat i).
Proof. intros H. unfold py_indice. casos_Zb; simpl; try done; lia. Qed.

Lemma py_indice_negativo {A} (l : list A) (i : Z) :
  - Z.of_nat (length l) <= i < 0 →
  py_indice l i = Some (Z.to_nat (Z.of_nat (length l) + i)).
Proof. intros H. unfold py_indice. casos_Zb; simpl; try done; lia. Qed.

Lemma py_indice_fora {A} (l : list A) (i : Z) :
  i < - Z.of_nat (length l) ∨ Z.of_nat (length l) <= i → py_indice l i = None.
Proof. intros H. unfold py_indice. casos_Zb; simpl; try done; lia. Qed.

Lemma py_indice_Some {A} (l : list A) (i : Z) j :
  py_indice l i = Some j → (j < length l)%nat.
Proof. unfold py_indice. casos_Zb; simpl; intros [= <-]; lia. Qed.

(** ** Reachable states and what holds in all of them *)

(** The states a program can be in: [ArvoreRubroNegra()] followed by calls of
    [incluir] and [remover], each of which returned or raised (the caller may
    catch the exception and go on, as [processar_operacao] does). *)
Inductive alcancavel : Arvore -> Prop :=
  | alc_vazia : alcancavel arvore_vazia
  | alc_incluir t valor t' :
      alcancavel t → estado_final (incluir valor t) = Some t' → alcancavel t'
  | alc_remover t valor t' :
      alcancavel t → estado_final (remover valor t) = Some t' → alcancavel t'.

(** [roots[v]] is empty or a node that is BLACK at [v]. *)
Definition raiz_preta (t : Arvore) (v : Z) : bool :=
  match py_obter (raizes t) v with
  | Some None => true
  | Some (Some r) =>
      match memoria t !! r with
      | Some n => Cor_eqb (No.obter_cor n v) PRETO
      | None => false
      end
  | None => false
  end.

Record Base (t : Arvore) : Prop := {
  bs_raizes : length (raizes t) = 100%nat;
  bs_versao : 0 <= versao_atual t <= 99;
  bs_criacao : ∀ r n, memoria t !! r = Some n → 1 <= No.versao_criacao n;
  bs_raiz_valida : ∀ i r, raizes t !! i = Some (Some r) → (r < length (memoria t))%nat;
  bs_raiz_preta : ∀ v, 0 <= v <= versao_atual t → raiz_preta t v = true
}.

Lemma Base_vazia : Base arvore_vazia.
Proof.
  split; unfold arvore_vazia; cbn [memoria raizes versao_atual].
  - by rewrite length_replicate.
  - lia.
  - intros r n Hn. by rewrite lookup_nil in Hn.
  - intros i r Hr. apply lookup_replicate in Hr as [[=] _].
  - intros v Hv. assert (v = 0) as -> by lia. done.
Qed.

Lemma pintar_raiz_Val nova v m1 m2 :
  pintar_raiz nova v m1 = Val tt m2 →
  match nova with
  | None => m2 = m1
  | Some r => ∃ n, m1 !! r = Some n ∧ m2 = <[r := No.definir_cor n PRETO v]> m1
  end.
Proof.
  destruct nova as [r|]; simpl.
  - unfold definir_cor, modificar. destruct (m1 !! r) as [n|]; [|done].
    intros [= <-]. eauto.
  - by intros [= <-].
Qed.

Lemma obter_cor_definir_cor n c v : No.obter_cor (No.definir_cor n c v) v = c.
Proof. rewrite obter_cor_consultar. simpl. apply consultar_insert_eq. Qed.

(** Frames keep what [Base] says about the versions below [V']. *)
Lemma Base_quadro t m' :
  Base t → quadro (versao_atual t + 1) (Rh (versao_atual t + 1)) (memoria t) m' →
  Base {| memoria := m'; raizes := raizes t; versao_atual := versao_atual t |}.
Proof.
  intros [Hlen Hv Hcr Hval Hpr] (Hle & Hold & Hnew). split; simpl; try done.
  - intros r n' Hn'. destruct (decide (r < length (memoria t))%nat) as [Hlt|Hge].
    + destruct (lookup_lt_is_Some_2 _ _ Hlt) as [n Hn].
      destruct (Hold _ _ Hn) as (n'' & Hn'' & HR).
      assert (n'' = n') as -> by congruence.
      rewrite (rh_criacao _ _ _ HR). by eapply Hcr.
    + destruct (Hnew r n') as [Hc _ _ _ _]; [lia|done|]. lia.
  - intros i r Hr. specialize (Hval _ _ Hr). lia.
  - intros v Hvv. specialize (Hpr v Hvv). unfold raiz_preta in *. simpl.
    destruct (py_obter (raizes t) v) as [[r|]|] eqn:E; try done.
    destruct (memoria t !! r) as [n|] eqn:En; [|done].
    destruct (Hold _ _ En) as (n' & -> & HR).
    rewrite (rh_cor _ _ _ HR) by lia. done.
Qed.

Lemma Base_mutar rec valor t t' :
  (∀ V', V' ≠ 0 → ∀ fuel o, respeita V' (Rh V') (rec fuel o valor V')) →
  Base t → estado_final (mutar rec valor t) = Some t' → Base t'.
Proof.
  intros Hrec HB Hfin.
  assert (versao_atual t + 1 ≠ 0) as HV' by (destruct HB; lia).
  pose proof (resp_pintar_raiz _ HV' (Rh _)) as Hpin.
  specialize (Hrec _ HV').
  revert Hfin. destruct (mutar_passo rec valor t) as
    [Hr|raiz Hr Hd|raiz e m1 Hr He|raiz nova m1 Hr Hv Hd|raiz nova m1 e m2 Hr Hv He
    |raiz nova m1 m2 Hr Hv Hp Ha|raiz nova m1 m2 rz Hr Hv Hp Ha]; simpl; intros [= <-].
  - by destruct t.
  - apply Base_quadro; [done|]. apply (Hrec (S (length (memoria t))) raiz (memoria t)). by rewrite He.
  - apply Base_quadro; [done|].
    eapply quadro_trans; [apply _| |].
    + apply (Hrec (S (length (memoria t))) raiz (memoria t)). by rewrite Hv.
    + apply (Hpin nova m1). by rewrite He.
  - apply Base_quadro; [done|].
    eapply quadro_trans; [apply _| |].
    + apply (Hrec (S (length (memoria t))) raiz (memoria t)). by rewrite Hv.
    + apply (Hpin nova m1). by rewrite Hp.
  - assert (quadro (versao_atual t + 1) (Rh (versao_atual t + 1)) (memoria t) m2)
      as Hq.
    { eapply quadro_trans; [apply _| |].
      - apply (Hrec (S (length (memoria t))) raiz (memoria t)). by rewrite Hv.
      - apply (Hpin nova m1). by rewrite Hp. }
    pose proof (Base_quadro _ _ HB Hq) as [Hlen Hver Hcr Hval Hpr]. simpl in *.
    unfold py_atribuir in Ha.
    destruct (py_indice (raizes t) (versao_atual t + 1)) as [j|] eqn:Ej; [|done].
    simpl in Ha. injection Ha as <-.
    pose proof (py_indice_Some _ _ _ Ej) as Hj.
    assert (versao_atual t + 1 < 100) as Hcap.
    { destruct (decide (versao_atual t + 1 < 100)); [done|].
      rewrite py_indice_fora in Ej by lia. done. }
    rewrite py_indice_dentro in Ej by lia. injection Ej as <-.
    apply pintar_raiz_Val in Hp.
    split; simpl.
    + by rewrite length_insert.
    + lia.
    + done.
    + intros i r Hi. destruct (decide (i = Z.to_nat (versao_atual t + 1))) as [->|Hne].
      * rewrite list_lookup_insert_eq in Hi by done. injection Hi as ->.
        destruct Hp as (n & Hn & ->). rewrite length_insert.
        by eapply lookup_lt_Some.
      * rewrite list_lookup_insert_ne in Hi by done. by eapply Hval.
    + intros v Hvv. destruct (decide (v = versao_atual t + 1)) as [->|Hne].
      * unfold raiz_preta, py_obter. simpl.
        rewrite py_indice_dentro by (rewrite length_insert; lia). simpl.
        rewrite list_lookup_insert_eq by done.
        destruct nova as [r|]; [|done].
        destruct Hp as (n & Hn & ->).
        rewrite list_lookup_insert_eq by (by eapply lookup_lt_Some).
        by rewrite obter_cor_definir_cor.
      * specialize (Hpr v ltac:(lia)). unfold raiz_preta, py_obter in *. simpl in *.
        rewrite py_indice_dentro in * by (rewrite ?length_insert; lia). simpl in *.
        rewrite list_lookup_insert_ne by lia. done.
Qed.

Lemma alcancavel_Base t : alcancavel t → Base t.
Proof.
  induction 1 as [|t valor t' _ IH Hf|t valor t' _ IH Hf].
  - apply Base_vazia.
  - rewrite incluir_mutar in Hf. eapply Base_mutar; [|done..].
    intros V' HV' fuel o. apply resp_incluir_recursivo; [done|apply _..].
  - rewrite remover_mutar in Hf. eapply Base_mutar; [|done..].
    intros V' HV' fuel o. by apply resp_remover_recursivo.
Qed.

(** C6. After every sequence of [incluir] and [remover] calls from the empty
    tree, for every version [v] in [[0, versao_atual]], [raizes[v]] is [None]
    or a node whose colour at [v] is [PRETO]. *)
Theorem raiz_sempre_preta (t : Arvore) (v : Z) :
  alcancavel t → 0 <= v <= versao_atual t → raiz_preta t v = true.
Proof. intros Ht Hv. by apply alcancavel_Base. Qed.

(** ** What a version sees of an object, and how writes change it *)

Record Visao := {
  vs_valor : Z;
  vs_ativo : bool;
  vs_cor : Cor;
  vs_esq : option Ref;
  vs_dir : option Ref
}.

Definition visao_de (v : Z) (n : No.t) : Visao :=
  {| vs_valor := No.valor n;
     vs_ativo := No.esta_ativo n v;
     vs_cor := No.obter_cor n v;
     vs_esq := No.obter_filho_esquerdo n v;
     vs_dir := No.obter_filho_direito n v |}.

Definition vis (m : Memoria) (v : Z) (r : Ref) : option Visao :=
  visao_de v <$> m !! r.

Lemma vis_Some m v r x :
  vis m v r = Some x ↔ ∃ n, m !! r = Some n ∧ x = visao_de v n.
Proof.
  unfold vis. destruct (m !! r) as [n|]; simpl; split.
  - intros [= <-]. eauto.
  - by intros (? & [= <-] & ->).
  - done.
  - by intros (? & ? & ?).
Qed.

Lemma vis_lt m v r x : vis m v r = Some x → (r < length m)%nat.
Proof. intros (n & Hn & _)%vis_Some. by eapply lookup_lt_Some. Qed.

Lemma obter_filhos_definir_filhos n e d v :
  No.obter_filhos (No.definir_filhos n e d v) v = (e, d).
Proof. rewrite obter_filhos_consultar. simpl. apply consultar_insert_eq. Qed.

Lemma visao_definir_cor v n c :
  visao_de v (No.definir_cor n c v) =
  {| vs_valor := No.valor n; vs_ativo := No.esta_ativo n v; vs_cor := c;
     vs_esq := No.obter_filho_esquerdo n v; vs_dir := No.obter_filho_direito n v |}.
Proof. unfold visao_de. by rewrite obter_cor_definir_cor. Qed.

Lemma visao_definir_filhos v n e d :
  visao_de v (No.definir_filhos n e d v) =
  {| vs_valor := No.valor n; vs_ativo := No.esta_ativo n v;
     vs_cor := No.obter_cor n v; vs_esq := e; vs_dir := d |}.
Proof.
  unfold visao_de, No.obter_filho_esquerdo, No.obter_filho_direito.
  by rewrite obter_filhos_definir_filhos.
Qed.

Lemma visao_definir_pai v n p u :
  visao_de v (No.definir_pai n p u) = visao_de v n.
Proof. done. Qed.

Lemma visao_remover v n :
  visao_de v (No.remover n v) =
  {| vs_valor := No.valor n; vs_ativo := false; vs_cor := No.obter_cor n v;
     vs_esq := No.obter_filho_esquerdo n v; vs_dir := No.obter_filho_direito n v |}.
Proof.
  unfold visao_de, No.esta_ativo. simpl.
  rewrite Z.ltb_irrefl, andb_false_r. done.
Qed.

Lemma visao_atribuir_valor v n k :
  visao_de v (No.atribuir_valor n k) =
  {| vs_valor := k; vs_ativo := No.esta_ativo n v; vs_cor := No.obter_cor n v;
     vs_esq := No.obter_filho_esquerdo n v; vs_dir := No.obter_filho_direito n v |}.
Proof. done. Qed.

Lemma visao_init v k c :
  visao_de v (No.init k c v) =
  {| vs_valor := k; vs_ativo := true; vs_cor := c; vs_esq := None; vs_dir := None |}.
Proof.
  unfold visao_de, No.esta_ativo, No.obter_filho_esquerdo, No.obter_filho_direito.
  rewrite obter_cor_consultar, obter_filhos_consultar. simpl.
  rewrite Z.leb_refl. unfold consultar.
  rewrite !(versao_valida_max _ v v);
    rewrite ?lookup_singleton_eq; try done; try lia;
    try (intros x [y Hx]; apply lookup_singleton_Some in Hx as [<- _]; lia).
Qed.

(** [wp c m Q]: from [m], [c] returns a value, and value and final heap
    satisfy [Q]. *)
Definition wp {A} (c : M Memoria A) (m : Memoria) (Q : A -> Memoria -> Prop) : Prop :=
  ∃ a m', c m = Val a m' ∧ Q a m'.

Lemma wp_ret {A} (a : A) m Q : Q a m → wp (ret a) m Q.
Proof. intros H. by exists a, m. Qed.

Lemma wp_bind {A B} (c : M Memoria A) (k : A -> M Memoria B) m Q :
  wp c m (fun a m1 => wp (k a) m1 Q) → wp (bind c k) m Q.
Proof.
  intros (a & m1 & Hc & b & m2 & Hk & HQ). exists b, m2. split; [|done].
  unfold bind. by rewrite Hc.
Qed.

Lemma wp_mono {A} (c : M Memoria A) m (Q Q' : A -> Memoria -> Prop) :
  wp c m Q → (∀ a m', Q a m' → Q' a m') → wp c m Q'.
Proof. intros (a & m' & Hc & HQ) H. exists a, m'. auto. Qed.

Lemma wp_objeto r m Q : Q r m → wp (objeto (Some r)) m Q.
Proof. apply wp_ret. Qed.

Section Leituras.
Variables (m : Memoria) (v : Z) (r : Ref) (x : Visao).
Hypothesis Hx : vis m v r = Some x.

Lemma wp_ler Q : (∀ n, m !! r = Some n → visao_de v n = x → Q n m) → wp (ler r) m Q.
Proof using Hx.
  intros H. apply vis_Some in Hx as (n & Hn & ->).
  exists n, m. unfold ler. rewrite Hn. auto.
Qed.

Lemma wp_obter_valor Q : Q (vs_valor x) m → wp (obter_valor r) m Q.
Proof using Hx.
  intros H. apply wp_bind, wp_ler. intros n _ <-. by apply wp_ret.
Qed.

Lemma wp_obter_cor Q : Q (vs_cor x) m → wp (obter_cor r v) m Q.
Proof using Hx.
  intros H. apply wp_bind, wp_ler. intros n _ <-. by apply wp_ret.
Qed.

Lemma wp_obter_filho_esquerdo Q : Q (vs_esq x) m → wp (obter_filho_esquerdo r v) m Q.
Proof using Hx.
  intros H. apply wp_bind, wp_ler. intros n _ <-. by apply wp_ret.
Qed.

Lemma wp_obter_filho_direito Q : Q (vs_dir x) m → wp (obter_filho_direito r v) m Q.
Proof using Hx.
  intros H. apply wp_bind, wp_ler. intros n _ <-. by apply wp_ret.
Qed.

Lemma wp_esta_ativo Q : Q (vs_ativo x) m → wp (esta_ativo r v) m Q.
Proof using Hx.
  intros H. apply wp_bind, wp_ler. intros n _ <-. by apply wp_ret.
Qed.

Lemma wp_obter_pai Q : (∀ p, Q p m) → wp (obter_pai r v) m Q.
Proof using Hx.
  intros H. apply wp_bind, wp_ler. intros n _ _. by apply wp_ret.
Qed.

(** A write to [r] whose effect on the view at [v] is [f]. *)
Lemma wp_modificar (g : No.t -> No.t) (f : Visao -> Visao) Q :
  (∀ n, visao_de v (g n) = f (visao_de v n)) →
  (∀ m', length m' = length m →
         (∀ r', vis m' v r' = if decide (r' = r) then Some (f x) else vis m v r') →
         Q tt m') →
  wp (modificar r g) m Q.
Proof using Hx.
  intros Hg H. apply vis_Some in Hx as (n & Hn & ->).
  exists tt, (<[r := g n]> m). unfold modificar. rewrite Hn. split; [done|].
  apply H; [by rewrite length_insert|].
  intros r'. unfold vis. case_decide as E.
  - subst r'. rewrite list_lookup_insert_eq by (by eapply lookup_lt_Some).
    simpl. by rewrite Hg.
  - by rewrite list_lookup_insert_ne.
Qed.

Definition com_cor (c : Cor) (y : Visao) : Visao :=
  {| vs_valor := vs_valor y; vs_ativo := vs_ativo y; vs_cor := c;
     vs_esq := vs_esq y; vs_dir := vs_dir y |}.
Definition com_filhos (e d : option Ref) (y : Visao) : Visao :=
  {| vs_valor := vs_valor y; vs_ativo := vs_ativo y; vs_cor := vs_cor y;
     vs_esq := e; vs_dir := d |}.
Definition com_valor (k : Z) (y : Visao) : Visao :=
  {| vs_valor := k; vs_ativo := vs_ativo y; vs_cor := vs_cor y;
     vs_esq := vs_esq y; vs_dir := vs_dir y |}.
Definition inativa (y : Visao) : Visao :=
  {| vs_valor := vs_valor y; vs_ativo := false; vs_cor := vs_cor y;
     vs_esq := vs_esq y; vs_dir := vs_dir y |}.

Lemma wp_definir_cor c Q :
  (∀ m', length m' = length m →
         (∀ r', vis m' v r' = if decide (r' = r) then Some (com_cor c x) else vis m v r') →
         Q tt m') →
  wp (definir_cor r c v) m Q.
Proof using Hx. apply wp_modificar. intros n. apply visao_definir_cor. Qed.

Lemma wp_definir_filhos e d Q :
  (∀ m', length m' = length m →
         (∀ r', vis m' v r' =
                if decide (r' = r) then Some (com_filhos e d x) else vis m v r') →
         Q tt m') →
  wp (definir_filhos r e d v) m Q.
Proof using Hx. apply wp_modificar. intros n. apply visao_definir_filhos. Qed.

Lemma wp_definir_filho_esquerdo e Q :
  (∀ m', length m' = length m →
         (∀ r', vis m' v r' =
                if decide (r' = r) then Some (com_filhos e (vs_dir x) x)
                else vis m v r') →
         Q tt m') →
  wp (definir_filho_esquerdo r e v) m Q.
Proof using Hx.
  intros H.
  eapply (wp_modificar _ (fun y => com_filhos e (vs_dir y) y)); [|done].
  intros n'. apply visao_definir_filhos.
Qed.

Lemma wp_definir_filho_direito d Q :
  (∀ m', length m' = length m →
         (∀ r', vis m' v r' =
                if decide (r' = r) then Some (com_filhos (vs_esq x) d x)
                else vis m v r') →
         Q tt m') →
  wp (definir_filho_direito r d v) m Q.
Proof using Hx.
  intros H.
  eapply (wp_modificar _ (fun y => com_filhos (vs_esq y) d y)); [|done].
  intros n'. apply visao_definir_filhos.
Qed.

Lemma wp_definir_pai p Q :
  (∀ m', length m' = length m → (∀ r', vis m' v r' = vis m v r') → Q tt m') →
  wp (definir_pai r p v) m Q.
Proof using Hx.
  intros H. apply (wp_modificar _ (fun y => y)); [done|].
  intros m' Hl Hv. apply H; [done|]. intros r'. rewrite Hv.
  case_decide; [by subst|done].
Qed.

Lemma wp_retirar Q :
  (∀ m', length m' = length m →
         (∀ r', vis m' v r' = if decide (r' = r) then Some (inativa x) else vis m v r') →
         Q tt m') →
  wp (retirar r v) m Q.
Proof using Hx. apply wp_modificar. intros n. apply visao_remover. Qed.

Lemma wp_atribuir_valor k Q :
  (∀ m', length m' = length m →
         (∀ r', vis m' v r' =
                if decide (r' = r) then Some (com_valor k x) else vis m v r') →
         Q tt m') →
  wp (atribuir_valor r k) m Q.
Proof using Hx. apply wp_modificar. intros n. apply visao_atribuir_valor. Qed.

End Leituras.

Lemma wp_novo_No m v k c Q :
  (∀ m', length m' = S (length m) →
         (∀ r', vis m' v r' =
                if decide (r' = length m)
                then Some {| vs_valor := k; vs_ativo := true; vs_cor := c;
                             vs_esq := None; vs_dir := None |}
                else vis m v r') →
         Q (length m) m') →
  wp (novo_No k c v) m Q.
Proof.
  intros H. exists (length m), (m ++ [No.init k c v]). split; [done|].
  apply H; [rewrite length_app; simpl; lia|].
  intros r'. unfold vis. case_decide as E.
  - subst. rewrite lookup_app_r by lia. rewrite Nat.sub_diag. simpl.
    by rewrite visao_init.
  - destruct (decide (r' < length m)%nat).
    + by rewrite lookup_app_l.
    + rewrite !lookup_ge_None_2; [done|lia|rewrite length_app; simpl; lia].
Qed.

Lemma wp_definir_pai_se m v o p Q :
  (∀ q, o = Some q → is_Some (vis m v q)) →
  (∀ m', length m' = length m → (∀ r', vis m' v r' = vis m v r') → Q tt m') →
  wp (definir_pai_se o p v) m Q.
Proof.
  intros Ho H. destruct o as [q|]; simpl.
  - destruct (Ho q eq_refl) as [x Hx]. by eapply wp_definir_pai.
  - apply wp_ret. by apply H.
Qed.

(** ** The tree a version denotes *)

(** A version of the tree, read off the heap: colour, object, key and the two
    subtrees of every node. *)
Inductive arv :=
  | Folha
  | Nodo (c : Cor) (r : Ref) (k : Z) (e d : arv).

Fixpoint refs (a : arv) : list Ref :=
  match a with
  | Folha => []
  | Nodo _ r _ e d => refs e ++ r :: refs d
  end.

Fixpoint chaves (a : arv) : list Z :=
  match a with
  | Folha => []
  | Nodo _ _ k e d => chaves e ++ k :: chaves d
  end.

Fixpoint altura (a : arv) : nat :=
  match a with
  | Folha => 0
  | Nodo _ _ _ e d => S (altura e `max` altura d)
  end.

Definition raiz_de (a : arv) : option Ref :=
  match a with
  | Folha => None
  | Nodo _ r _ _ _ => Some r
  end.

(** [rep m v o a]: at version [v], the reference [o] is the root of [a]. *)
Fixpoint rep (m : Memoria) (v : Z) (o : option Ref) (a : arv) : Prop :=
  match a with
  | Folha => o = None
  | Nodo c r k e d =>
      o = Some r ∧
      ∃ oe od,
        vis m v r = Some {| vs_valor := k; vs_ativo := true; vs_cor := c;
                            vs_esq := oe; vs_dir := od |} ∧
        rep m v oe e ∧ rep m v od d
  end.

Lemma rep_raiz m v o a : rep m v o a → o = raiz_de a.
Proof. destruct a; simpl; [done|]. by intros [-> _]. Qed.

Lemma rep_cong m m' v o a :
  (∀ r, r ∈ refs a → vis m' v r = vis m v r) → rep m v o a → rep m' v o a.
Proof.
  revert o. induction a as [|c r k e IHe d IHd]; intros o Hv; simpl; [done|].
  intros (-> & oe & od & Hr & He & Hd). split; [done|]. exists oe, od.
  split; [|split].
  - rewrite Hv; [done|]. simpl. set_solver.
  - apply IHe; [|done]. intros r' Hr'. apply Hv. simpl. set_solver.
  - apply IHd; [|done]. intros r' Hr'. apply Hv. simpl. set_solver.
Qed.

Lemma rep_vis m v o a r : rep m v o a → r ∈ refs a → is_Some (vis m v r).
Proof.
  revert o. induction a as [|c r0 k e IHe d IHd]; intros o; simpl.
  - intros _ H. by apply elem_of_nil in H.
  - intros (-> & oe & od & Hr & He & Hd) Hin.
    apply elem_of_app in Hin as [Hin|Hin]; [by eapply IHe|].
    apply elem_of_cons in Hin as [->|Hin]; [by eexists|by eapply IHd].
Qed.

Lemma rep_lt m v o a r : rep m v o a → r ∈ refs a → (r < length m)%nat.
Proof. intros H Hin. destruct (rep_vis _ _ _ _ _ H Hin) as [x Hx]. by eapply vis_lt. Qed.

Lemma rep_Some m v q a : rep m v (Some q) a → q ∈ refs a ∧ is_Some (vis m v q).
Proof.
  destruct a as [|c r k e d]; simpl; [done|].
  intros ([= ->] & oe & od & Hr & _). split; [set_solver|by eexists].
Qed.

(** Two trees read from the same reference are the same tree. *)
Lemma rep_unica m v o a a' : rep m v o a → rep m v o a' → a = a'.
Proof.
  revert o a'. induction a as [|c r k e IHe d IHd]; intros o [|c' r' k' e' d']; simpl.
  - done.
  - by intros -> [? _].
  - by intros [-> _] ?.
  - intros (-> & oe & od & Hr & He & Hd) ([= <-] & oe' & od' & Hr' & He' & Hd').
    rewrite Hr in Hr'. injection Hr' as <- <- <- <-.
    f_equal; [by eapply IHe|by eapply IHd].
Qed.

(** *** The rebalancing of [_balancear_apos_inclusao], on trees *)

Definition e_verm (a : arv) : bool :=
  match a with
  | Nodo VERMELHO _ _ _ _ => true
  | _ => false
  end.

Definition pintar (c : Cor) (a : arv) : arv :=
  match a with
  | Folha => Folha
  | Nodo _ r k e d => Nodo c r k e d
  end.

Definition rot_EE (a : arv) : arv :=
  match a with
  | Nodo _ no x (Nodo _ fe xe nee ed) d =>
      Nodo VERMELHO fe xe (pintar PRETO nee) (Nodo PRETO no x ed d)
  | _ => a
  end.

Definition rot_ED (a : arv) : arv :=
  match a with
  | Nodo _ no x (Nodo _ fe xe ee (Nodo _ ned xn b c)) d =>
      Nodo VERMELHO ned xn (Nodo PRETO fe xe ee b) (Nodo PRETO no x c d)
  | _ => a
  end.

Definition rot_DE (a : arv) : arv :=
  match a with
  | Nodo _ no x e (Nodo _ fd xd (Nodo _ nde xn b c) dd) =>
      Nodo VERMELHO nde xn (Nodo PRETO no x e b) (Nodo PRETO fd xd c dd)
  | _ => a
  end.

Definition rot_DD (a : arv) : arv :=
  match a with
  | Nodo _ no x e (Nodo _ fd xd de ndd) =>
      Nodo VERMELHO fd xd (Nodo PRETO no x e de) (pintar PRETO ndd)
  | _ => a
  end.

Definition lado_direito (a : arv) : arv :=
  match a with
  | Nodo _ _ _ _ (Nodo VERMELHO _ _ de dd) =>
      if e_verm de then rot_DE a else if e_verm dd then rot_DD a else a
  | _ => a
  end.

Definition balancear (a : arv) : arv :=
  match a with
  | Nodo _ _ _ (Nodo VERMELHO _ _ ee ed) _ =>
      if e_verm ee then rot_EE a else if e_verm ed then rot_ED a else lado_direito a
  | _ => lado_direito a
  end.

(** *** Stepping through a helper *)

Ltac vis_resolver :=
  repeat match goal with
         | H : ∀ r', vis ?m ?v r' = _ |- vis ?m ?v ?r = _ =>
             rewrite (H r);
             try first [ rewrite decide_True by done
                       | rewrite decide_False by first [done | congruence | lia] ]
         end;
  first [eassumption | reflexivity].

Ltac wp_limpar :=
  cbn beta iota delta
    [vs_valor vs_ativo vs_cor vs_esq vs_dir com_cor com_filhos com_valor inativa].

(** Disequalities between the objects of a tree without repetitions. *)
Ltac abrir_nodup :=
  repeat match goal with
         | H : NoDup (_ ++ _) |- _ => apply NoDup_app in H as (? & ? & ?)
         | H : NoDup (_ :: _) |- _ => apply NoDup_cons in H as (? & ?)
         end.

Ltac distinto :=
  lazymatch goal with
  | |- ?a ≠ ?b =>
      repeat match goal with
             | H : ∀ x : nat, x ∈ _ → x ∉ _ |- _ =>
                 pose proof (H a); pose proof (H b); clear H
             end;
      let E := fresh in intros E; subst; set_solver
  end.

Ltac distintos :=
  repeat match goal with
         | H : vis _ _ _ = _ |- _ => clear H
         | H : rep _ _ _ _ |- _ => clear H
         | H : ∀ r', vis _ _ r' = _ |- _ => clear H
         end;
  abrir_nodup; repeat split; distinto.

(** Rewrite [vis m' v r] back to the heap the facts in the context start
    from, for an object [r] that the writes in between did not touch. *)
Ltac vis_recuar tac :=
  repeat match goal with
         | H : ∀ r', vis ?m ?v r' = _ |- context [vis ?m ?v ?r] =>
             rewrite (H r); try rewrite decide_False by tac
         end.

(** The root of a subtree is an object of the heap, whatever was written to
    the other objects. *)
Ltac raiz_valida :=
  let q := fresh "q" in let Hq := fresh "Hq" in
  intros q Hq;
  match goal with
  | H : rep _ _ ?o _ |- _ =>
      rewrite Hq in H;
      let Hin := fresh "Hin" in let Hv := fresh "Hv" in
      pose proof (rep_Some _ _ _ _ H) as [Hin Hv];
      repeat match goal with
             | Hm : ∀ r', vis ?m ?v r' = _ |- is_Some (vis ?m ?v ?r) =>
                 rewrite (Hm r); try (case_decide; [by eexists|])
             end;
      exact Hv
  end.

Ltac wp_passo :=
  cbn [e_vermelho objeto];
  lazymatch goal with
  | |- wp (bind _ _) _ _ => apply wp_bind
  | |- wp (ret _) _ _ => apply wp_ret
  | |- wp (obter_valor _) _ _ => eapply wp_obter_valor; [vis_resolver|]
  | |- wp (obter_cor _ _) _ _ => eapply wp_obter_cor; [vis_resolver|]
  | |- wp (obter_filho_esquerdo _ _) _ _ => eapply wp_obter_filho_esquerdo; [vis_resolver|]
  | |- wp (obter_filho_direito _ _) _ _ => eapply wp_obter_filho_direito; [vis_resolver|]
  | |- wp (esta_ativo _ _) _ _ => eapply wp_esta_ativo; [vis_resolver|]
  | |- wp (definir_cor _ _ _) _ _ => eapply wp_definir_cor; [vis_resolver|intros ? ? ?]
  | |- wp (definir_filhos _ _ _ _) _ _ =>
      eapply wp_definir_filhos; [vis_resolver|intros ? ? ?]
  | |- wp (definir_filho_esquerdo _ _ _) _ _ =>
      eapply wp_definir_filho_esquerdo; [vis_resolver|intros ? ? ?]
  | |- wp (definir_filho_direito _ _ _) _ _ =>
      eapply wp_definir_filho_direito; [vis_resolver|intros ? ? ?]
  | |- wp (definir_pai _ _ _) _ _ => eapply wp_definir_pai; [vis_resolver|intros ? ? ?]
  | |- wp (definir_pai_se _ _ _) _ _ =>
      eapply wp_definir_pai_se; [raiz_valida|intros ? ? ?]
  | |- wp (retirar _ _) _ _ => eapply wp_retirar; [vis_resolver|intros ? ? ?]
  | |- wp (atribuir_valor _ _) _ _ => eapply wp_atribuir_valor; [vis_resolver|intros ? ? ?]
  end; wp_limpar.

(** A subtree that the writes did not touch is still represented. *)
Ltac rep_intacta :=
  match goal with
  | H : rep ?m ?v ?o ?a |- rep _ ?v ?o ?a =>
      apply (rep_cong m _ v o a); [|exact H];
      let r := fresh "r" in let Hr := fresh "Hr" in
      intros r Hr; vis_recuar ltac:(distintos); reflexivity
  end.

Ltac rep_resolver :=
  lazymatch goal with
  | H : rep _ ?v ?o ?a |- rep _ ?v ?o ?a => rep_intacta
  | |- rep _ _ _ (Nodo _ _ _ _ _) =>
      split; [done|]; eexists _, _; split; [vis_resolver|split; rep_resolver]
  end.

Ltac fora_da_arvore H :=
  simpl in H;
  repeat first [rewrite not_elem_of_app in H | rewrite not_elem_of_cons in H];
  vis_recuar ltac:(intuition congruence); reflexivity.

Ltac fim_rotacao :=
  split; [cbn [rot_EE rot_ED rot_DE rot_DD pintar]; rep_resolver|split; [congruence|]];
  let r' := fresh "r'" in let Hr' := fresh "Hr'" in
  intros r' Hr'; fora_da_arvore Hr'.

Section Rotacoes.
Variables (m : Memoria) (v : Z).

Lemma rep_rot_EE c no x ce fe xe cee nee xee a1 a2 ed d :
  rep m v (Some no) (Nodo c no x (Nodo ce fe xe (Nodo cee nee xee a1 a2) ed) d) →
  NoDup (refs (Nodo c no x (Nodo ce fe xe (Nodo cee nee xee a1 a2) ed) d)) →
  wp (_balancear_caso_esquerda_esquerda no v) m (fun r m' =>
    rep m' v (Some r)
      (rot_EE (Nodo c no x (Nodo ce fe xe (Nodo cee nee xee a1 a2) ed) d)) ∧
    length m' = length m ∧
    ∀ r', r' ∉ refs (Nodo c no x (Nodo ce fe xe (Nodo cee nee xee a1 a2) ed) d) →
          vis m' v r' = vis m v r').
Proof.
  intros (_ & oe & od & Hno & (-> & oee & oed & Hfe & (-> & oa & ob & Hnee & Ha1 & Ha2)
                                 & Hed) & Hd) Hnd.
  simpl in Hnd.
  assert (no ≠ fe ∧ no ≠ nee ∧ fe ≠ nee) as (N1 & N2 & N3) by distintos.
  unfold _balancear_caso_esquerda_esquerda.
  repeat wp_passo. fim_rotacao.
Qed.

Lemma rep_rot_ED c no x ce fe xe ee cn ned xn b1 b2 d :
  rep m v (Some no) (Nodo c no x (Nodo ce fe xe ee (Nodo cn ned xn b1 b2)) d) →
  NoDup (refs (Nodo c no x (Nodo ce fe xe ee (Nodo cn ned xn b1 b2)) d)) →
  wp (_balancear_caso_esquerda_direita no v) m (fun r m' =>
    rep m' v (Some r)
      (rot_ED (Nodo c no x (Nodo ce fe xe ee (Nodo cn ned xn b1 b2)) d)) ∧
    length m' = length m ∧
    ∀ r', r' ∉ refs (Nodo c no x (Nodo ce fe xe ee (Nodo cn ned xn b1 b2)) d) →
          vis m' v r' = vis m v r').
Proof.
  intros (_ & oe & od & Hno & (-> & oee & oed & Hfe & Hee &
                                 (-> & ob1 & ob2 & Hned & Hb1 & Hb2)) & Hd) Hnd.
  simpl in Hnd.
  assert (no ≠ fe ∧ no ≠ ned ∧ fe ≠ ned) as (N1 & N2 & N3) by distintos.
  unfold _balancear_caso_esquerda_direita.
  repeat wp_passo. fim_rotacao.
Qed.

Lemma rep_rot_DE c no x e cd fd xd cn nde xn b1 b2 dd :
  rep m v (Some no) (Nodo c no x e (Nodo cd fd xd (Nodo cn nde xn b1 b2) dd)) →
  NoDup (refs (Nodo c no x e (Nodo cd fd xd (Nodo cn nde xn b1 b2) dd))) →
  wp (_balancear_caso_direita_esquerda no v) m (fun r m' =>
    rep m' v (Some r)
      (rot_DE (Nodo c no x e (Nodo cd fd xd (Nodo cn nde xn b1 b2) dd))) ∧
    length m' = length m ∧
    ∀ r', r' ∉ refs (Nodo c no x e (Nodo cd fd xd (Nodo cn nde xn b1 b2) dd)) →
          vis m' v r' = vis m v r').
Proof.
  intros (_ & oe & od & Hno & He &
          (-> & ode & odd & Hfd & (-> & ob1 & ob2 & Hnde & Hb1 & Hb2) & Hdd)) Hnd.
  simpl in Hnd.
  assert (no ≠ fd ∧ no ≠ nde ∧ fd ≠ nde) as (N1 & N2 & N3) by distintos.
  unfold _balancear_caso_direita_esquerda.
  repeat wp_passo. fim_rotacao.
Qed.

Lemma rep_rot_DD c no x e cd fd xd de cdd ndd xdd a1 a2 :
  rep m v (Some no) (Nodo c no x e (Nodo cd fd xd de (Nodo cdd ndd xdd a1 a2))) →
  NoDup (refs (Nodo c no x e (Nodo cd fd xd de (Nodo cdd ndd xdd a1 a2)))) →
  wp (_balancear_caso_direita_direita no v) m (fun r m' =>
    rep m' v (Some r)
      (rot_DD (Nodo c no x e (Nodo cd fd xd de (Nodo cdd ndd xdd a1 a2)))) ∧
    length m' = length m ∧
    ∀ r', r' ∉ refs (Nodo c no x e (Nodo cd fd xd de (Nodo cdd ndd xdd a1 a2))) →
          vis m' v r' = vis m v r').
Proof.
  intros (_ & oe & od & Hno & He &
          (-> & ode & odd & Hfd & Hde & (-> & oa & ob & Hndd & Ha1 & Ha2))) Hnd.
  simpl in Hnd.
  assert (no ≠ fd ∧ no ≠ ndd ∧ fd ≠ ndd) as (N1 & N2 & N3) by distintos.
  unfold _balancear_caso_direita_direita.
  repeat wp_passo. fim_rotacao.
Qed.

End Rotacoes.

Lemma wp_e_vermelho m v o a Q :
  rep m v o a → Q (e_verm a) m → wp (e_vermelho o v) m Q.
Proof.
  destruct a as [|c r k e d]; simpl.
  - intros -> H. by apply wp_ret.
  - intros (-> & oe & od & Hr & _) H. simpl.
    apply wp_bind. eapply wp_obter_cor; [done|]. apply wp_ret. by destruct c.
Qed.

Lemma e_verm_Nodo a :
  e_verm a = true → ∃ r k e d, a = Nodo VERMELHO r k e d.
Proof. destruct a as [|[] r k e d]; try done. eauto. Qed.

Section Balancear.
Variables (m : Memoria) (v : Z).

Lemma rep_lado_direito c no x e d :
  rep m v (Some no) (Nodo c no x e d) → NoDup (refs (Nodo c no x e d)) →
  wp (_balancear_lado_direito no v) m (fun r m' =>
    rep m' v (Some r) (lado_direito (Nodo c no x e d)) ∧ length m' = length m ∧
    ∀ r', r' ∉ refs (Nodo c no x e d) → vis m' v r' = vis m v r').
Proof.
  intros Hrep Hnd. pose proof Hrep as (_ & oe & od & Hno & He & Hd).
  unfold _balancear_lado_direito. do 2 wp_passo.
  apply wp_bind. eapply wp_e_vermelho; [done|].
  destruct (e_verm d) eqn:Ed.
  - apply e_verm_Nodo in Ed as (fd & xd & de & dd & ->).
    pose proof Hd as (-> & ode & odd & Hfd & Hde & Hdd).
    do 6 wp_passo.
    apply wp_bind. eapply wp_e_vermelho; [done|].
    destruct (e_verm de) eqn:Ede.
    + apply e_verm_Nodo in Ede as (nde & xn & b1 & b2 & ->).
      eapply wp_mono; [by apply rep_rot_DE|].
      intros r m' H. simpl. exact H.
    + apply wp_bind. eapply wp_e_vermelho; [done|].
      destruct (e_verm dd) eqn:Edd.
      * apply e_verm_Nodo in Edd as (ndd & xdd & a1 & a2 & ->).
        eapply wp_mono; [by apply rep_rot_DD|].
        intros r m' H. simpl. rewrite Ede. exact H.
      * apply wp_ret. simpl. rewrite Ede, Edd. done.
  - apply wp_ret. split; [|done].
    destruct d as [|[] ? ? ? ?]; try done.
Qed.

Lemma rep_balancear c no x e d :
  rep m v (Some no) (Nodo c no x e d) → NoDup (refs (Nodo c no x e d)) →
  wp (_balancear_apos_inclusao no v) m (fun r m' =>
    rep m' v (Some r) (balancear (Nodo c no x e d)) ∧ length m' = length m ∧
    ∀ r', r' ∉ refs (Nodo c no x e d) → vis m' v r' = vis m v r').
Proof.
  intros Hrep Hnd. pose proof Hrep as (_ & oe & od & Hno & He & Hd).
  unfold _balancear_apos_inclusao. do 2 wp_passo.
  apply wp_bind. eapply wp_e_vermelho; [done|].
  destruct (e_verm e) eqn:Ee.
  - apply e_verm_Nodo in Ee as (fe & xe & ee & ed & ->).
    pose proof He as (-> & oee & oed & Hfe & Hee & Hed).
    do 6 wp_passo.
    apply wp_bind. eapply wp_e_vermelho; [done|].
    destruct (e_verm ee) eqn:Eee.
    + apply e_verm_Nodo in Eee as (nee & xn & a1 & a2 & ->).
      eapply wp_mono; [by apply rep_rot_EE|].
      intros r m' H. simpl. exact H.
    + apply wp_bind. eapply wp_e_vermelho; [done|].
      destruct (e_verm ed) eqn:Eed.
      * apply e_verm_Nodo in Eed as (ned & xn & b1 & b2 & ->).
        eapply wp_mono; [by apply rep_rot_ED|].
        intros r m' H. simpl. rewrite Eee. exact H.
      * eapply wp_mono; [by apply rep_lado_direito|].
        intros r m' H. simpl. rewrite Eee, Eed. exact H.
  - eapply wp_mono; [by apply rep_lado_direito|].
    intros r m' H. destruct e as [|[] ? ? ? ?]; try done.
Qed.

End Balancear.

(** ** Insertion, on trees *)

(** The search that [_incluir_recursivo] and [_remover_recursivo] perform. *)
Fixpoint busca (valor : Z) (a : arv) : bool :=
  match a with
  | Folha => false
  | Nodo _ _ k e d =>
      if valor <? k then busca valor e
      else if k <? valor then busca valor d
      else true
  end.

(** [_incluir_recursivo], on trees; [novo] is the object that [No(...)]
    creates. *)
Fixpoint ins (valor : Z) (novo : Ref) (a : arv) : arv :=
  match a with
  | Folha => Nodo VERMELHO novo valor Folha Folha
  | Nodo c r k e d =>
      if valor <? k then balancear (Nodo c r k (ins valor novo e) d)
      else if k <? valor then balancear (Nodo c r k e (ins valor novo d))
      else a
  end.

(** Rebalancing keeps the in-order sequence of objects and of keys. *)
Lemma refs_lado_direito a : refs (lado_direito a) = refs a.
Proof.
  destruct a as [|c r k e [|[] fd xd de dd]]; try done. simpl.
  destruct de as [|[] ? ? ? ?], dd as [|[] ? ? ? ?]; simpl;
    rewrite <- ?app_assoc; simpl; rewrite <- ?app_assoc; done.
Qed.

Lemma refs_balancear a : refs (balancear a) = refs a.
Proof.
  destruct a as [|c r k [|[] fe xe ee ed] d]; try apply refs_lado_direito.
  unfold balancear.
  destruct ee as [|[] ? ? ? ?]; simpl e_verm; cbv iota.
  - destruct ed as [|[] ? ? ? ?]; simpl e_verm; cbv iota;
      try apply refs_lado_direito.
    simpl. rewrite <- ?app_assoc; simpl; rewrite <- ?app_assoc; done.
  - simpl. rewrite <- ?app_assoc; simpl; rewrite <- ?app_assoc; done.
  - destruct ed as [|[] ? ? ? ?]; simpl e_verm; cbv iota;
      try apply refs_lado_direito.
    simpl. rewrite <- ?app_assoc; simpl; rewrite <- ?app_assoc; done.
Qed.

Lemma chaves_lado_direito a : chaves (lado_direito a) = chaves a.
Proof.
  destruct a as [|c r k e [|[] fd xd de dd]]; try done. simpl.
  destruct de as [|[] ? ? ? ?], dd as [|[] ? ? ? ?]; simpl;
    rewrite <- ?app_assoc; simpl; rewrite <- ?app_assoc; done.
Qed.

Lemma chaves_balancear a : chaves (balancear a) = chaves a.
Proof.
  destruct a as [|c r k [|[] fe xe ee ed] d]; try apply chaves_lado_direito.
  unfold balancear.
  destruct ee as [|[] ? ? ? ?]; simpl e_verm; cbv iota.
  - destruct ed as [|[] ? ? ? ?]; simpl e_verm; cbv iota;
      try apply chaves_lado_direito.
    simpl. rewrite <- ?app_assoc; simpl; rewrite <- ?app_assoc; done.
  - simpl. rewrite <- ?app_assoc; simpl; rewrite <- ?app_assoc; done.
  - destruct ed as [|[] ? ? ? ?]; simpl e_verm; cbv iota;
      try apply chaves_lado_direito.
    simpl. rewrite <- ?app_assoc; simpl; rewrite <- ?app_assoc; done.
Qed.

Arguments balancear : simpl never.

Lemma refs_ins valor novo a :
  refs (ins valor novo a) ≡ₚ (if busca valor a then refs a else novo :: refs a).
Proof.
  induction a as [|c r k e IHe d IHd]; simpl; [done|].
  destruct (valor <? k); [|destruct (k <? valor)]; rewrite ?refs_balancear; simpl.
  - rewrite IHe. by destruct (busca valor e).
  - rewrite IHd. destruct (busca valor d); [done|].
    rewrite (Permutation_swap novo r), <- Permutation_middle. done.
  - done.
Qed.

Lemma elem_of_refs_ins valor novo a r :
  r ∈ refs (ins valor novo a) → r = novo ∨ r ∈ refs a.
Proof.
  rewrite refs_ins. destruct (busca valor a); [by right|].
  rewrite elem_of_cons. tauto.
Qed.

Lemma refs_ins_sub valor novo a r :
  r ∈ refs a → r ∈ refs (ins valor novo a).
Proof.
  rewrite refs_ins. destruct (busca valor a); [done|]. by right.
Qed.

Lemma NoDup_refs_ins valor novo a :
  NoDup (refs a) → novo ∉ refs a → NoDup (refs (ins valor novo a)).
Proof.
  intros Hnd Hn. rewrite refs_ins. destruct (busca valor a); [done|].
  by apply NoDup_cons.
Qed.

Lemma nodup_nodo e (no : Ref) d :
  NoDup (refs e ++ no :: refs d) →
  NoDup (refs e) ∧ NoDup (refs d) ∧ (no ∉ refs e) ∧ (no ∉ refs d) ∧
  ∀ x, x ∈ refs e → x ∉ refs d.
Proof.
  intros H. apply NoDup_app in H as (He & Hd & Hc).
  apply NoDup_cons in Hc as (Hno & Hdd).
  repeat split; try done.
  - intros Hin. apply (Hd _ Hin). left.
  - intros x Hx Hxd. apply (Hd _ Hx). by right.
Qed.

(** ** [_incluir_recursivo] computes [ins] *)

Lemma rep_incluir_recursivo valor v fuel : ∀ a m o,
  rep m v o a → NoDup (refs a) → (altura a < fuel)%nat →
  wp (_incluir_recursivo fuel o valor v) m (fun o' m' =>
    rep m' v o' (ins valor (length m) a) ∧
    length m' = (if busca valor a then length m else S (length m)) ∧
    ∀ r', r' ∉ refs a → r' ≠ length m → vis m' v r' = vis m v r').
Proof.
  induction fuel as [|fuel IH]; intros a m o Hrep Hnd Hfuel; [lia|].
  destruct a as [|c no k e d].
  - simpl in Hrep. subst o. cbn [_incluir_recursivo].
    apply wp_bind, wp_novo_No. intros m' Hl Hv. apply wp_ret.
    split; [|split].
    + simpl. split; [done|]. exists None, None.
      rewrite Hv, decide_True by done. done.
    + done.
    + intros r' _ Hr'. rewrite Hv, decide_False by done. done.
  - assert (∀ r, r ∈ refs (Nodo c no k e d) → (r < length m)%nat) as Hlt
      by (intros r Hr; by eapply rep_lt).
    destruct Hrep as (-> & oe & od & Hno & He & Hd).
    simpl in Hnd, Hfuel, Hlt.
    destruct (nodup_nodo _ _ _ Hnd) as (Hnde & Hndd & Hne & Hnd' & Hed).
    pose proof (vis_lt _ _ _ _ Hno) as Hnolt.
    cbn [_incluir_recursivo]. do 2 wp_passo. cbn [negb]. do 2 wp_passo.
    cbn [ins busca].
    destruct (valor <? k) eqn:E1; [|destruct (k <? valor) eqn:E2].
    + do 2 wp_passo. apply wp_bind.
      eapply wp_mono; [apply (IH e m oe); [done|done|lia]|].
      intros oe' m1 (Hrep1 & Hlen1 & Hf1). cbv beta.
      assert (vis m1 v no = vis m v no) as Hno1.
      { apply Hf1; [done|lia]. }
      rewrite Hno in Hno1.
      do 4 wp_passo. apply wp_bind.
      eapply wp_mono;
        [apply (rep_balancear _ v c no k (ins valor (length m) e) d)|].
      * split; [done|]. exists oe', od. split; [vis_resolver|]. split.
        -- apply (rep_cong m1); [|done]. intros r Hr.
           rewrite H2, H0, decide_False; [done|].
           intros ->. apply elem_of_refs_ins in Hr as [->|Hr]; [lia|done].
        -- apply (rep_cong m); [|done]. intros r Hr.
           rewrite H2, H0, decide_False by (by intros ->).
           apply Hf1; [by intros ?%Hed|]. specialize (Hlt r). set_solver by lia.
      * simpl. rewrite refs_ins. destruct (busca valor e); [done|].
        simpl. apply NoDup_cons. split; [|done].
        intros Hin%Hlt. lia.
      * intros r m4 (Hrep4 & Hlen4 & Hf4). apply wp_ret.
        split; [done|]. split; [congruence|].
        intros r' Hr' Hr'n.
        apply not_elem_of_app in Hr' as [Hr'e Hr'd%not_elem_of_cons].
        destruct Hr'd as [Hr'no Hr'd].
        rewrite Hf4.
        -- rewrite H2, H0, decide_False by done. by apply Hf1.
        -- simpl. intros [Hin|Hin]%elem_of_app.
           ++ apply elem_of_refs_ins in Hin as [->|Hin]; done.
           ++ apply elem_of_cons in Hin as [->|Hin]; done.
    + do 2 wp_passo. apply wp_bind.
      eapply wp_mono; [apply (IH d m od); [done|done|lia]|].
      intros od' m1 (Hrep1 & Hlen1 & Hf1). cbv beta.
      assert (vis m1 v no = vis m v no) as Hno1.
      { apply Hf1; [done|lia]. }
      rewrite Hno in Hno1.
      do 4 wp_passo. apply wp_bind.
      eapply wp_mono;
        [apply (rep_balancear _ v c no k e (ins valor (length m) d))|].
      * split; [done|]. exists oe, od'. split; [vis_resolver|]. split.
        -- apply (rep_cong m); [|done]. intros r Hr.
           rewrite H2, H0, decide_False by (by intros ->).
           apply Hf1; [by intros ?%Hed|]. specialize (Hlt r). set_solver by lia.
        -- apply (rep_cong m1); [|done]. intros r Hr.
           rewrite H2, H0, decide_False; [done|].
           intros ->. apply elem_of_refs_ins in Hr as [->|Hr]; [lia|done].
      * simpl. rewrite refs_ins. destruct (busca valor d); [done|].
        rewrite (Permutation_swap (length m) no), <- Permutation_middle.
        apply NoDup_cons. split; [|done].
        intros Hin%Hlt. lia.
      * intros r m4 (Hrep4 & Hlen4 & Hf4). apply wp_ret.
        split; [done|]. split; [congruence|].
        intros r' Hr' Hr'n.
        apply not_elem_of_app in Hr' as [Hr'e Hr'd%not_elem_of_cons].
        destruct Hr'd as [Hr'no Hr'd].
        rewrite Hf4.
        -- rewrite H2, H0, decide_False by done. by apply Hf1.
        -- simpl. intros [Hin|Hin]%elem_of_app; [done|].
           apply elem_of_cons in Hin as [->|Hin]; [done|].
           apply elem_of_refs_ins in Hin as [->|Hin]; done.
    + apply wp_ret. split; [|done].
      split; [done|]. by exists oe, od.
Qed.

(** ** Search-tree order *)

(** The keys of a tree are in strictly ascending order. *)
Definition abb (a : arv) : Prop := StronglySorted Z.lt (chaves a).

Lemma abb_Nodo c r k e d :
  abb (Nodo c r k e d) ↔
  abb e ∧ abb d ∧ (∀ x, x ∈ chaves e → x < k) ∧ (∀ x, x ∈ chaves d → k < x).
Proof.
  unfold abb. simpl. rewrite StronglySorted_app, StronglySorted_cons, Forall_forall.
  split.
  - intros (H1 & He & Hk & Hd). repeat split; try done.
    intros x Hx. apply (H1 x k); [done|left].
  - intros (He & Hd & Hek & Hdk). repeat split; try done.
    intros x1 x2 Hx1 Hx2. apply elem_of_cons in Hx2 as [->|Hx2]; [by apply Hek|].
    specialize (Hek _ Hx1). specialize (Hdk _ Hx2). lia.
Qed.

Lemma abb_balancear a : abb (balancear a) ↔ abb a.
Proof. unfold abb. by rewrite chaves_balancear. Qed.

Lemma chaves_ins valor novo a x :
  x ∈ chaves (ins valor novo a) ↔ x = valor ∨ x ∈ chaves a.
Proof.
  induction a as [|c r k e IHe d IHd]; cbn [ins chaves].
  - set_solver.
  - destruct (valor <? k) eqn:E1; [|destruct (k <? valor) eqn:E2];
      rewrite ?chaves_balancear; cbn [chaves].
    + rewrite !elem_of_app, IHe. tauto.
    + rewrite !elem_of_app, !elem_of_cons, IHd. tauto.
    + assert (valor = k) as -> by lia. rewrite !elem_of_app, !elem_of_cons. tauto.
Qed.

Lemma abb_ins valor novo a : abb a → abb (ins valor novo a).
Proof.
  induction a as [|c r k e IHe d IHd]; cbn [ins].
  - intros _. apply abb_Nodo. repeat split; try done; try constructor;
      intros x Hx; by apply elem_of_nil in Hx.
  - intros (He & Hd & Hek & Hdk)%abb_Nodo.
    destruct (valor <? k) eqn:E1; [|destruct (k <? valor) eqn:E2];
      rewrite ?abb_balancear; rewrite ?abb_Nodo.
    + repeat split; auto.
      intros x [->|Hx]%chaves_ins; [lia|auto].
    + repeat split; auto.
      intros x [->|Hx]%chaves_ins; [lia|auto].
    + repeat split; auto.
Qed.

Lemma busca_chaves valor a : abb a → busca valor a = true ↔ valor ∈ chaves a.
Proof.
  induction a as [|c r k e IHe d IHd]; cbn [busca chaves].
  - intros _. split; [done|]. by intros ?%elem_of_nil.
  - intros (He & Hd & Hek & Hdk)%abb_Nodo.
    rewrite elem_of_app, elem_of_cons.
    destruct (valor <? k) eqn:E1; [|destruct (k <? valor) eqn:E2].
    + rewrite (IHe He). split; [tauto|].
      intros [H|[->|H%Hdk]]; [done|lia|lia].
    + rewrite (IHd Hd). split; [tauto|].
      intros [H%Hek|[->|H]]; [lia|lia|done].
    + split; [|done]. intros _. right; left. lia.
Qed.

(** ** The red rule, on trees *)

(** No red node has a red child. *)
Fixpoint sem_vv (a : arv) : Prop :=
  match a with
  | Folha => True
  | Nodo c _ _ e d =>
      (c = VERMELHO → e_verm e = false ∧ e_verm d = false) ∧ sem_vv e ∧ sem_vv d
  end.

(** The same below the root; the root itself may be red with a red child. *)
Definition quase (a : arv) : Prop :=
  match a with
  | Folha => True
  | Nodo _ _ _ e d => sem_vv e ∧ sem_vv d
  end.

Lemma sem_vv_quase a : sem_vv a → quase a.
Proof. destruct a; simpl; tauto. Qed.

Lemma sem_vv_pintar_PRETO a : quase a → sem_vv (pintar PRETO a).
Proof. destruct a; simpl; [done|]. intros [? ?]. repeat split; done. Qed.

Lemma e_verm_false_cases a :
  e_verm a = false → a = Folha ∨ ∃ r k e d, a = Nodo PRETO r k e d.
Proof. destruct a as [|[] r k e d]; try done; eauto 10. Qed.

Lemma lado_direito_sem_vv c r k e d :
  sem_vv d → lado_direito (Nodo c r k e d) = Nodo c r k e d.
Proof.
  destruct d as [|[] fd xd de dd]; try done.
  intros (Hv & _). destruct (Hv eq_refl) as [Hde Hdd].
  unfold lado_direito. by rewrite Hde, Hdd.
Qed.

Lemma balancear_sem_vv c r k e d :
  sem_vv e → sem_vv d → balancear (Nodo c r k e d) = Nodo c r k e d.
Proof.
  intros He Hd. unfold balancear.
  destruct e as [|[] fe xe ee ed]; try by apply lado_direito_sem_vv.
  destruct He as (Hv & _). destruct (Hv eq_refl) as [-> ->].
  by apply lado_direito_sem_vv.
Qed.

(** A node over an almost-well-coloured left subtree and a well-coloured
    right one. *)
Lemma sem_vv_balancear_esq c r k e d :
  quase e → sem_vv d → (c = VERMELHO → sem_vv e) →
  quase (balancear (Nodo c r k e d)) ∧
  (c = PRETO → sem_vv (balancear (Nodo c r k e d))).
Proof.
  intros He Hd Hc. destruct c.
  - rewrite balancear_sem_vv by auto. simpl. split; [auto|done].
  - clear Hc.
    destruct e as [|[] fe xe ee ed].
    + rewrite balancear_sem_vv by done. simpl. repeat split; done.
    + destruct He as [Hee Hed]. unfold balancear.
      destruct (e_verm ee) eqn:Eee.
      { apply e_verm_Nodo in Eee as (nee & xn & a1 & a2 & ->).
        simpl in *. intuition congruence. }
      destruct (e_verm ed) eqn:Eed.
      { apply e_verm_Nodo in Eed as (ned & xn & b1 & b2 & ->).
        simpl in *. intuition congruence. }
      rewrite lado_direito_sem_vv by done. simpl. repeat split; done.
    + destruct He as [Hee Hed].
      rewrite balancear_sem_vv by (simpl; repeat split; done).
      simpl. repeat split; done.
Qed.

Lemma sem_vv_balancear_dir c r k e d :
  sem_vv e → quase d → (c = VERMELHO → sem_vv d) →
  quase (balancear (Nodo c r k e d)) ∧
  (c = PRETO → sem_vv (balancear (Nodo c r k e d))).
Proof.
  intros He Hd Hc. destruct c.
  - rewrite balancear_sem_vv by auto. simpl. split; [auto|done].
  - clear Hc.
    assert (balancear (Nodo PRETO r k e d) = lado_direito (Nodo PRETO r k e d)) as ->.
    { unfold balancear. destruct e as [|[] fe xe ee ed]; try done.
      destruct He as (Hv & _). by destruct (Hv eq_refl) as [-> ->]. }
    destruct d as [|[] fd xd de dd].
    + simpl. repeat split; done.
    + destruct Hd as [Hde Hdd]. unfold lado_direito.
      destruct (e_verm de) eqn:Ede.
      { apply e_verm_Nodo in Ede as (nde & xn & b1 & b2 & ->).
        simpl in *. intuition congruence. }
      destruct (e_verm dd) eqn:Edd.
      { apply e_verm_Nodo in Edd as (ndd & xn & a1 & a2 & ->).
        simpl in *. intuition congruence. }
      simpl. repeat split; done.
    + destruct Hd as [Hde Hdd]. simpl. repeat split; done.
Qed.

Lemma sem_vv_ins valor novo a :
  sem_vv a →
  quase (ins valor novo a) ∧ (e_verm a = false → sem_vv (ins valor novo a)).
Proof.
  induction a as [|c r k e IHe d IHd]; cbn [ins].
  - intros _. simpl. repeat split; done.
  - intros (Hc & He & Hd).
    destruct (IHe He) as [IHe1 IHe2]. destruct (IHd Hd) as [IHd1 IHd2].
    destruct (valor <? k) eqn:E1; [|destruct (k <? valor) eqn:E2].
    + destruct (sem_vv_balancear_esq c r k (ins valor novo e) d) as [Hq Hs];
        try done.
      * intros ->. destruct (Hc eq_refl) as [Ee Ed]. auto.
      * split; [done|]. intros Hv. apply Hs. by destruct c.
    + destruct (sem_vv_balancear_dir c r k e (ins valor novo d)) as [Hq Hs];
        try done.
      * intros ->. destruct (Hc eq_refl) as [Ee Ed]. auto.
      * split; [done|]. intros Hv. apply Hs. by destruct c.
    + split; [by apply sem_vv_quase|]. done.
Qed.

(** The tree that [incluir] installs: [ins], then the root painted black. *)
Lemma sem_vv_incluir valor novo a :
  sem_vv a → sem_vv (pintar PRETO (ins valor novo a)).
Proof. intros H. by apply sem_vv_pintar_PRETO, sem_vv_ins. Qed.

(** ** Histories bounded by the current version *)

(** Nothing in the object is stamped with a version above [V]. *)
Record limitado (V : Z) (n : No.t) : Prop := {
  lm_criacao : 1 <= No.versao_criacao n <= V;
  lm_cores : ∀ x, is_Some (No.historico_cores n !! x) → x <= V;
  lm_filhos : ∀ x, is_Some (No.historico_filhos n !! x) → x <= V;
  lm_pais : ∀ x, is_Some (No.historico_pais n !! x) → x <= V;
  lm_remocao : ∀ d, No.versao_remocao n = Some d → d <= V
}.

Definition limitada (V : Z) (m : Memoria) : Prop :=
  ∀ r n, m !! r = Some n → limitado V n.

(** A later version sees what [V] sees. *)
Lemma visao_posterior V u n : limitado V n → V <= u → visao_de u n = visao_de V n.
Proof.
  intros [Hc Hco Hf Hp Hr] Hu. unfold visao_de. f_equal.
  - unfold No.esta_ativo.
    destruct (No.versao_remocao n) as [d|] eqn:E.
    + specialize (Hr d eq_refl). casos_Zb; simpl; try done; lia.
    + casos_Zb; simpl; try done; lia.
  - rewrite !obter_cor_consultar. by apply consultar_posterior.
  - unfold No.obter_filho_esquerdo. rewrite !obter_filhos_consultar.
    f_equal. by apply consultar_posterior.
  - unfold No.obter_filho_direito. rewrite !obter_filhos_consultar.
    f_equal. by apply consultar_posterior.
Qed.

Lemma vis_posterior V u m r : limitada V m → V <= u → vis m u r = vis m V r.
Proof.
  intros Hl Hu. unfold vis. destruct (m !! r) as [n|] eqn:E; [|done].
  simpl. f_equal. apply visao_posterior; [|done]. by eapply Hl.
Qed.

Lemma rep_cong_versao m m' v v' o a :
  (∀ r, r ∈ refs a → vis m' v' r = vis m v r) → rep m v o a → rep m' v' o a.
Proof.
  revert o. induction a as [|c r k e IHe d IHd]; intros o Hv; simpl; [done|].
  intros (-> & oe & od & Hr & He & Hd). split; [done|]. exists oe, od.
  split; [|split].
  - rewrite Hv; [done|]. simpl. set_solver.
  - apply IHe; [|done]. intros r' Hr'. apply Hv. simpl. set_solver.
  - apply IHd; [|done]. intros r' Hr'. apply Hv. simpl. set_solver.
Qed.

Lemma rep_posterior V u m o a : limitada V m → V <= u → rep m V o a → rep m u o a.
Proof.
  intros Hl Hu. apply rep_cong_versao. intros r _. by apply vis_posterior.
Qed.

Lemma limitada_quadro V V' m m' :
  quadro V' (Rh V') m m' → limitada V m → V <= V' → 1 <= V' → limitada V' m'.
Proof.
  intros (Hle & Hold & Hnew) Hl HV H1 r n' Hn'.
  destruct (decide (r < length m)%nat) as [Hlt|Hge].
  - destruct (lookup_lt_is_Some_2 _ _ Hlt) as [n Hn].
    destruct (Hold _ _ Hn) as (n'' & Hn'' & HR).
    assert (n'' = n') as -> by congruence.
    destruct (Hl _ _ Hn) as [Hc Hco Hf Hp Hr].
    destruct HR as [Hrc _ _ _ Hkc Hkf Hkp Hrr]. split.
    + lia.
    + intros x Hx. destruct (Hkc x Hx) as [H| ->]; [|lia].
      specialize (Hco _ H). lia.
    + intros x Hx. destruct (Hkf x Hx) as [H| ->]; [|lia].
      specialize (Hf _ H). lia.
    + intros x Hx. destruct (Hkp x Hx) as [H| ->]; [|lia].
      specialize (Hp _ H). lia.
    + intros d Hd. destruct Hrr as [E|E].
      * rewrite E in Hd. specialize (Hr _ Hd). lia.
      * rewrite E in Hd. injection Hd as <-. lia.
  - destruct (Hnew r n') as [Hc Hco Hf Hp Hr]; [lia|done|]. split.
    + lia.
    + intros x Hx. rewrite (Hco x Hx). lia.
    + intros x Hx. rewrite (Hf x Hx). lia.
    + intros x Hx. rewrite (Hp x Hx). lia.
    + intros d Hd. destruct Hr as [E|E]; rewrite E in Hd; [done|].
      injection Hd as <-. lia.
Qed.

(** ** Earlier versions after an operation that respects [Rt] *)

Lemma visao_Rt V' v n n' : Rt V' n n' → v < V' → visao_de v n' = visao_de v n.
Proof.
  intros ([Hc Hco Hf _ _ _ _ _] & Hk & Hr) Hv. unfold visao_de, No.esta_ativo,
    No.obter_filho_esquerdo, No.obter_filho_direito.
  rewrite Hk, Hc, Hr, Hco, Hf by done. done.
Qed.

Lemma vis_quadro_Rt V' v m m' r :
  quadro V' (Rt V') m m' → v < V' → (r < length m)%nat → vis m' v r = vis m v r.
Proof.
  intros (Hle & Hold & Hnew) Hv Hr.
  destruct (lookup_lt_is_Some_2 _ _ Hr) as [n Hn].
  destruct (Hold _ _ Hn) as (n' & Hn' & HR).
  unfold vis. rewrite Hn, Hn'. simpl. f_equal. by eapply visao_Rt.
Qed.

Lemma rep_quadro_Rt V' v m m' o a :
  quadro V' (Rt V') m m' → v < V' → rep m v o a → rep m' v o a.
Proof.
  intros Hq Hv Hrep. eapply rep_cong; [|done].
  intros r Hr. eapply vis_quadro_Rt; [done..|]. by eapply rep_lt.
Qed.

(** ** The height of a represented tree *)

Lemma altura_refs a : (altura a ≤ length (refs a))%nat.
Proof.
  induction a as [|c r k e IHe d IHd]; simpl; [done|].
  rewrite length_app. simpl. lia.
Qed.

Lemma refs_length m v o a :
  rep m v o a → NoDup (refs a) → (length (refs a) ≤ length m)%nat.
Proof.
  intros Hrep Hnd.
  trans (length (seq 0 (length m))); [|by rewrite length_seq].
  apply submseteq_length.
  apply NoDup_submseteq; [done|].
  intros x Hx. apply elem_of_seq. split; [lia|]. simpl. by eapply rep_lt.
Qed.

Lemma altura_combustivel m v o a :
  rep m v o a → NoDup (refs a) → (altura a < S (length m))%nat.
Proof.
  intros Hrep Hnd. pose proof (altura_refs a). pose proof (refs_length _ _ _ _ Hrep Hnd).
  lia.
Qed.

(** ** The root painted black *)

Lemma refs_pintar c a : refs (pintar c a) = refs a.
Proof. by destruct a. Qed.

Lemma chaves_pintar c a : chaves (pintar c a) = chaves a.
Proof. by destruct a. Qed.

Lemma rep_pintar_raiz m v o a :
  rep m v o a → NoDup (refs a) →
  wp (pintar_raiz o v) m (fun _ m' =>
    rep m' v o (pintar PRETO a) ∧ length m' = length m ∧
    ∀ r', r' ∉ refs a → vis m' v r' = vis m v r').
Proof.
  intros Hrep Hnd. destruct a as [|c r k e d]; simpl in Hrep.
  - subst o. simpl. by apply wp_ret.
  - destruct Hrep as (-> & oe & od & Hr & He & Hd). simpl in Hnd.
    destruct (nodup_nodo _ _ _ Hnd) as (Hnde & Hndd & Hne & Hnd' & Hed).
    cbn [pintar_raiz]. wp_passo.
    split; [|split; [done|]].
    + split; [done|]. exists oe, od. split; [vis_resolver|]. split.
      * apply (rep_cong m); [|done]. intros r' Hr'.
        rewrite H0, decide_False; [done|]. by intros ->.
      * apply (rep_cong m); [|done]. intros r' Hr'.
        rewrite H0, decide_False; [done|]. by intros ->.
    + intros r' Hr'. rewrite H0, decide_False; [done|].
      intros ->. apply Hr'. simpl. set_solver.
Qed.

(** ** What a mutation does to the tree object *)

Lemma py_atribuir_Some {A} (l : list A) (i : Z) x l' :
  py_atribuir l i x = Some l' → 0 <= i →
  i < Z.of_nat (length l) ∧ l' = <[Z.to_nat i := x]> l.
Proof.
  unfold py_atribuir. intros H Hi.
  destruct (decide (i < Z.of_nat (length l))) as [Hlt|Hge].
  - rewrite py_indice_dentro in H by lia. simpl in H. injection H as <-. done.
  - rewrite py_indice_fora in H by lia. done.
Qed.

Lemma py_obter_dentro {A} (l : list A) (i : Z) :
  0 <= i < Z.of_nat (length l) → py_obter l i = l !! Z.to_nat i.
Proof. intros H. unfold py_obter. by rewrite py_indice_dentro. Qed.

(** Whatever way a mutation ends, the heap it leaves frames the initial one;
    the roots and the version counter change only when it returns. *)
Lemma mutar_quadro rec valor t t' R `{!BoaRelacao (versao_atual t + 1) R} :
  (∀ fuel o, respeita (versao_atual t + 1) R (rec fuel o valor (versao_atual t + 1))) →
  (∀ o, respeita (versao_atual t + 1) R (pintar_raiz o (versao_atual t + 1))) →
  estado_final (mutar rec valor t) = Some t' →
  quadro (versao_atual t + 1) R (memoria t) (memoria t') ∧
  ((raizes t' = raizes t ∧ versao_atual t' = versao_atual t ∧
    ∀ x, mutar rec valor t ≠ Val x t') ∨
   (mutar rec valor t = Val tt t' ∧ versao_atual t' = versao_atual t + 1 ∧
    ∃ nova, py_atribuir (raizes t) (versao_atual t + 1) nova = Some (raizes t'))).
Proof.
  intros Hrec Hpin.
  destruct (mutar_passo rec valor t) as
    [Hr|raiz Hr Hd|raiz e m1 Hr He|raiz nova m1 Hr Hv Hd|raiz nova m1 e m2 Hr Hv He
    |raiz nova m1 m2 Hr Hv Hp Ha|raiz nova m1 m2 rz Hr Hv Hp Ha]; simpl; intros [= <-];
    simpl.
  - split; [apply quadro_refl; apply _|]. left. by destruct t.
  - split; [|left; done].
    apply (Hrec (S (length (memoria t))) raiz (memoria t)). by rewrite He.
  - split; [|left; done].
    eapply quadro_trans; [apply _| |].
    + apply (Hrec (S (length (memoria t))) raiz (memoria t)). by rewrite Hv.
    + apply (Hpin nova m1). by rewrite He.
  - split; [|left; done].
    eapply quadro_trans; [apply _| |].
    + apply (Hrec (S (length (memoria t))) raiz (memoria t)). by rewrite Hv.
    + apply (Hpin nova m1). by rewrite Hp.
  - split; [|right; eauto].
    eapply quadro_trans; [apply _| |].
    + apply (Hrec (S (length (memoria t))) raiz (memoria t)). by rewrite Hv.
    + apply (Hpin nova m1). by rewrite Hp.
Qed.

Lemma incluir_quadro t valor t' :
  0 <= versao_atual t →
  estado_final (incluir valor t) = Some t' →
  quadro (versao_atual t + 1) (Rt (versao_atual t + 1)) (memoria t) (memoria t') ∧
  ((raizes t' = raizes t ∧ versao_atual t' = versao_atual t ∧
    ∀ x, incluir valor t ≠ Val x t') ∨
   (incluir valor t = Val tt t' ∧ versao_atual t' = versao_atual t + 1 ∧
    ∃ nova, py_atribuir (raizes t) (versao_atual t + 1) nova = Some (raizes t'))).
Proof.
  intros HV. rewrite incluir_mutar.
  assert (versao_atual t + 1 ≠ 0) as HV' by lia.
  apply mutar_quadro.
  - apply _.
  - intros fuel o. apply resp_incluir_recursivo; [done|apply _..].
  - intros o. apply resp_pintar_raiz; [done|apply _..].
Qed.

Lemma remover_quadro t valor t' :
  0 <= versao_atual t →
  estado_final (remover valor t) = Some t' →
  quadro (versao_atual t + 1) (Rh (versao_atual t + 1)) (memoria t) (memoria t') ∧
  ((raizes t' = raizes t ∧ versao_atual t' = versao_atual t ∧
    ∀ x, remover valor t ≠ Val x t') ∨
   (remover valor t = Val tt t' ∧ versao_atual t' = versao_atual t + 1 ∧
    ∃ nova, py_atribuir (raizes t) (versao_atual t + 1) nova = Some (raizes t'))).
Proof.
  intros HV. rewrite remover_mutar.
  assert (versao_atual t + 1 ≠ 0) as HV' by lia.
  apply mutar_quadro.
  - apply _.
  - intros fuel o. by apply resp_remover_recursivo.
  - intros o. apply resp_pintar_raiz; [done|apply _..].
Qed.

(** ** [incluir] on a represented tree *)

Lemma incluir_ok t valor raiz a :
  length (raizes t) = 100%nat → 0 <= versao_atual t < 99 →
  raizes t !! Z.to_nat (versao_atual t) = Some raiz →
  limitada (versao_atual t) (memoria t) →
  rep (memoria t) (versao_atual t) raiz a → NoDup (refs a) →
  ∃ m' raiz',
    incluir valor t =
      Val tt {| memoria := m';
                raizes := <[Z.to_nat (versao_atual t + 1) := raiz']> (raizes t);
                versao_atual := versao_atual t + 1 |} ∧
    rep m' (versao_atual t + 1) raiz'
      (pintar PRETO (ins valor (length (memoria t)) a)) ∧
    length m' = (if busca valor a then length (memoria t)
                 else S (length (memoria t))).
Proof.
  intros Hlen HV Hraiz Hlim Hrep Hnd.
  apply (rep_posterior _ (versao_atual t + 1)) in Hrep; [|done|lia].
  assert (∀ r, r ∈ refs a → (r < length (memoria t))%nat) as Hlt
    by (intros r Hr; by eapply rep_lt).
  destruct (rep_incluir_recursivo valor (versao_atual t + 1)
              (S (length (memoria t))) a (memoria t) raiz Hrep Hnd)
    as (o1 & m1 & Hrec & Hrep1 & Hlen1 & Hf1).
  { by eapply altura_combustivel. }
  destruct (rep_pintar_raiz m1 (versao_atual t + 1) o1 _ Hrep1)
    as ([] & m2 & Hpin & Hrep2 & Hlen2 & Hf2).
  { apply NoDup_refs_ins; [done|]. intros Hin%Hlt. lia. }
  exists m2, o1. split; [|split; [done|congruence]].
  destruct t as [m rs va]. cbn [memoria raizes versao_atual] in *.
  unfold incluir, bind, ler_versao_atual, ler_raiz, combustivel, na_memoria,
    escrever_raiz, escrever_versao_atual; cbn [memoria raizes versao_atual].
  rewrite py_obter_dentro, Hraiz by lia. cbn [memoria raizes versao_atual].
  rewrite Hrec. cbn [memoria raizes versao_atual]. rewrite Hpin.
  cbn [memoria raizes versao_atual].
  unfold py_atribuir. rewrite py_indice_dentro by lia. done.
Qed.

(** ** Sequences of insertions *)

(** The states reached from the empty tree by calls of [incluir] alone. *)
Inductive alcancavel_inc : Arvore -> Prop :=
  | ai_vazia : alcancavel_inc arvore_vazia
  | ai_incluir t valor t' :
      alcancavel_inc t → estado_final (incluir valor t) = Some t' →
      alcancavel_inc t'.

(** What version [v] of [t] denotes: a search tree [a] without repeated
    objects and without a red node under a red node, holding every object
    alive at [v]. *)
Record VersaoOk (t : Arvore) (v : Z) (a : arv) : Prop := {
  vo_rep : ∃ o, raizes t !! Z.to_nat v = Some o ∧ rep (memoria t) v o a;
  vo_nodup : NoDup (refs a);
  vo_abb : abb a;
  vo_sem_vv : sem_vv a;
  vo_raiz : e_verm a = false;
  vo_vivos : ∀ r n, memoria t !! r = Some n → No.esta_ativo n v = true → r ∈ refs a
}.

Record InvInc (t : Arvore) : Prop := {
  ii_raizes : length (raizes t) = 100%nat;
  ii_versao : 0 <= versao_atual t <= 99;
  ii_limitada : versao_atual t < 99 → limitada (versao_atual t) (memoria t);
  ii_versoes : ∀ v, 0 <= v <= versao_atual t → ∃ a, VersaoOk t v a
}.

Lemma InvInc_vazia : InvInc arvore_vazia.
Proof.
  split; unfold arvore_vazia; cbn [memoria raizes versao_atual].
  - by rewrite length_replicate.
  - lia.
  - intros _ r n Hn. by rewrite lookup_nil in Hn.
  - intros v Hv. assert (v = 0) as -> by lia. exists Folha.
    split; simpl; try done; try constructor.
    exists None. done.
Qed.

(** A version below [V'] denotes the same tree after an operation at [V']
    that respects [Rt]. *)
Lemma VersaoOk_quadro t t' v a :
  quadro (versao_atual t + 1) (Rt (versao_atual t + 1)) (memoria t) (memoria t') →
  v <= versao_atual t →
  raizes t' !! Z.to_nat v = raizes t !! Z.to_nat v →
  VersaoOk t v a → VersaoOk t' v a.
Proof.
  intros Hq Hv Hrz [(o & Ho & Hrep) Hnd Habb Hvv Hrt Hviv]. split; try done.
  - exists o. split; [congruence|]. eapply rep_quadro_Rt; [done|lia|done].
  - intros r n' Hn' Hat. destruct Hq as (Hle & Hold & Hnew).
    destruct (decide (r < length (memoria t))%nat) as [Hlt|Hge].
    + destruct (lookup_lt_is_Some_2 _ _ Hlt) as [n Hn].
      destruct (Hold _ _ Hn) as (n'' & Hn'' & HR).
      assert (n'' = n') as -> by congruence.
      apply (Hviv r n Hn).
      assert (visao_de v n' = visao_de v n) as E by (eapply visao_Rt; [done|lia]).
      apply (f_equal vs_ativo) in E. simpl in E. congruence.
    + destruct (Hnew r n') as [Hc _ _ _ _]; [lia|done|].
      unfold No.esta_ativo in Hat. rewrite Hc in Hat.
      apply andb_true_iff in Hat as [Hat _]. apply Z.leb_le in Hat. lia.
Qed.

Lemma InvInc_passo t valor t' :
  InvInc t → estado_final (incluir valor t) = Some t' → InvInc t'.
Proof.
  intros [Hlen HV Hlim Hver] Hfin.
  destruct (incluir_quadro t valor t' ltac:(lia) Hfin) as [Hq Hcasos].
  destruct (decide (versao_atual t < 99)) as [Hcap|Hcap].
  - (* below the cap the call returns *)
    destruct (Hver (versao_atual t) ltac:(lia)) as
      (a & [(raiz & Hraiz & Hrep) Hnd Habb Hvv Hrt Hviv]).
    destruct (incluir_ok t valor raiz a Hlen ltac:(lia) Hraiz (Hlim Hcap) Hrep Hnd)
      as (m' & raiz' & Hinc & Hrep' & Hlen').
    rewrite Hinc in Hfin. simpl in Hfin. injection Hfin as <-.
    cbn [memoria raizes versao_atual] in *.
    assert (∀ r, r ∈ refs a → (r < length (memoria t))%nat) as Hlt
      by (intros r Hr; by eapply rep_lt).
    split; cbn [memoria raizes versao_atual].
    + by rewrite length_insert.
    + lia.
    + intros _. eapply limitada_quadro; [|apply (Hlim Hcap)|lia|lia].
      destruct Hq as (Hle & Hold & Hnew). split; [done|]. split; [|done].
      intros r n Hn. destruct (Hold r n Hn) as (n' & Hn' & HR & _). eauto.
    + intros v Hv. destruct (decide (v = versao_atual t + 1)) as [->|Hne].
      * exists (pintar PRETO (ins valor (length (memoria t)) a)).
        split; cbn [memoria raizes versao_atual].
        -- exists raiz'. split; [|done].
           apply list_lookup_insert_eq. lia.
        -- rewrite refs_pintar. apply NoDup_refs_ins; [done|].
           intros Hin%Hlt. lia.
        -- unfold abb. rewrite chaves_pintar. by apply abb_ins.
        -- by apply sem_vv_incluir.
        -- by destruct (ins valor (length (memoria t)) a).
        -- intros r n' Hn' Hat. rewrite refs_pintar.
           destruct Hq as (Hle & Hold & Hnew).
           destruct (decide (r < length (memoria t))%nat) as [Hr|Hr].
           ++ apply refs_ins_sub.
              destruct (lookup_lt_is_Some_2 _ _ Hr) as [n Hn].
              destruct (Hold _ _ Hn) as (n'' & Hn'' & HR).
              assert (n'' = n') as -> by congruence.
              apply (Hviv r n Hn).
              destruct HR as ([Hc _ _ _ _ _ _ _] & _ & Hrm).
              pose proof (visao_posterior _ (versao_atual t + 1) n
                            (Hlim Hcap r n Hn) ltac:(lia)) as E.
              apply (f_equal vs_ativo) in E. simpl in E. rewrite <- E.
              unfold No.esta_ativo in *. by rewrite <- Hc, <- Hrm.
           ++ apply lookup_lt_Some in Hn'. rewrite Hlen' in Hn'.
              destruct (busca valor a) eqn:Eb; [lia|].
              assert (r = length (memoria t)) as -> by lia.
              rewrite refs_ins, Eb. left.
      * destruct (Hver v ltac:(lia)) as (av & Hav). exists av.
        eapply (VersaoOk_quadro t); [done|lia| |done].
        cbn [raizes]. apply list_lookup_insert_ne. lia.
  - (* at the cap the roots table is full *)
    destruct Hcasos as [(Hrz & Hva & _)|(_ & _ & nova & Hatr)].
    + split.
      * congruence.
      * lia.
      * intros ?. lia.
      * intros v Hv. rewrite Hva in Hv. destruct (Hver v Hv) as (av & Hav).
        exists av. eapply (VersaoOk_quadro t); [done|lia|by rewrite Hrz|done].
    + apply py_atribuir_Some in Hatr as [Hatr _]; lia.
Qed.

Lemma alcancavel_inc_InvInc t : alcancavel_inc t → InvInc t.
Proof.
  induction 1 as [|t valor t' _ IH Hf]; [apply InvInc_vazia|by eapply InvInc_passo].
Qed.

(** ** The red rule, on the heap *)

(** [o] is a node that is alive and RED at [v]. *)
Definition vermelho_vivo (m : Memoria) (v : Z) (o : option Ref) : bool :=
  match o with
  | Some r =>
      match m !! r with
      | Some n => No.esta_ativo n v && Cor_eqb (No.obter_cor n v) VERMELHO
      | None => false
      end
  | None => false
  end.

(** [n] is not at once alive and RED at [v] with a child, at [v], that is
    alive and RED at [v]. *)
Definition respeita_regra (m : Memoria) (v : Z) (n : No.t) : bool :=
  negb (No.esta_ativo n v && Cor_eqb (No.obter_cor n v) VERMELHO &&
        (vermelho_vivo m v (No.obter_filho_esquerdo n v) ||
         vermelho_vivo m v (No.obter_filho_direito n v))).

(** The red rule at version [v], over every object of the heap. *)
Definition regra_vermelha (t : Arvore) (v : Z) : bool :=
  forallb (respeita_regra (memoria t) v) (memoria t).

Lemma vermelho_vivo_rep m v o a :
  rep m v o a → vermelho_vivo m v o = e_verm a.
Proof.
  destruct a as [|c r k e d]; simpl.
  - by intros ->.
  - intros (-> & oe & od & (n & Hn & E)%vis_Some & _). simpl. rewrite Hn.
    apply (f_equal vs_ativo) in E as Ea. apply (f_equal vs_cor) in E as Ec.
    simpl in Ea, Ec. rewrite <- Ea, <- Ec. by destruct c.
Qed.

(** The subtree at an object of a represented tree. *)
Lemma rep_subarvore m v o a r :
  rep m v o a → sem_vv a → r ∈ refs a →
  ∃ c k e d, rep m v (Some r) (Nodo c r k e d) ∧ sem_vv (Nodo c r k e d).
Proof.
  revert o. induction a as [|c r0 k e IHe d IHd]; intros o Hrep Hvv Hin.
  - by apply elem_of_nil in Hin.
  - pose proof Hrep as (-> & oe & od & Hr & He & Hd).
    destruct Hvv as (Hc & Hve & Hvd). simpl in Hin.
    apply elem_of_app in Hin as [Hin|Hin]; [by eapply IHe|].
    apply elem_of_cons in Hin as [->|Hin]; [|by eapply IHd].
    exists c, k, e, d. split; [done|]. exact (conj Hc (conj Hve Hvd)).
Qed.

Lemma regra_vermelha_VersaoOk t v a : VersaoOk t v a → regra_vermelha t v = true.
Proof.
  intros [(o & Ho & Hrep) Hnd Habb Hvv Hrt Hviv].
  unfold regra_vermelha. apply forallb_forall. intros n Hn.
  apply list_elem_of_In, list_elem_of_lookup in Hn as [r Hr].
  unfold respeita_regra. apply negb_true_iff.
  destruct (No.esta_ativo n v) eqn:Eat; [|done].
  destruct (No.obter_cor n v) eqn:Ec; [|done]. simpl.
  specialize (Hviv r n Hr Eat).
  destruct (rep_subarvore _ _ _ _ r Hrep Hvv Hviv)
    as (c & k & e & d & Hsub & Hc & _).
  destruct Hsub as (_ & oe & od & (n' & Hn' & E)%vis_Some & He & Hd).
  assert (n' = n) as -> by congruence.
  apply (f_equal vs_cor) in E as Ecor. apply (f_equal vs_esq) in E as Ee.
  apply (f_equal vs_dir) in E as Ed. simpl in Ecor, Ee, Ed. subst c oe od.
  rewrite Ec in Hc. destruct (Hc eq_refl) as [Hee Hed].
  rewrite (vermelho_vivo_rep _ _ _ _ He), (vermelho_vivo_rep _ _ _ _ Hd), Hee, Hed.
  done.
Qed.

(** C5. After every sequence of insertions from the empty tree, for every
    version [v] in [[0, versao_atual]], no node that is alive and RED at [v]
    has a child at [v] that is alive and RED at [v]. *)
Theorem regra_vermelha_apos_inclusoes (t : Arvore) (v : Z) :
  alcancavel_inc t → 0 <= v <= versao_atual t → regra_vermelha t v = true.
Proof.
  intros Ht Hv. destruct (alcancavel_inc_InvInc t Ht) as [_ _ _ Hver].
  destruct (Hver v Hv) as (a & Ha). by eapply regra_vermelha_VersaoOk.
Qed.

(** ** Concrete runs *)

(** The mutations of a command list, applied one after the other; a call
    that raises leaves the state it had reached. *)
Fixpoint aplicar (cs : list Comando) (t : Arvore) : Arvore :=
  match cs with
  | [] => t
  | INC valor :: cs' =>
      aplicar cs' (default t (estado_final (incluir valor t)))
  | REM valor :: cs' =>
      aplicar cs' (default t (estado_final (remover valor t)))
  | _ :: cs' => aplicar cs' t
  end.

Fixpoint so_inclusoes (cs : list Comando) : bool :=
  match cs with
  | [] => true
  | INC _ :: cs' => so_inclusoes cs'
  | _ => false
  end.

Lemma alcancavel_aplicar cs t : alcancavel t → alcancavel (aplicar cs t).
Proof.
  revert t. induction cs as [|c cs IH]; intros t Ht; [done|].
  destruct c as [valor|valor| | | |]; simpl; try by apply IH.
  - apply IH. destruct (estado_final (incluir valor t)) as [t'|] eqn:E; [|done].
    by eapply alc_incluir.
  - apply IH. destruct (estado_final (remover valor t)) as [t'|] eqn:E; [|done].
    by eapply alc_remover.
Qed.

Lemma alcancavel_inc_aplicar cs t :
  so_inclusoes cs = true → alcancavel_inc t → alcancavel_inc (aplicar cs t).
Proof.
  revert t. induction cs as [|c cs IH]; intros t Hcs Ht; [done|].
  destruct c as [valor| | | | |]; try done. simpl in *.
  apply IH; [done|].
  destruct (estado_final (incluir valor t)) as [t'|] eqn:E; [|done].
  by eapply ai_incluir.
Qed.

(** The demonstration of [main.py]: five insertions, then [REM 5]. *)
Definition exemplo_5 : Arvore :=
  aplicar [INC 10; INC 5; INC 15; INC 3; INC 7] arvore_vazia.
Definition exemplo_6 : Arvore := aplicar [REM 5] exemplo_5.

Lemma raiz_sempre_preta_witness :
  alcancavel exemplo_6 ∧ 0 <= 4 <= versao_atual exemplo_6 ∧
  raiz_preta exemplo_6 4 = true.
Proof.
  assert (alcancavel exemplo_6) as H
    by (apply alcancavel_aplicar, alcancavel_aplicar, alc_vazia).
  assert (0 <= 4 <= versao_atual exemplo_6) as Hv by (vm_compute; split; discriminate).
  split; [exact H|]. split; [exact Hv|].
  exact (raiz_sempre_preta exemplo_6 4 H Hv).
Defined.

Lemma regra_vermelha_apos_inclusoes_witness :
  alcancavel_inc exemplo_5 ∧ 0 <= 4 <= versao_atual exemplo_5 ∧
  regra_vermelha exemplo_5 4 = true.
Proof.
  assert (alcancavel_inc exemplo_5) as H
    by (apply alcancavel_inc_aplicar; [reflexivity|apply ai_vazia]).
  assert (0 <= 4 <= versao_atual exemplo_5) as Hv by (vm_compute; split; discriminate).
  split; [exact H|]. split; [exact Hv|].
  exact (regra_vermelha_apos_inclusoes exemplo_5 4 H Hv).
Defined.

(** ** [No.remover] *)

(** C9, as the code has it.  [No.remover] sets the removal version to the
    version given, whatever it was: retiring again at the same version changes
    nothing, retiring at an earlier version lowers the removal version and
    raises nothing, and the node is then alive exactly at the versions from
    its creation up to the new removal version. *)
Theorem remover_sobrescreve (n : No.t) (v : Z) :
  No.versao_remocao (No.remover n v) = Some v ∧
  No.remover (No.remover n v) v = No.remover n v ∧
  (∀ u, No.versao_remocao (No.remover (No.remover n v) u) = Some u) ∧
  (∀ u, No.esta_ativo (No.remover n v) u = (No.versao_criacao n <=? u) && (u <? v)).
Proof. repeat split. Qed.

(** A node retired at version 5 and then at version 2: no error, the removal
    version is lowered to 2 and the node is no longer alive at version 3. *)
Lemma remover_rebaixa :
  let n := No.remover (No.init 10 VERMELHO 0) 5 in
  No.versao_remocao n = Some 5 ∧ No.esta_ativo n 3 = true ∧
  No.versao_remocao (No.remover n 2) = Some 2 ∧
  No.esta_ativo (No.remover n 2) 3 = false.
Proof. repeat split. Qed.

(** ** Removal, on trees *)

(** The leftmost node: what [_encontrar_minimo] returns. *)
Fixpoint minimo (a : arv) : option (Ref * Z) :=
  match a with
  | Folha => None
  | Nodo _ r k e _ =>
      match minimo e with
      | Some x => Some x
      | None => Some (r, k)
      end
  end.

(** [_remover_recursivo] and [_remover_no], on trees, colours left as they
    are. *)
Fixpoint del (valor : Z) (a : arv) : arv :=
  match a with
  | Folha => Folha
  | Nodo c r k e d =>
      if valor <? k then Nodo c r k (del valor e) d
      else if k <? valor then Nodo c r k e (del valor d)
      else
        match e, d with
        | Folha, _ => d
        | Nodo _ _ _ _ _, Folha => e
        | Nodo _ _ _ _ _, Nodo _ _ _ _ _ =>
            match minimo d with
            | Some (_, s) => Nodo c r s e (del s d)
            | None => a
            end
        end
  end.

(** A tree with its colours forgotten. *)
Fixpoint descolorir (a : arv) : arv :=
  match a with
  | Folha => Folha
  | Nodo _ r k e d => Nodo PRETO r k (descolorir e) (descolorir d)
  end.

Lemma refs_descolorir a : refs (descolorir a) = refs a.
Proof. induction a as [|c r k e IHe d IHd]; simpl; congruence. Qed.

Lemma chaves_descolorir a : chaves (descolorir a) = chaves a.
Proof. induction a as [|c r k e IHe d IHd]; simpl; congruence. Qed.

Lemma descolorir_refs a b : descolorir a = descolorir b → refs a = refs b.
Proof. intros H. by rewrite <- (refs_descolorir a), H, refs_descolorir. Qed.

Lemma descolorir_chaves a b : descolorir a = descolorir b → chaves a = chaves b.
Proof. intros H. by rewrite <- (chaves_descolorir a), H, chaves_descolorir. Qed.

Lemma minimo_Nodo c r k e d : is_Some (minimo (Nodo c r k e d)).
Proof. simpl. destruct (minimo e); by eexists. Qed.

Lemma minimo_elem a r k : minimo a = Some (r, k) → r ∈ refs a ∧ k ∈ chaves a.
Proof.
  induction a as [|c r0 k0 e IHe d IHd]; simpl; [done|].
  destruct (minimo e) as [x|].
  - intros [= ->]. destruct (IHe eq_refl) as [H1 H2].
    split; apply elem_of_app; by left.
  - intros [= -> ->]. split; apply elem_of_app; right; left.
Qed.

(** The three cases of [_remover_no]. *)
Lemma del_casos c r k e d valor :
  (valor <? k) = false → (k <? valor) = false →
  ((e = Folha) ∧ (del valor (Nodo c r k e d) = d)) ∨
  ((e ≠ Folha) ∧ (d = Folha) ∧ (del valor (Nodo c r k e d) = e)) ∨
  ((e ≠ Folha) ∧ (d ≠ Folha) ∧
   ∃ sr s, minimo d = Some (sr, s) ∧
           del valor (Nodo c r k e d) = Nodo c r s e (del s d)).
Proof.
  intros E1 E2. cbn [del]. rewrite E1, E2.
  destruct e as [|ce re ke ee ed]; [by left|].
  destruct d as [|cd rd kd de dd]; [right; by left|].
  right; right. split; [done|]. split; [done|].
  destruct (minimo_Nodo cd rd kd de dd) as [[sr s] Hs].
  exists sr, s. split; [done|]. by rewrite Hs.
Qed.

Lemma refs_del valor a r : r ∈ refs (del valor a) → r ∈ refs a.
Proof.
  revert valor. induction a as [|c r0 k e IHe d IHd]; intros valor; [done|].
  destruct (valor <? k) eqn:E1; [|destruct (k <? valor) eqn:E2].
  - cbn [del]. rewrite E1. cbn [refs]. rewrite !elem_of_app.
    intros [H|H]; [left; by eapply IHe|by right].
  - cbn [del]. rewrite E1, E2. cbn [refs]. rewrite !elem_of_app, !elem_of_cons.
    intros [H|[H|H]]; auto. right; right. by eapply IHd.
  - destruct (del_casos c r0 k e d valor E1 E2)
      as [(-> & ->)|[(_ & -> & ->)|(_ & _ & sr & s & _ & ->)]]; cbn [refs].
    + intros H. apply elem_of_app. right. by right.
    + intros H. apply elem_of_app. by left.
    + rewrite !elem_of_app, !elem_of_cons.
      intros [H|[H|H]]; auto. right; right. by eapply IHd.
Qed.

Lemma NoDup_refs_del valor a : NoDup (refs a) → NoDup (refs (del valor a)).
Proof.
  revert valor. induction a as [|c r0 k e IHe d IHd]; intros valor; [done|].
  cbn [refs]. intros Hnd.
  destruct (nodup_nodo _ _ _ Hnd) as (Hnde & Hndd & Hne & Hnd' & Hed).
  assert (∀ s, NoDup (refs e ++ r0 :: refs (del s d))) as Hdir.
  { intros s. apply NoDup_app. split; [done|]. split.
    - intros x Hx. rewrite elem_of_cons. intros [->|Hd%refs_del]; [done|].
      by apply (Hed x).
    - apply NoDup_cons. split; [|by apply IHd].
      intros H%refs_del. done. }
  destruct (valor <? k) eqn:E1; [|destruct (k <? valor) eqn:E2].
  - cbn [del]. rewrite E1. cbn [refs].
    apply NoDup_app. split; [by apply IHe|]. split.
    + intros x Hx%refs_del. apply NoDup_app in Hnd as (_ & H & _). by apply H.
    + by apply NoDup_app in Hnd as (_ & _ & H).
  - cbn [del]. rewrite E1, E2. cbn [refs]. apply Hdir.
  - destruct (del_casos c r0 k e d valor E1 E2)
      as [(-> & ->)|[(_ & -> & ->)|(_ & _ & sr & s & _ & ->)]]; try done.
    cbn [refs]. apply Hdir.
Qed.

(** ** [_encontrar_minimo] and [_remover_recursivo] on a represented tree *)

Lemma minimo_vis m v o a r k :
  rep m v o a → minimo a = Some (r, k) →
  ∃ x, vis m v r = Some x ∧ vs_valor x = k.
Proof.
  revert o. induction a as [|c r0 k0 e IHe d IHd]; intros o; simpl; [done|].
  intros (-> & oe & od & Hr & He & Hd).
  destruct (minimo e) as [x|] eqn:E.
  - intros [= ->]. by eapply IHe.
  - intros [= -> ->]. by eexists.
Qed.

Lemma minimo_Folha a : minimo a = None → a = Folha.
Proof. destruct a as [|c r k e d]; [done|]. simpl. by destruct (minimo e). Qed.

Lemma rep_encontrar_minimo v fuel : ∀ a m o,
  rep m v o a → (altura a < fuel)%nat →
  wp (_encontrar_minimo fuel o v) m (fun r m' => m' = m ∧ r = fst <$> minimo a).
Proof.
  induction fuel as [|fuel IH]; intros a m o Hrep Hfuel; [lia|].
  destruct a as [|c no k e d]; simpl in Hrep.
  - subst o. simpl. by apply wp_ret.
  - destruct Hrep as (-> & oe & od & Hno & He & Hd).
    cbn [_encontrar_minimo]. do 2 wp_passo.
    destruct e as [|ce re ke ee ed].
    + simpl in He. subst oe. by apply wp_ret.
    + pose proof He as (-> & oee & oed & Hre & _).
      do 2 wp_passo.
      eapply wp_mono; [apply (IH (Nodo ce re ke ee ed) m (Some re)); [done|]|].
      * simpl in Hfuel |- *. lia.
      * intros r m' (-> & ->). split; [done|].
        destruct (minimo_Nodo ce re ke ee ed) as [x Hx].
        cbn [minimo] in Hx |- *. by rewrite Hx.
Qed.

Lemma rep_corrigir m v no x :
  vis m v no = Some x →
  wp (_balancear_apos_remocao (Some no) v) m (fun o' m' =>
    o' = Some no ∧ length m' = length m ∧
    ∃ c, ∀ r', vis m' v r' =
               if decide (r' = no) then Some (com_cor c x) else vis m v r').
Proof.
  intros Hx. cbn [_balancear_apos_remocao _corrigir_violacoes_remocao].
  apply wp_bind. eapply wp_obter_pai; [done|]. intros [p|].
  - apply wp_ret. split; [done|]. split; [done|]. exists (vs_cor x).
    intros r'. case_decide; [|done]. subst. rewrite Hx. by destruct x.
  - do 3 wp_passo. split; [done|]. split; [done|]. by exists PRETO.
Qed.

Lemma rep_remover_recursivo v fuel : ∀ a valor m o,
  rep m v o a → NoDup (refs a) → (altura a < fuel)%nat →
  wp (_remover_recursivo fuel o valor v) m (fun o' m' =>
    ∃ a', rep m' v o' a' ∧ descolorir a' = descolorir (del valor a) ∧
          length m' = length m ∧
          ∀ r', r' ∉ refs a → vis m' v r' = vis m v r').
Proof.
  induction fuel as [|fuel IH]; intros a valor m o Hrep Hnd Hfuel; [lia|].
  destruct a as [|c no k e d].
  - simpl in Hrep. subst o. simpl. apply wp_ret. by exists Folha.
  - destruct Hrep as (-> & oe & od & Hno & He & Hd).
    simpl in Hnd, Hfuel.
    destruct (nodup_nodo _ _ _ Hnd) as (Hnde & Hndd & Hne & Hnd' & Hed).
    cbn [_remover_recursivo]. do 2 wp_passo. cbn [negb]. do 2 wp_passo.
    destruct (valor <? k) eqn:E1; [|destruct (k <? valor) eqn:E2].
    + (* into the left subtree *)
      do 2 wp_passo. apply wp_bind.
      eapply wp_mono; [apply (IH e valor m oe); [done|done|lia]|].
      intros oe' m1 (ae & Hrep1 & Hde & Hlen1 & Hf1). cbv beta.
      pose proof (descolorir_refs _ _ Hde) as Hrefs.
      assert (vis m1 v no = vis m v no) as Hno1 by (by apply Hf1).
      rewrite Hno in Hno1.
      do 4 wp_passo.
      eapply wp_mono; [eapply rep_corrigir; vis_resolver|].
      intros o' m4 (-> & Hlen4 & c' & Hv4). wp_limpar.
      exists (Nodo c' no k ae d). split; [|split; [|split]].
      * split; [done|]. exists oe', od. split; [by rewrite Hv4, decide_True|].
        split.
        -- apply (rep_cong m1); [|done]. intros r Hr.
           rewrite Hv4, decide_False, H2, H0, decide_False; [done|..];
             intros ->; rewrite Hrefs in Hr; by apply refs_del in Hr.
        -- apply (rep_cong m); [|done]. intros r Hr.
           rewrite Hv4, decide_False, H2, H0, decide_False;
             [|by intros ->..].
           apply Hf1. by intros ?%Hed.
      * cbn [del descolorir]. rewrite E1. cbn [descolorir]. by rewrite Hde.
      * congruence.
      * intros r' Hr'. cbn [refs] in Hr'.
        apply not_elem_of_app in Hr' as [Hr'e Hr'd].
        apply not_elem_of_cons in Hr'd as [Hr'no Hr'd].
        rewrite Hv4, decide_False, H2, H0, decide_False by done. by apply Hf1.
    + (* into the right subtree *)
      do 2 wp_passo. apply wp_bind.
      eapply wp_mono; [apply (IH d valor m od); [done|done|lia]|].
      intros od' m1 (ad & Hrep1 & Hdd & Hlen1 & Hf1). cbv beta.
      pose proof (descolorir_refs _ _ Hdd) as Hrefs.
      assert (vis m1 v no = vis m v no) as Hno1 by (by apply Hf1).
      rewrite Hno in Hno1.
      do 4 wp_passo.
      eapply wp_mono; [eapply rep_corrigir; vis_resolver|].
      intros o' m4 (-> & Hlen4 & c' & Hv4). wp_limpar.
      exists (Nodo c' no k e ad). split; [|split; [|split]].
      * split; [done|]. exists oe, od'. split; [by rewrite Hv4, decide_True|].
        split.
        -- apply (rep_cong m); [|done]. intros r Hr.
           rewrite Hv4, decide_False, H2, H0, decide_False;
             [|by intros ->..].
           apply Hf1. by apply Hed.
        -- apply (rep_cong m1); [|done]. intros r Hr.
           rewrite Hv4, decide_False, H2, H0, decide_False; [done|..];
             intros ->; rewrite Hrefs in Hr; by apply refs_del in Hr.
      * cbn [del descolorir]. rewrite E1, E2. cbn [descolorir]. by rewrite Hdd.
      * congruence.
      * intros r' Hr'. cbn [refs] in Hr'.
        apply not_elem_of_app in Hr' as [Hr'e Hr'd].
        apply not_elem_of_cons in Hr'd as [Hr'no Hr'd].
        rewrite Hv4, decide_False, H2, H0, decide_False by done. by apply Hf1.
    + (* the node itself *)
      unfold _remover_no. do 4 wp_passo.
      destruct (del_casos c no k e d valor E1 E2)
        as [(-> & Hdel)|[(Hne0 & -> & Hdel)|(Hne0 & Hnd0 & sr & s & Hmin & Hdel)]].
      * simpl in He. subst oe. do 3 wp_passo.
        exists d. split; [|split; [by rewrite Hdel|split; [done|]]].
        -- apply (rep_cong m); [|done]. intros r Hr.
           rewrite H0, decide_False; [done|]. by intros ->.
        -- intros r' Hr'. cbn [refs] in Hr'.
           apply not_elem_of_cons in Hr' as [Hr'no Hr'd].
           by rewrite H0, decide_False.
      * simpl in Hd. subst od.
        destruct e as [|ce re ke ee ed]; [done|].
        pose proof He as (-> & _). do 3 wp_passo.
        exists (Nodo ce re ke ee ed).
        split; [|split; [by rewrite Hdel|split; [done|]]].
        -- apply (rep_cong m); [|done]. intros r Hr.
           rewrite H0, decide_False; [done|]. by intros ->.
        -- intros r' Hr'. cbn [refs] in Hr'.
           apply not_elem_of_app in Hr' as [Hr'e Hr'd].
           apply not_elem_of_cons in Hr'd as [Hr'no _].
           by rewrite H0, decide_False.
      * destruct e as [|ce re ke ee ed]; [done|].
        destruct d as [|cd rd kd de dd] eqn:Ed; [done|]. rewrite <- Ed in *.
        assert (oe = Some re) as -> by (by destruct He as (-> & _)).
        assert (od = Some rd) as -> by (rewrite Ed in Hd; by destruct Hd as (-> & _)).
        cbn iota. apply wp_bind.
        eapply wp_mono; [apply (rep_encontrar_minimo v fuel d m (Some rd)); [done|lia]|].
        intros osuc m0 (-> & ->). rewrite Hmin. cbn [fmap option_fmap option_map fst].
        destruct (minimo_vis _ _ _ _ _ _ Hd Hmin) as (xs & Hxs & Hxk).
        destruct (minimo_elem _ _ _ Hmin) as [Hsin _].
        assert (sr ≠ no) as Hsno by (by intros ->).
        do 4 wp_passo. rewrite Hxk.
        do 3 wp_passo. eapply (wp_obter_valor m' v); [vis_resolver|].
        rewrite Hxk. apply wp_bind.
        eapply wp_mono; [apply (IH d s m' (Some rd)); [|done|lia]|].
        { apply (rep_cong m); [|done]. intros r Hr.
          rewrite H0, decide_False; [done|]. by intros ->. }
        intros od' m1 (ad & Hrep1 & Hdd & Hlen1 & Hf1). cbv beta.
        pose proof (descolorir_refs _ _ Hdd) as Hrefs.
        assert (vis m1 v no = vis m' v no) as Hno1 by (by apply Hf1).
        rewrite H0, decide_True in Hno1 by done.
        apply wp_bind.
        eapply wp_definir_filho_direito; [vis_resolver|intros m2 Hl2 Hv2]. wp_limpar.
        apply wp_bind.
        eapply wp_definir_pai_se; [raiz_valida|intros m3 Hl3 Hv3].
        apply wp_ret.
        exists (Nodo c no s (Nodo ce re ke ee ed) ad).
        split; [|split; [|split]].
        -- split; [done|]. exists (Some re), od'. split; [vis_resolver|].
           split.
           ++ apply (rep_cong m); [|done]. intros r Hr.
              rewrite Hv3, Hv2, decide_False by (by intros ->).
              rewrite Hf1 by (by apply Hed).
              rewrite H0, decide_False; [done|]. by intros ->.
           ++ apply (rep_cong m1); [|done]. intros r Hr.
              rewrite Hv3, Hv2, decide_False; [done|].
              intros ->. rewrite Hrefs in Hr. by apply refs_del in Hr.
        -- rewrite Hdel. cbn [descolorir]. by rewrite Hdd.
        -- congruence.
        -- intros r' Hr'. cbn [refs] in Hr'.
           apply not_elem_of_app in Hr' as [Hr'e Hr'd].
           apply not_elem_of_cons in Hr'd as [Hr'no Hr'd].
           rewrite Hv3, Hv2, decide_False, Hf1, H0, decide_False by done. done.
Qed.

(** ** Removal keeps the search-tree order *)

Lemma minimo_menor a r k :
  abb a → minimo a = Some (r, k) → ∀ x, x ∈ chaves a → k <= x.
Proof.
  induction a as [|c r0 k0 e IHe d IHd]; simpl; [done|].
  intros (He & Hd & Hek & Hdk)%abb_Nodo Hmin x Hx.
  apply elem_of_app in Hx as [Hx|Hx%elem_of_cons].
  - destruct (minimo e) as [y|] eqn:E.
    + injection Hmin as ->. by eapply IHe.
    + apply minimo_Folha in E. subst e. by apply elem_of_nil in Hx.
  - destruct (minimo e) as [[r1 k1]|] eqn:E.
    + injection Hmin as -> ->.
      destruct (minimo_elem _ _ _ E) as [_ Hk%Hek].
      destruct Hx as [->|Hx%Hdk]; lia.
    + injection Hmin as -> ->. destruct Hx as [->|Hx%Hdk]; lia.
Qed.

Lemma chaves_del valor a x :
  abb a → x ∈ chaves (del valor a) ↔ x ∈ chaves a ∧ x ≠ valor.
Proof.
  revert valor x. induction a as [|c r k e IHe d IHd]; intros valor x.
  - simpl. intros _. split; [by intros ?%elem_of_nil|by intros [?%elem_of_nil _]].
  - intros Ha. pose proof Ha as (He & Hd & Hek & Hdk)%abb_Nodo.
    destruct (valor <? k) eqn:E1; [|destruct (k <? valor) eqn:E2].
    + cbn [del]. rewrite E1. cbn [chaves].
      rewrite !elem_of_app, !elem_of_cons, (IHe _ _ He).
      split; [|tauto]. intros [[H1 H2]|[->|H]].
      * split; [by left|done].
      * split; [right; by left|lia].
      * split; [right; by right|]. apply Hdk in H. lia.
    + cbn [del]. rewrite E1, E2. cbn [chaves].
      rewrite !elem_of_app, !elem_of_cons, (IHd _ _ Hd).
      split; [|tauto]. intros [H|[->|[H1 H2]]].
      * split; [by left|]. apply Hek in H. lia.
      * split; [right; by left|lia].
      * split; [right; by right|done].
    + assert (valor = k) as -> by lia.
      destruct (del_casos c r k e d k E1 E2)
        as [(-> & ->)|[(_ & -> & ->)|(_ & _ & sr & s & Hmin & ->)]]; cbn [chaves].
      * rewrite elem_of_app, elem_of_cons. split.
        -- intros H. split; [right; by right|]. apply Hdk in H. lia.
        -- intros [[H%elem_of_nil|[->|H]] Hne]; done.
      * rewrite elem_of_app, elem_of_cons. split.
        -- intros H. split; [by left|]. apply Hek in H. lia.
        -- intros [[H|[->|H%elem_of_nil]] Hne]; done.
      * rewrite !elem_of_app, !elem_of_cons, (IHd _ _ Hd).
        destruct (minimo_elem _ _ _ Hmin) as [_ Hs]. pose proof (Hdk _ Hs).
        split.
        -- intros [H0|[->|[H1 H2]]].
           ++ split; [by left|]. apply Hek in H0. lia.
           ++ split; [right; by right|lia].
           ++ split; [right; by right|]. apply Hdk in H1. lia.
        -- intros [[H0|[->|H0]] Hne]; [by left|done|].
           destruct (decide (x = s)) as [->|]; [right; by left|right; by right].
Qed.

Lemma abb_del valor a : abb a → abb (del valor a).
Proof.
  revert valor. induction a as [|c r k e IHe d IHd]; intros valor; [done|].
  intros Ha. pose proof Ha as (He & Hd & Hek & Hdk)%abb_Nodo.
  destruct (valor <? k) eqn:E1; [|destruct (k <? valor) eqn:E2].
  - cbn [del]. rewrite E1. apply abb_Nodo. repeat split; auto.
    intros x [Hx _]%chaves_del; auto.
  - cbn [del]. rewrite E1, E2. apply abb_Nodo. repeat split; auto.
    intros x [Hx _]%chaves_del; auto.
  - destruct (del_casos c r k e d valor E1 E2)
      as [(-> & ->)|[(_ & -> & ->)|(_ & _ & sr & s & Hmin & ->)]]; try done.
    destruct (minimo_elem _ _ _ Hmin) as [_ Hs]. pose proof (Hdk _ Hs).
    apply abb_Nodo. repeat split; auto.
    + intros x Hx%Hek. lia.
    + intros x [Hx Hne]%chaves_del; [|done].
      pose proof (minimo_menor _ _ _ Hd Hmin x Hx). lia.
Qed.

(** Strictly ascending sequences with the same elements are equal. *)
Lemma ordenadas_iguais (l1 l2 : list Z) :
  StronglySorted Z.lt l1 → StronglySorted Z.lt l2 →
  (∀ x, x ∈ l1 ↔ x ∈ l2) → l1 = l2.
Proof.
  revert l2. induction l1 as [|x l1 IH]; intros l2 H1 H2 Hel.
  - destruct l2 as [|y l2]; [done|]. specialize (Hel y).
    destruct Hel as [_ Hel]. specialize (Hel ltac:(left)). by apply elem_of_nil in Hel.
  - destruct l2 as [|y l2].
    { specialize (Hel x). destruct Hel as [Hel _].
      specialize (Hel ltac:(left)). by apply elem_of_nil in Hel. }
    apply StronglySorted_cons in H1 as [Hx1 H1].
    apply StronglySorted_cons in H2 as [Hy2 H2].
    rewrite Forall_forall in Hx1, Hy2.
    assert (x = y) as ->.
    { pose proof (proj1 (Hel x) ltac:(left)) as Hxy.
      pose proof (proj2 (Hel y) ltac:(left)) as Hyx.
      apply elem_of_cons in Hxy as [->|Hxy]; [done|].
      apply elem_of_cons in Hyx as [->|Hyx]; [done|].
      specialize (Hx1 _ Hyx). specialize (Hy2 _ Hxy). lia. }
    f_equal. apply IH; [done..|].
    intros z. split.
    + intros Hz. pose proof (proj1 (Hel z) ltac:(by right)) as H.
      apply elem_of_cons in H as [->|H]; [|done].
      specialize (Hx1 _ Hz). lia.
    + intros Hz. pose proof (proj2 (Hel z) ltac:(by right)) as H.
      apply elem_of_cons in H as [->|H]; [|done].
      specialize (Hy2 _ Hz). lia.
Qed.

(** A key absent from [a], inserted and then removed: the keys of [a]. *)
Lemma chaves_del_ins valor novo a :
  abb a → valor ∉ chaves a →
  chaves (del valor (pintar PRETO (ins valor novo a))) = chaves a.
Proof.
  intros Ha Hk.
  assert (abb (pintar PRETO (ins valor novo a))) as Hi.
  { unfold abb. rewrite chaves_pintar. by apply abb_ins. }
  apply ordenadas_iguais; [by apply abb_del|done|].
  intros x. rewrite chaves_del by done. rewrite chaves_pintar, chaves_ins.
  split; [tauto|]. intros Hx. split; [intuition|]. by intros ->.
Qed.

(** Inserting a key that is present, or removing one that is absent, leaves
    the keys as they are. *)
Lemma chaves_ins_presente valor novo a :
  abb a → valor ∈ chaves a → chaves (ins valor novo a) = chaves a.
Proof.
  intros Ha Hk. apply ordenadas_iguais; [by apply abb_ins|done|].
  intros x. rewrite chaves_ins. split; [|tauto]. by intros [->|?].
Qed.

Lemma chaves_del_ausente valor a :
  abb a → valor ∉ chaves a → chaves (del valor a) = chaves a.
Proof.
  intros Ha Hk. apply ordenadas_iguais; [by apply abb_del|done|].
  intros x. rewrite chaves_del by done. split; [tauto|].
  intros Hx. split; [done|]. by intros ->.
Qed.

(** ** [incluir] and [remover] on a represented tree, up to the cap *)

Lemma descolorir_pintar c a : descolorir (pintar c a) = descolorir a.
Proof. by destruct a. Qed.

(** The heap part of a mutation, on a state whose current version denotes
    [a]: the recursive helper and the painting of the root return. *)
Lemma incluir_nucleo t valor raiz a :
  0 <= versao_atual t →
  limitada (versao_atual t) (memoria t) →
  rep (memoria t) (versao_atual t) raiz a → NoDup (refs a) →
  ∃ o1 m1 m2,
    _incluir_recursivo (S (length (memoria t))) raiz valor (versao_atual t + 1)
      (memoria t) = Val o1 m1 ∧
    pintar_raiz o1 (versao_atual t + 1) m1 = Val tt m2 ∧
    rep m2 (versao_atual t + 1) o1
      (pintar PRETO (ins valor (length (memoria t)) a)) ∧
    length m2 = (if busca valor a then length (memoria t)
                 else S (length (memoria t))).
Proof.
  intros HV Hlim Hrep Hnd.
  apply (rep_posterior _ (versao_atual t + 1)) in Hrep; [|done|lia].
  assert (∀ r, r ∈ refs a → (r < length (memoria t))%nat) as Hlt
    by (intros r Hr; by eapply rep_lt).
  destruct (rep_incluir_recursivo valor (versao_atual t + 1)
              (S (length (memoria t))) a (memoria t) raiz Hrep Hnd)
    as (o1 & m1 & Hrec & Hrep1 & Hlen1 & Hf1).
  { by eapply altura_combustivel. }
  destruct (rep_pintar_raiz m1 (versao_atual t + 1) o1 _ Hrep1)
    as ([] & m2 & Hpin & Hrep2 & Hlen2 & Hf2).
  { apply NoDup_refs_ins; [done|]. intros Hin%Hlt. lia. }
  exists o1, m1, m2. repeat split; try done. congruence.
Qed.

Lemma remover_nucleo t valor raiz a :
  0 <= versao_atual t →
  limitada (versao_atual t) (memoria t) →
  rep (memoria t) (versao_atual t) raiz a → NoDup (refs a) →
  ∃ o1 m1 m2 a',
    _remover_recursivo (S (length (memoria t))) raiz valor (versao_atual t + 1)
      (memoria t) = Val o1 m1 ∧
    pintar_raiz o1 (versao_atual t + 1) m1 = Val tt m2 ∧
    rep m2 (versao_atual t + 1) o1 a' ∧
    descolorir a' = descolorir (del valor a) ∧
    length m2 = length (memoria t).
Proof.
  intros HV Hlim Hrep Hnd.
  apply (rep_posterior _ (versao_atual t + 1)) in Hrep; [|done|lia].
  destruct (rep_remover_recursivo (versao_atual t + 1)
              (S (length (memoria t))) a valor (memoria t) raiz Hrep Hnd)
    as (o1 & m1 & Hrec & a1 & Hrep1 & Hd1 & Hlen1 & Hf1).
  { by eapply altura_combustivel. }
  destruct (rep_pintar_raiz m1 (versao_atual t + 1) o1 _ Hrep1)
    as ([] & m2 & Hpin & Hrep2 & Hlen2 & Hf2).
  { rewrite (descolorir_refs _ _ Hd1). by apply NoDup_refs_del. }
  exists o1, m1, m2, (pintar PRETO a1). repeat split; try done.
  - by rewrite descolorir_pintar.
  - congruence.
Qed.

(** The outcome of a mutation whose heap part returns: the new version is
    installed when the roots table has a slot for it, and the write to the
    table raises [IndexError] when it has none. *)
Lemma mutar_resultado rec t valor raiz o1 m1 m2 :
  length (raizes t) = 100%nat → 0 <= versao_atual t <= 99 →
  raizes t !! Z.to_nat (versao_atual t) = Some raiz →
  rec (S (length (memoria t))) raiz valor (versao_atual t + 1) (memoria t)
    = Val o1 m1 →
  pintar_raiz o1 (versao_atual t + 1) m1 = Val tt m2 →
  mutar rec valor t =
    if decide (versao_atual t < 99)
    then Val tt {| memoria := m2;
                   raizes := <[Z.to_nat (versao_atual t + 1) := o1]> (raizes t);
                   versao_atual := versao_atual t + 1 |}
    else Exc IndexError {| memoria := m2; raizes := raizes t;
                           versao_atual := versao_atual t |}.
Proof.
  intros Hlen HV Hraiz Hrec Hpin.
  destruct t as [m rs va]. cbn [memoria raizes versao_atual] in *.
  unfold mutar, bind, ler_versao_atual, ler_raiz, combustivel, na_memoria,
    escrever_raiz, escrever_versao_atual; cbn [memoria raizes versao_atual].
  rewrite py_obter_dentro, Hraiz by lia. cbn [memoria raizes versao_atual].
  rewrite Hrec. cbn [memoria raizes versao_atual]. rewrite Hpin.
  cbn [memoria raizes versao_atual]. unfold py_atribuir.
  case_decide.
  - rewrite py_indice_dentro by lia. done.
  - rewrite py_indice_fora by lia. done.
Qed.

(** ** The in-order dump of a represented tree *)

Fixpoint listar (profundidade : Z) (a : arv) : list Entrada :=
  match a with
  | Folha => []
  | Nodo c _ k e d =>
      listar (profundidade + 1) e ++
      {| e_valor := k; e_profundidade := profundidade; e_cor := c |} ::
      listar (profundidade + 1) d
  end.

Lemma valores_listar p a : map e_valor (listar p a) = chaves a.
Proof.
  revert p. induction a as [|c r k e IHe d IHd]; intros p; simpl; [done|].
  rewrite map_app. simpl. by rewrite IHe, IHd.
Qed.

Lemma wp_percorrer v fuel : ∀ a m o p res,
  rep m v o a → (altura a < fuel)%nat →
  wp (_percorrer_em_ordem fuel o v p res) m
     (fun r m' => r = res ++ listar p a ∧ m' = m).
Proof.
  induction fuel as [|fuel IH]; intros a m o p res Hrep Hfuel; [lia|].
  destruct a as [|c no k e d].
  - simpl in Hrep. subst o. cbn [_percorrer_em_ordem listar]. apply wp_ret.
    by rewrite app_nil_r.
  - pose proof Hrep as (-> & oe & od & Hvis & He & Hd).
    cbn [altura] in Hfuel. cbn [_percorrer_em_ordem listar].
    apply wp_bind. eapply wp_esta_ativo; [exact Hvis|]. cbn [vs_ativo negb].
    apply wp_bind. eapply wp_obter_filho_esquerdo; [exact Hvis|]. cbn [vs_esq].
    apply wp_bind.
    apply (wp_mono _ _ (fun r m' => r = res ++ listar (p + 1) e ∧ m' = m)).
    { destruct oe as [re|].
      - apply IH; [done|lia].
      - apply rep_raiz in He. destruct e; [|done]. apply wp_ret.
        by rewrite app_nil_r. }
    intros r1 m1 [-> ->].
    apply wp_bind. eapply wp_obter_cor; [exact Hvis|]. cbn [vs_cor].
    apply wp_bind. eapply wp_obter_valor; [exact Hvis|]. cbn [vs_valor].
    apply wp_bind. eapply wp_obter_filho_direito; [exact Hvis|]. cbn [vs_dir].
    destruct od as [rd|].
    + eapply wp_mono; [apply (IH d); [done|lia]|].
      intros r2 m2 [-> ->]. split; [|done]. rewrite <- !app_assoc. done.
    + apply rep_raiz in Hd. destruct d; [|done]. apply wp_ret.
      split; [|done]. rewrite <- !app_assoc. done.
Qed.

Lemma rep_percorrer v fuel a m o p res :
  rep m v o a → (altura a < fuel)%nat →
  _percorrer_em_ordem fuel o v p res m = Val (res ++ listar p a) m.
Proof.
  intros Hrep Hfuel.
  destruct (wp_percorrer v fuel a m o p res Hrep Hfuel) as (r & m' & E & -> & ->).
  done.
Qed.

Lemma ajustar_versao_dentro v atual : v <= atual → ajustar_versao (Some v) atual = v.
Proof. intros H. unfold ajustar_versao. casos_Zb; [lia|done]. Qed.

Lemma ajustar_versao_acima v atual :
  atual < v → ajustar_versao (Some v) atual = atual.
Proof. intros H. unfold ajustar_versao. casos_Zb; [done|lia]. Qed.

Lemma entradas_rep t v o a :
  length (raizes t) = 100%nat → 0 <= v <= versao_atual t → versao_atual t <= 99 →
  raizes t !! Z.to_nat v = Some o → rep (memoria t) v o a → NoDup (refs a) →
  entradas_arvore (Some v) t = Val (listar 0 a) t.
Proof.
  intros Hlen Hv HV Ho Hrep Hnd.
  destruct t as [m rs va]. cbn [memoria raizes versao_atual] in *.
  unfold entradas_arvore, bind, ler_versao_atual, ler_raiz, combustivel, na_memoria;
    cbn [memoria raizes versao_atual].
  rewrite ajustar_versao_dentro by lia.
  rewrite py_obter_dentro, Ho by lia. cbn [memoria raizes versao_atual].
  destruct a as [|c r k e d].
  - simpl in Hrep. by subst o.
  - pose proof Hrep as (-> & _).
    rewrite (rep_percorrer v _ (Nodo c r k e d)); [done..|].
    by eapply altura_combustivel.
Qed.

Lemma entradas_None t :
  entradas_arvore None t = entradas_arvore (Some (versao_atual t)) t.
Proof.
  unfold entradas_arvore, bind, ler_versao_atual. simpl.
  by rewrite Z.ltb_irrefl.
Qed.

(** ** The tree denoted by the current version *)

(** [Atual t a]: the current version of [t] denotes the search tree [a],
    and no object is stamped with a later version. *)
Record Atual (t : Arvore) (a : arv) : Prop := {
  at_raizes : length (raizes t) = 100%nat;
  at_versao : 0 <= versao_atual t <= 99;
  at_limitada : limitada (versao_atual t) (memoria t);
  at_rep : ∃ raiz, raizes t !! Z.to_nat (versao_atual t) = Some raiz ∧
                   rep (memoria t) (versao_atual t) raiz a;
  at_nodup : NoDup (refs a);
  at_abb : abb a
}.

Lemma Atual_vazia : Atual arvore_vazia Folha.
Proof.
  split; unfold arvore_vazia; cbn [memoria raizes versao_atual].
  - by rewrite length_replicate.
  - lia.
  - intros r n Hn. by rewrite lookup_nil in Hn.
  - exists None. split; [|done]. apply lookup_replicate. split; [done|]. simpl. lia.
  - constructor.
  - constructor.
Qed.

Lemma quadro_Rt_Rh V' m m' : quadro V' (Rt V') m m' → quadro V' (Rh V') m m'.
Proof.
  intros (Hle & Hold & Hnew). split; [done|]. split; [|done].
  intros r n Hn. destruct (Hold r n Hn) as (n' & Hn' & HR & _). eauto.
Qed.

Lemma abb_pintar c a : abb a → abb (pintar c a).
Proof. unfold abb. by rewrite chaves_pintar. Qed.

Lemma abb_descolorir a b : descolorir a = descolorir b → abb a → abb b.
Proof. unfold abb. intros H. by rewrite (descolorir_chaves _ _ H). Qed.

(** Below the cap an insertion returns, and installs [ins] of the tree with
    its root painted. *)
Lemma incluir_abaixo t valor a :
  Atual t a → versao_atual t < 99 →
  ∃ t', incluir valor t = Val tt t' ∧
        versao_atual t' = versao_atual t + 1 ∧
        length (memoria t') = (if busca valor a then length (memoria t)
                               else S (length (memoria t))) ∧
        Atual t' (pintar PRETO (ins valor (length (memoria t)) a)).
Proof.
  intros [Hlen HV Hlim (raiz & Hraiz & Hrep) Hnd Habb] Hcap.
  destruct (incluir_nucleo t valor raiz a ltac:(lia) Hlim Hrep Hnd)
    as (o1 & m1 & m2 & Hrec & Hpin & Hrep2 & Hlen2).
  pose proof (mutar_resultado _incluir_recursivo t valor raiz o1 m1 m2
                Hlen HV Hraiz Hrec Hpin) as Hmut.
  rewrite <- incluir_mutar in Hmut. rewrite decide_True in Hmut by done.
  eexists. split; [exact Hmut|]. cbn [memoria raizes versao_atual].
  split; [done|]. split; [done|].
  destruct (incluir_quadro t valor _ ltac:(lia) (f_equal estado_final Hmut))
    as [Hq _]. cbn [memoria] in Hq.
  assert (∀ r, r ∈ refs a → (r < length (memoria t))%nat) as Hlt
    by (intros r Hr; by eapply rep_lt).
  split; cbn [memoria raizes versao_atual].
  - by rewrite length_insert.
  - lia.
  - eapply limitada_quadro; [by apply quadro_Rt_Rh|done|lia|lia].
  - exists o1. split; [|done]. apply list_lookup_insert_eq. lia.
  - rewrite refs_pintar. apply NoDup_refs_ins; [done|]. intros Hin%Hlt. lia.
  - by apply abb_pintar, abb_ins.
Qed.

(** Below the cap a removal returns, and installs [del] of the tree, up to
    the colours. *)
Lemma remover_abaixo t valor a :
  Atual t a → versao_atual t < 99 →
  ∃ t' a', remover valor t = Val tt t' ∧
           versao_atual t' = versao_atual t + 1 ∧
           length (memoria t') = length (memoria t) ∧
           descolorir a' = descolorir (del valor a) ∧
           Atual t' a'.
Proof.
  intros [Hlen HV Hlim (raiz & Hraiz & Hrep) Hnd Habb] Hcap.
  destruct (remover_nucleo t valor raiz a ltac:(lia) Hlim Hrep Hnd)
    as (o1 & m1 & m2 & a' & Hrec & Hpin & Hrep2 & Hd & Hlen2).
  pose proof (mutar_resultado _remover_recursivo t valor raiz o1 m1 m2
                Hlen HV Hraiz Hrec Hpin) as Hmut.
  rewrite <- remover_mutar in Hmut. rewrite decide_True in Hmut by done.
  eexists _, a'. split; [exact Hmut|]. cbn [memoria raizes versao_atual].
  split; [done|]. split; [done|]. split; [done|].
  destruct (remover_quadro t valor _ ltac:(lia) (f_equal estado_final Hmut))
    as [Hq _]. cbn [memoria] in Hq.
  split; cbn [memoria raizes versao_atual].
  - by rewrite length_insert.
  - lia.
  - eapply limitada_quadro; [done|done|lia|lia].
  - exists o1. split; [|done]. apply list_lookup_insert_eq. lia.
  - rewrite (descolorir_refs _ _ Hd). by apply NoDup_refs_del.
  - eapply abb_descolorir; [symmetry; exact Hd|]. by apply abb_del.
Qed.

(** At the cap the heap part of a mutation still runs, and the write to
    [raizes[100]] raises [IndexError]: the roots and the version counter stay. *)
Lemma incluir_no_limite t valor a :
  Atual t a → versao_atual t = 99 →
  ∃ t', incluir valor t = Exc IndexError t' ∧
        raizes t' = raizes t ∧ versao_atual t' = 99.
Proof.
  intros [Hlen HV Hlim (raiz & Hraiz & Hrep) Hnd Habb] Hcap.
  destruct (incluir_nucleo t valor raiz a ltac:(lia) Hlim Hrep Hnd)
    as (o1 & m1 & m2 & Hrec & Hpin & Hrep2 & Hlen2).
  pose proof (mutar_resultado _incluir_recursivo t valor raiz o1 m1 m2
                Hlen HV Hraiz Hrec Hpin) as Hmut.
  rewrite <- incluir_mutar in Hmut. rewrite decide_False in Hmut by lia.
  eexists. split; [exact Hmut|]. done.
Qed.

Lemma remover_no_limite t valor a :
  Atual t a → versao_atual t = 99 →
  ∃ t', remover valor t = Exc IndexError t' ∧
        raizes t' = raizes t ∧ versao_atual t' = 99.
Proof.
  intros [Hlen HV Hlim (raiz & Hraiz & Hrep) Hnd Habb] Hcap.
  destruct (remover_nucleo t valor raiz a ltac:(lia) Hlim Hrep Hnd)
    as (o1 & m1 & m2 & a' & Hrec & Hpin & Hrep2 & Hd & Hlen2).
  pose proof (mutar_resultado _remover_recursivo t valor raiz o1 m1 m2
                Hlen HV Hraiz Hrec Hpin) as Hmut.
  rewrite <- remover_mutar in Hmut. rewrite decide_False in Hmut by lia.
  eexists. split; [exact Hmut|]. done.
Qed.

(** The keys alive at the current version, in the order of the dump. *)
Definition chaves_vivas (t : Arvore) : option (list Z) :=
  match entradas_arvore None t with
  | Val es _ => Some (map e_valor es)
  | _ => None
  end.

Lemma chaves_vivas_Atual t a : Atual t a → chaves_vivas t = Some (chaves a).
Proof.
  intros [Hlen HV Hlim (raiz & Hraiz & Hrep) Hnd Habb].
  unfold chaves_vivas. rewrite entradas_None.
  rewrite (entradas_rep t (versao_atual t) raiz a); [|done|lia|lia|done..].
  by rewrite valores_listar.
Qed.

(** ** States reached without an exception *)

Inductive alcancavel_normal : Arvore -> Prop :=
  | an_vazia : alcancavel_normal arvore_vazia
  | an_incluir t valor t' :
      alcancavel_normal t → incluir valor t = Val tt t' → alcancavel_normal t'
  | an_remover t valor t' :
      alcancavel_normal t → remover valor t = Val tt t' → alcancavel_normal t'.

Lemma alcancavel_normal_alcancavel t : alcancavel_normal t → alcancavel t.
Proof.
  induction 1 as [|t valor t' _ IH Hf|t valor t' _ IH Hf].
  - constructor.
  - eapply alc_incluir; [done|]. by rewrite Hf.
  - eapply alc_remover; [done|]. by rewrite Hf.
Qed.

Lemma Val_abaixo_do_limite (c : M Arvore unit) t t' a :
  Atual t a →
  (versao_atual t = 99 → ∃ t'', c t = Exc IndexError t'') →
  c t = Val tt t' → versao_atual t < 99.
Proof.
  intros Ha Hlim Hc. destruct (decide (versao_atual t < 99)) as [|Hn]; [done|].
  destruct Ha as [_ HV _ _ _ _]. destruct Hlim as (t'' & E); [lia|]. congruence.
Qed.

Lemma alcancavel_normal_Atual t : alcancavel_normal t → ∃ a, Atual t a.
Proof.
  induction 1 as [|t valor t' _ [a Ha] Hf|t valor t' _ [a Ha] Hf].
  - exists Folha. apply Atual_vazia.
  - assert (versao_atual t < 99) as Hcap.
    { eapply Val_abaixo_do_limite; [done| |done].
      intros H99. destruct (incluir_no_limite t valor a Ha H99) as (t'' & E & _).
      eauto. }
    destruct (incluir_abaixo t valor a Ha Hcap) as (t1 & E & _ & _ & Ha1).
    assert (t1 = t') as -> by congruence. eauto.
  - assert (versao_atual t < 99) as Hcap.
    { eapply Val_abaixo_do_limite; [done| |done].
      intros H99. destruct (remover_no_limite t valor a Ha H99) as (t'' & E & _).
      eauto. }
    destruct (remover_abaixo t valor a Ha Hcap) as (t1 & a1 & E & _ & _ & _ & Ha1).
    assert (t1 = t') as -> by congruence. eauto.
Qed.

(** A state below the cap was reached without an exception. *)
Lemma alcancavel_abaixo t :
  alcancavel t → versao_atual t < 99 → alcancavel_normal t.
Proof.
  induction 1 as [|t valor t' Ht IH Hf|t valor t' Ht IH Hf]; intros Hcap.
  - constructor.
  - pose proof (alcancavel_Base _ Ht) as [_ HV _ _ _].
    destruct (incluir_quadro t valor t' ltac:(lia) Hf)
      as [_ [(_ & Hva & _)|(Hval & Hva & _)]].
    + specialize (IH ltac:(lia)).
      destruct (alcancavel_normal_Atual _ IH) as [a Ha].
      destruct (incluir_abaixo t valor a Ha ltac:(lia)) as (t1 & E & _).
      rewrite E in Hf. injection Hf as <-. by eapply an_incluir.
    + eapply an_incluir; [|done]. apply IH. lia.
  - pose proof (alcancavel_Base _ Ht) as [_ HV _ _ _].
    destruct (remover_quadro t valor t' ltac:(lia) Hf)
      as [_ [(_ & Hva & _)|(Hval & Hva & _)]].
    + specialize (IH ltac:(lia)).
      destruct (alcancavel_normal_Atual _ IH) as [a Ha].
      destruct (remover_abaixo t valor a Ha ltac:(lia)) as (t1 & a1 & E & _).
      rewrite E in Hf. injection Hf as <-. by eapply an_remover.
    + eapply an_remover; [|done]. apply IH. lia.
Qed.

Lemma alcancavel_Atual t :
  alcancavel t → versao_atual t < 99 → ∃ a, Atual t a.
Proof. intros Ht Hcap. by apply alcancavel_normal_Atual, alcancavel_abaixo. Qed.

(** ** Insertion followed by removal of the same key *)

(** C7, up to the cap. From a state reached from the empty tree with at
    least two free slots in the roots table ([versao_atual <= 97]), for a
    key [k] that is not alive at the current version, [incluir k] and then
    [remover k] both return, two versions are added, and the keys alive at
    the latest version are the keys that were alive before the insertion. *)
Theorem incluir_remover_restaura (t : Arvore) (k : Z) (ks : list Z) :
  alcancavel t → versao_atual t <= 97 →
  chaves_vivas t = Some ks → k ∉ ks →
  ∃ t1 t2, incluir k t = Val tt t1 ∧ remover k t1 = Val tt t2 ∧
           versao_atual t2 = versao_atual t + 2 ∧
           chaves_vivas t2 = Some ks.
Proof.
  intros Ht Hcap Hks Hk.
  destruct (alcancavel_Atual t Ht ltac:(lia)) as [a Ha].
  rewrite (chaves_vivas_Atual t a Ha) in Hks. injection Hks as <-.
  destruct (incluir_abaixo t k a Ha ltac:(lia)) as (t1 & E1 & Hv1 & _ & Ha1).
  destruct (remover_abaixo t1 k _ Ha1 ltac:(lia)) as (t2 & a2 & E2 & Hv2 & _ & Hd & Ha2).
  exists t1, t2. split; [done|]. split; [done|]. split; [lia|].
  rewrite (chaves_vivas_Atual t2 a2 Ha2). f_equal.
  rewrite (descolorir_chaves _ _ Hd). apply chaves_del_ins; [|done].
  by destruct Ha.
Qed.

Lemma incluir_remover_restaura_witness :
  alcancavel exemplo_5 ∧ versao_atual exemplo_5 <= 97 ∧
  chaves_vivas exemplo_5 = Some [3; 5; 7; 10; 15] ∧ (8 ∉ [3; 5; 7; 10; 15]) ∧
  ∃ t1 t2, incluir 8 exemplo_5 = Val tt t1 ∧ remover 8 t1 = Val tt t2 ∧
           versao_atual t2 = versao_atual exemplo_5 + 2 ∧
           chaves_vivas t2 = Some [3; 5; 7; 10; 15].
Proof.
  assert (alcancavel exemplo_5) as H by (apply alcancavel_aplicar, alc_vazia).
  assert (versao_atual exemplo_5 <= 97) as Hv by (vm_compute; discriminate).
  assert (chaves_vivas exemplo_5 = Some [3; 5; 7; 10; 15]) as Hks
    by (vm_compute; reflexivity).
  assert (8 ∉ [3; 5; 7; 10; 15]) as Hk.
  { intros Hin. repeat (apply elem_of_cons in Hin as [Hin|Hin]; [discriminate Hin|]).
    by apply elem_of_nil in Hin. }
  split; [exact H|]. split; [exact Hv|]. split; [exact Hks|]. split; [exact Hk|].
  exact (incluir_remover_restaura exemplo_5 8 [3; 5; 7; 10; 15] H Hv Hks Hk).
Defined.

(** Ninety-eight removals on the empty tree: one free slot is left. *)
Definition exemplo_98 : Arvore := aplicar (replicate 98 (REM 0)) arvore_vazia.

(** C7 as stated fails at the cap: from version 98 the insertion installs
    version 99, the removal raises [IndexError] at [raizes[100]], and the
    latest version still lists the key. *)
Lemma incluir_remover_no_limite :
  alcancavel exemplo_98 ∧ chaves_vivas exemplo_98 = Some [] ∧
  ∃ t1 t2, incluir 5 exemplo_98 = Val tt t1 ∧
           remover 5 t1 = Exc IndexError t2 ∧
           versao_atual t2 = 99 ∧ chaves_vivas t2 = Some [5].
Proof.
  split; [apply alcancavel_aplicar, alc_vazia|].
  split; [vm_compute; reflexivity|].
  eexists _, _. split; [vm_compute; reflexivity|].
  split; [vm_compute; reflexivity|].
  split; vm_compute; reflexivity.
Qed.

(** ** The version cap *)

(** The public method behind a mutating command. *)
Definition mutacao (c : Comando) : option (M Arvore unit) :=
  match c with
  | INC valor => Some (incluir valor)
  | REM valor => Some (remover valor)
  | _ => None
  end.

Lemma processar_mutacao c op t :
  mutacao c = Some op →
  processar_operacao c t =
    match op t with
    | Val _ t' => Val {| linhas := None; console := [] |} t'
    | Exc IndexError t' =>
        Val {| linhas := None; console := [ErroAoProcessar (Some IndexError)] |} t'
    | Exc e t' => Exc e t'
    | Div => Div
    end.
Proof.
  destruct c as [valor|valor| | | |]; try done; intros [= <-];
    unfold processar_operacao, bind, ret.
  - by destruct (incluir valor t) as [[] t'|[] t'|].
  - by destruct (remover valor t) as [[] t'|[] t'|].
Qed.

(** Once the table is full no mutation returns, and neither the roots nor
    the version counter change. *)
Lemma no_limite_nada_muda t c op t' :
  alcancavel t → versao_atual t = 99 → mutacao c = Some op →
  estado_final (op t) = Some t' →
  raizes t' = raizes t ∧ versao_atual t' = 99 ∧ ∀ x, op t ≠ Val x t'.
Proof.
  intros Ht H99 Hc Hf. pose proof (alcancavel_Base _ Ht) as [Hlen _ _ _ _].
  assert (∀ nova, py_atribuir (raizes t) (versao_atual t + 1) nova ≠ Some (raizes t'))
    as Hcheio.
  { intros nova H. apply py_atribuir_Some in H as [H _]; lia. }
  destruct c as [valor|valor| | | |]; try done; injection Hc as <-.
  - destruct (incluir_quadro t valor t' ltac:(lia) Hf)
      as [_ [(Hrz & Hva & Hn)|(_ & _ & nova & Hatr)]].
    + split; [done|]. split; [lia|done].
    + by destruct (Hcheio nova).
  - destruct (remover_quadro t valor t' ltac:(lia) Hf)
      as [_ [(Hrz & Hva & Hn)|(_ & _ & nova & Hatr)]].
    + split; [done|]. split; [lia|done].
    + by destruct (Hcheio nova).
Qed.

(** ** Mutations once the roots table is full *)

(** The subtree below an object of a represented tree. *)
Lemma rep_abaixo m v o a r :
  rep m v o a → NoDup (refs a) → r ∈ refs a →
  ∃ a', rep m v (Some r) a' ∧ NoDup (refs a').
Proof.
  revert o. induction a as [|c r0 k e IHe d IHd]; intros o Hrep Hnd Hin.
  - by apply elem_of_nil in Hin.
  - pose proof Hrep as (-> & oe & od & Hr & He & Hd). simpl in Hnd, Hin.
    destruct (nodup_nodo _ _ _ Hnd) as (Hnde & Hndd & _).
    apply elem_of_app in Hin as [Hin|Hin]; [by eapply IHe|].
    apply elem_of_cons in Hin as [->|Hin]; [|by eapply IHd].
    by exists (Nodo c r0 k e d).
Qed.

(** What a mutation can start from: at the version it writes, the root it
    reads is the root of a tree, or an object that is not active (the
    helpers stop at such an object without reading below it). *)
Definition raiz_pronta (m : Memoria) (v : Z) (o : option Ref) : Prop :=
  (∃ a, rep m v o a ∧ NoDup (refs a)) ∨
  (∃ r x, o = Some r ∧ vis m v r = Some x ∧ vs_ativo x = false).

(** The heap part of [incluir] returns from such a root, and leaves the
    root such a root again. *)
Lemma incluir_raiz_pronta m v o valor :
  raiz_pronta m v o →
  wp (_incluir_recursivo (S (length m)) o valor v) m (fun o1 m1 =>
    wp (pintar_raiz o1 v) m1 (fun _ m2 => raiz_pronta m2 v o)).
Proof.
  intros [(a & Hrep & Hnd)|(r & x & -> & Hx & Hat)].
  - assert (∀ r, r ∈ refs a → (r < length m)%nat) as Hlt
      by (intros r Hr; by eapply rep_lt).
    eapply wp_mono.
    { apply (rep_incluir_recursivo valor v (S (length m)) a m o Hrep Hnd).
      by eapply altura_combustivel. }
    intros o1 m1 (Hrep1 & Hlen1 & Hf1). simpl.
    assert (NoDup (refs (ins valor (length m) a))) as Hnd1.
    { apply NoDup_refs_ins; [done|]. intros Hin%Hlt. lia. }
    eapply wp_mono; [by apply rep_pintar_raiz|].
    intros [] m2 (Hrep2 & Hlen2 & Hf2). simpl. left.
    destruct o as [r|].
    + apply rep_Some in Hrep as [Hin _].
      apply (rep_abaixo m2 v o1 (pintar PRETO (ins valor (length m) a)) r);
        [done|by rewrite refs_pintar|].
      rewrite refs_pintar. by apply refs_ins_sub.
    + exists Folha. split; [done|apply NoDup_nil_2].
  - pose proof (vis_lt _ _ _ _ Hx) as Hlt.
    cbn [_incluir_recursivo]. do 2 wp_passo. rewrite Hat. cbn [negb].
    apply wp_bind, wp_novo_No. intros m1 Hl1 Hv1. apply wp_ret.
    cbn [pintar_raiz]. eapply wp_definir_cor.
    { rewrite Hv1, decide_True by done. reflexivity. }
    intros m2 Hl2 Hv2. right. exists r, x. split; [done|]. split; [|done].
    rewrite Hv2, decide_False by lia. rewrite Hv1, decide_False by lia. done.
Qed.

(** Removal keeps the root of the tree it reads, unless the key is the
    root's and the root has fewer than two children. *)
Lemma raiz_del c r k e d valor :
  (valor <? k) = true ∨ (k <? valor) = true ∨ (e ≠ Folha ∧ d ≠ Folha) →
  raiz_de (del valor (Nodo c r k e d)) = Some r.
Proof.
  intros H. destruct (valor <? k) eqn:E1; [cbn [del]; by rewrite E1|].
  destruct (k <? valor) eqn:E2; [cbn [del]; by rewrite E1, E2|].
  destruct H as [H|[H|[He Hd]]]; [done..|].
  destruct (del_casos c r k e d valor E1 E2)
    as [[? _]|[(_ & ? & _)|(_ & _ & sr & s & _ & ->)]]; done.
Qed.

Lemma raiz_descolorir a b : descolorir a = descolorir b → raiz_de a = raiz_de b.
Proof. destruct a, b; simpl; congruence. Qed.

(** The heap part of [remover] returns from such a root, and leaves the
    root such a root again: the root stays the root of the tree, or it is
    retired at the version that is written. *)
Lemma remover_raiz_pronta m v o valor :
  raiz_pronta m v o →
  wp (_remover_recursivo (S (length m)) o valor v) m (fun o1 m1 =>
    wp (pintar_raiz o1 v) m1 (fun _ m2 => raiz_pronta m2 v o)).
Proof.
  intros [(a & Hrep & Hnd)|(r & x & -> & Hx & Hat)].
  - destruct a as [|c r k e d].
    { simpl in Hrep. subst o. cbn [_remover_recursivo]. apply wp_ret.
      cbn [pintar_raiz]. apply wp_ret. left. exists Folha.
      split; [done|apply NoDup_nil_2]. }
    assert (((valor <? k) = true ∨ (k <? valor) = true ∨
             (e ≠ Folha ∧ d ≠ Folha)) ∨
            ((valor <? k) = false ∧ (k <? valor) = false ∧
             (e = Folha ∨ d = Folha))) as [Hfica|(E1 & E2 & Hsai)].
    { destruct (valor <? k); [left; by left|].
      destruct (k <? valor); [left; right; by left|].
      destruct e; [right; split; [done|]; split; [done|]; by left|].
      destruct d; [right; split; [done|]; split; [done|]; by right|].
      left. right. right. done. }
    + (* the root stays *)
      eapply wp_mono.
      { apply (rep_remover_recursivo v (S (length m)) _ valor m o Hrep Hnd).
        by eapply altura_combustivel. }
      intros o1 m1 (a1 & Hrep1 & Hd1 & Hlen1 & Hf1). simpl.
      assert (NoDup (refs a1)) as Hnd1.
      { rewrite (descolorir_refs _ _ Hd1). by apply NoDup_refs_del. }
      eapply wp_mono; [by apply rep_pintar_raiz|].
      intros [] m2 (Hrep2 & Hlen2 & Hf2). simpl. left.
      exists (pintar PRETO a1). rewrite refs_pintar. split; [|done].
      assert (o = o1) as ->; [|done].
      rewrite (rep_raiz _ _ _ _ Hrep), (rep_raiz _ _ _ _ Hrep1).
      rewrite (raiz_descolorir _ _ Hd1). symmetry. by apply raiz_del.
    + (* the root is retired *)
      destruct Hrep as (-> & oe & od & Hr & He & Hd). simpl in Hnd.
      destruct (nodup_nodo _ _ _ Hnd) as (Hnde & Hndd & Hne & Hnd' & Hed).
      cbn [_remover_recursivo]. do 2 wp_passo. cbn [negb]. do 2 wp_passo.
      rewrite E1, E2. unfold _remover_no. do 4 wp_passo.
      assert (∀ q a0 m1, rep m v (Some q) a0 → r ∉ refs a0 →
                length m1 = length m →
                (∀ r', vis m1 v r' =
                       if decide (r' = r)
                       then Some (inativa {| vs_valor := k; vs_ativo := true;
                                             vs_cor := c; vs_esq := oe;
                                             vs_dir := od |})
                       else vis m v r') →
                wp (pintar_raiz (Some q) v) m1 (fun _ m2 =>
                  raiz_pronta m2 v (Some r))) as Hfilho.
      { intros q a0 m1 Hq Hfora Hl1 Hv1.
        apply rep_Some in Hq as [Hin [y Hy]].
        assert (q ≠ r) as Hqr by (by intros ->).
        cbn [pintar_raiz]. eapply wp_definir_cor.
        { rewrite Hv1, decide_False by done. exact Hy. }
        intros m2 Hl2 Hv2. right. eexists r, _. split; [done|].
        split; [rewrite Hv2, decide_False by done;
                rewrite Hv1, decide_True by done; reflexivity|reflexivity]. }
      assert (∀ m1, length m1 = length m →
                (∀ r', vis m1 v r' =
                       if decide (r' = r)
                       then Some (inativa {| vs_valor := k; vs_ativo := true;
                                             vs_cor := c; vs_esq := oe;
                                             vs_dir := od |})
                       else vis m v r') →
                wp (pintar_raiz None v) m1 (fun _ m2 =>
                  raiz_pronta m2 v (Some r))) as Hnada.
      { intros m1 Hl1 Hv1. cbn [pintar_raiz]. apply wp_ret. right.
        eexists r, _. split; [done|].
        split; [rewrite Hv1, decide_True by done; reflexivity|reflexivity]. }
      destruct oe as [qe|].
      * destruct od as [qd|].
        { destruct Hsai as [->| ->]; [by simpl in He|by simpl in Hd]. }
        apply wp_bind. eapply wp_retirar; [exact Hr|]. intros m1 Hl1 Hv1.
        apply wp_ret. by eapply Hfilho.
      * apply wp_bind. eapply wp_retirar; [exact Hr|]. intros m1 Hl1 Hv1.
        apply wp_ret. destruct od as [qd|]; [by eapply Hfilho|by apply Hnada].
  - cbn [_remover_recursivo]. do 2 wp_passo. rewrite Hat. cbn [negb].
    apply wp_ret. cbn [pintar_raiz]. eapply wp_definir_cor; [exact Hx|].
    intros m2 Hl2 Hv2. right. eexists r, _. split; [done|].
    rewrite Hv2, decide_True by done. split; [reflexivity|]. exact Hat.
Qed.

(** A state whose next mutation has such a root to start from. *)
Definition pronta (t : Arvore) : Prop :=
  ∃ raiz, raizes t !! Z.to_nat (versao_atual t) = Some raiz ∧
          raiz_pronta (memoria t) (versao_atual t + 1) raiz.

Lemma Atual_pronta t a : Atual t a → pronta t.
Proof.
  intros [Hlen HV Hlim (raiz & Hraiz & Hrep) Hnd Habb].
  exists raiz. split; [done|]. left. exists a. split; [|done].
  apply (rep_posterior (versao_atual t)); [done|lia|done].
Qed.

(** With the table full, a mutation of such a state raises [IndexError]
    after its heap part, and leaves such a state. *)
Lemma mutacao_no_limite t c op :
  length (raizes t) = 100%nat → versao_atual t = 99 → pronta t →
  mutacao c = Some op →
  ∃ t', op t = Exc IndexError t' ∧ raizes t' = raizes t ∧
        versao_atual t' = 99 ∧ pronta t'.
Proof.
  intros Hlen H99 (raiz & Hraiz & Hpr) Hc.
  assert (∀ rec valor,
            wp (rec (S (length (memoria t))) raiz valor (versao_atual t + 1))
               (memoria t) (fun o1 m1 =>
                 wp (pintar_raiz o1 (versao_atual t + 1)) m1 (fun _ m2 =>
                   raiz_pronta m2 (versao_atual t + 1) raiz)) →
            ∃ t', mutar rec valor t = Exc IndexError t' ∧
                  raizes t' = raizes t ∧ versao_atual t' = 99 ∧ pronta t')
    as Hmut.
  { intros rec valor (o1 & m1 & Hrec & [] & m2 & Hpin & Hpr2).
    pose proof (mutar_resultado rec t valor raiz o1 m1 m2
                  Hlen ltac:(lia) Hraiz Hrec Hpin) as E.
    rewrite decide_False in E by lia.
    eexists. split; [exact E|]. cbn [memoria raizes versao_atual].
    split; [done|]. split; [done|]. by exists raiz. }
  destruct c as [valor|valor| | | |]; try done; injection Hc as <-.
  - rewrite incluir_mutar. by apply Hmut, incluir_raiz_pronta.
  - rewrite remover_mutar. by apply Hmut, remover_raiz_pronta.
Qed.

(** Every state reached from the empty tree, also after calls that raised,
    is such a state. *)
Lemma alcancavel_pronta t : alcancavel t → pronta t.
Proof.
  induction 1 as [|t valor t' Ht IH Hf|t valor t' Ht IH Hf].
  - apply (Atual_pronta _ Folha), Atual_vazia.
  - pose proof (alcancavel_Base _ Ht) as [Hlen HV _ _ _].
    destruct (decide (versao_atual t < 99)) as [Hcap|Hcap].
    + destruct (alcancavel_Atual t Ht Hcap) as [a Ha].
      destruct (incluir_abaixo t valor a Ha Hcap) as (t1 & E & _ & _ & Ha1).
      rewrite E in Hf. injection Hf as <-. by eapply Atual_pronta.
    + destruct (mutacao_no_limite t (INC valor) (incluir valor) Hlen
                  ltac:(lia) IH eq_refl) as (t1 & E & _ & _ & Hp).
      rewrite E in Hf. by injection Hf as <-.
  - pose proof (alcancavel_Base _ Ht) as [Hlen HV _ _ _].
    destruct (decide (versao_atual t < 99)) as [Hcap|Hcap].
    + destruct (alcancavel_Atual t Ht Hcap) as [a Ha].
      destruct (remover_abaixo t valor a Ha Hcap)
        as (t1 & a1 & E & _ & _ & _ & Ha1).
      rewrite E in Hf. injection Hf as <-. by eapply Atual_pronta.
    + destruct (mutacao_no_limite t (REM valor) (remover valor) Hlen
                  ltac:(lia) IH eq_refl) as (t1 & E & _ & _ & Hp).
      rewrite E in Hf. by injection Hf as <-.
Qed.

(** C10, as the code has it. In every state reached from the empty tree in
    which [versao_atual] is 99, whether the mutations before it returned or
    raised, a mutation raises [IndexError] at the write to [raizes[100]];
    the roots table and the version counter keep their values;
    [processar_operacao] catches the exception, prints a diagnostic for the
    line and returns no output for it; and the lines that follow are
    processed from the state the failed mutation left. *)
Theorem limite_de_versoes (t : Arvore) (c : Comando) (op : M Arvore unit) :
  alcancavel t → versao_atual t = 99 → mutacao c = Some op →
  ∃ t', op t = Exc IndexError t' ∧
        raizes t' = raizes t ∧ versao_atual t' = 99 ∧
        processar_operacao c t =
          Val {| linhas := None; console := [ErroAoProcessar (Some IndexError)] |} t' ∧
        ∀ cs, processar_linhas (c :: cs) t =
                match processar_linhas cs t' with
                | Val r t'' =>
                    Val (fst r, ErroAoProcessar (Some IndexError) :: snd r) t''
                | Exc e t'' => Exc e t''
                | Div => Div
                end.
Proof.
  intros Ht H99 Hc. pose proof (alcancavel_Base _ Ht) as [Hlen _ _ _ _].
  destruct (mutacao_no_limite t c op Hlen H99 (alcancavel_pronta t Ht) Hc)
    as (t' & Hop & Hrz & Hva & _).
  assert (processar_operacao c t =
            Val {| linhas := None; console := [ErroAoProcessar (Some IndexError)] |} t')
    as Hproc by (rewrite (processar_mutacao c op t Hc), Hop; done).
  exists t'. repeat split; try done.
  intros cs. cbn [processar_linhas]. unfold bind at 1. rewrite Hproc.
  unfold bind, ret. by destruct (processar_linhas cs t') as [[o d] t''|e t''|].
Qed.

(** Ninety-nine removals on the empty tree fill the roots table. *)
Definition exemplo_99 : Arvore := aplicar (replicate 99 (REM 0)) arvore_vazia.

Lemma exemplo_99_normal : alcancavel_normal exemplo_99.
Proof.
  apply (an_remover exemplo_98 0).
  - apply alcancavel_abaixo; [apply alcancavel_aplicar, alc_vazia|].
    vm_compute. reflexivity.
  - vm_compute. reflexivity.
Qed.

(** The state that a failed insertion leaves after them. *)
Definition exemplo_99_depois : Arvore := aplicar [INC 5] exemplo_99.

Lemma limite_de_versoes_witness :
  alcancavel exemplo_99_depois ∧ versao_atual exemplo_99_depois = 99 ∧
  mutacao (REM 5) = Some (remover 5) ∧
  ∃ t', remover 5 exemplo_99_depois = Exc IndexError t' ∧
        raizes t' = raizes exemplo_99_depois ∧ versao_atual t' = 99 ∧
        processar_operacao (REM 5) exemplo_99_depois =
          Val {| linhas := None; console := [ErroAoProcessar (Some IndexError)] |} t' ∧
        ∀ cs, processar_linhas (REM 5 :: cs) exemplo_99_depois =
                match processar_linhas cs t' with
                | Val r t'' =>
                    Val (fst r, ErroAoProcessar (Some IndexError) :: snd r) t''
                | Exc e t'' => Exc e t''
                | Div => Div
                end.
Proof.
  assert (alcancavel exemplo_99_depois) as Ha
    by (do 2 apply alcancavel_aplicar; apply alc_vazia).
  assert (versao_atual exemplo_99_depois = 99) as Hv by (vm_compute; reflexivity).
  split; [exact Ha|]. split; [exact Hv|]. split; [reflexivity|].
  exact (limite_de_versoes exemplo_99_depois (REM 5) (remover 5) Ha Hv eq_refl).
Defined.

(** C10 as stated fails: the mutation at the cap is not fatal.  After
    ninety-nine versions, [INC 5] is diagnosed on the console and the two
    queries after it are answered. *)
Lemma limite_nao_fatal :
  alcancavel exemplo_99 ∧ versao_atual exemplo_99 = 99 ∧
  ∃ t', processar_linhas [INC 5; IMP 99; SUC 1 99] exemplo_99 =
          Val (["IMP 99"; ""; "SUC 1 99"; "infinito"],
               [ErroAoProcessar (Some IndexError)]) t' ∧
        versao_atual t' = 99.
Proof.
  split; [apply alcancavel_aplicar, alc_vazia|].
  split; [vm_compute; reflexivity|].
  eexists. split; vm_compute; reflexivity.
Qed.

(** ** Version arguments of the queries *)

Lemma na_memoria_Val {A} (c : M Memoria A) (x : A) t :
  c (memoria t) = Val x (memoria t) → na_memoria c t = Val x t.
Proof. unfold na_memoria. intros ->. by destruct t. Qed.

(** A query at a version before any object was created sees no object. *)
Lemma laco_sucessor_inativo fuel r n k v m :
  m !! r = Some n → No.esta_ativo n v = false →
  _laco_sucessor (S fuel) (Some r) None k v m = Val None m.
Proof.
  intros Hn Ha. cbn [_laco_sucessor]. unfold bind, esta_ativo, bind, ler, ret.
  by rewrite Hn, Ha.
Qed.

Lemma percorrer_inativo fuel r n v p m :
  m !! r = Some n → No.esta_ativo n v = false →
  _percorrer_em_ordem (S fuel) (Some r) v p [] m = Val [] m.
Proof.
  intros Hn Ha. cbn [_percorrer_em_ordem]. unfold bind, esta_ativo, bind, ler, ret.
  by rewrite Hn, Ha.
Qed.

Lemma consulta_negativa t k v :
  Base t → -100 <= v < 0 →
  buscar_sucessor k (Some v) t = Val None t ∧
  entradas_arvore (Some v) t = Val [] t.
Proof.
  intros [Hlen HV Hcri Hval _] Hv.
  assert (∃ o, py_obter (raizes t) v = Some o) as (o & Ho).
  { unfold py_obter. rewrite py_indice_negativo by lia. simpl.
    apply lookup_lt_is_Some_2. lia. }
  assert (∀ r, o = Some r → ∃ n, memoria t !! r = Some n ∧ No.esta_ativo n v = false)
    as Hinat.
  { intros r ->. unfold py_obter in Ho. rewrite py_indice_negativo in Ho by lia.
    simpl in Ho. pose proof (Hval _ _ Ho) as Hr.
    destruct (lookup_lt_is_Some_2 _ _ Hr) as [n Hn]. exists n. split; [done|].
    specialize (Hcri _ _ Hn). unfold No.esta_ativo.
    apply andb_false_iff. left. apply Z.leb_gt. lia. }
  unfold buscar_sucessor, entradas_arvore, bind, ler_versao_atual, ler_raiz,
    combustivel.
  rewrite ajustar_versao_dentro by lia. rewrite Ho.
  destruct o as [r|].
  - destruct (Hinat r eq_refl) as (n & Hn & Ha). split.
    + apply na_memoria_Val. by eapply laco_sucessor_inativo.
    + apply na_memoria_Val. by eapply percorrer_inativo.
  - split; [|done]. by apply na_memoria_Val.
Qed.

Lemma consulta_fora t k v :
  length (raizes t) = 100%nat → v < -100 →
  buscar_sucessor k (Some v) t = Exc IndexError t ∧
  entradas_arvore (Some v) t = Exc IndexError t.
Proof.
  intros Hlen Hv.
  assert (0 <= versao_atual t ∨ versao_atual t < 0) as [HV|HV] by lia.
  - unfold buscar_sucessor, entradas_arvore, bind, ler_versao_atual, ler_raiz.
    rewrite ajustar_versao_dentro by lia.
    unfold py_obter. rewrite py_indice_fora by lia. done.
  - unfold buscar_sucessor, entradas_arvore, bind, ler_versao_atual, ler_raiz.
    unfold ajustar_versao. destruct (versao_atual t <? v) eqn:E.
    + apply Z.ltb_lt in E. unfold py_obter. rewrite py_indice_fora by lia. done.
    + unfold py_obter. rewrite py_indice_fora by lia. done.
Qed.

(** C8, as the code has it. On a state reached from the empty tree: a
    version above [versao_atual] is answered as [versao_atual] is; a version
    in [-100, -1] is answered too, through Python's negative indexing of the
    roots table, with no successor and an empty dump; a version below -100
    raises [IndexError], which [processar_operacao] reports on the console,
    returning no output for the line. *)
Theorem versao_na_fronteira (t : Arvore) (k v : Z) :
  alcancavel t →
  (versao_atual t < v →
     buscar_sucessor k (Some v) t = buscar_sucessor k (Some (versao_atual t)) t ∧
     imprimir_arvore (Some v) t = imprimir_arvore (Some (versao_atual t)) t) ∧
  (-100 <= v < 0 →
     buscar_sucessor k (Some v) t = Val None t ∧
     imprimir_arvore (Some v) t = Val [] t ∧
     processar_operacao (SUC k v) t =
       Val {| linhas := Some [eco_SUC k v; "infinito"]; console := [] |} t ∧
     processar_operacao (IMP v) t =
       Val {| linhas := Some [eco_IMP v; ""]; console := [] |} t) ∧
  (v < -100 →
     buscar_sucessor k (Some v) t = Exc IndexError t ∧
     imprimir_arvore (Some v) t = Exc IndexError t ∧
     processar_operacao (SUC k v) t =
       Val {| linhas := None; console := [ErroAoProcessar (Some IndexError)] |} t ∧
     processar_operacao (IMP v) t =
       Val {| linhas := None; console := [ErroAoProcessar (Some IndexError)] |} t).
Proof.
  intros Ht. pose proof (alcancavel_Base _ Ht) as HB. split; [|split].
  - intros Hv.
    unfold buscar_sucessor, imprimir_arvore, entradas_arvore, bind, ler_versao_atual.
    rewrite ajustar_versao_acima by done. rewrite ajustar_versao_dentro by lia. done.
  - intros Hv. destruct (consulta_negativa t k v HB Hv) as [Hs He].
    assert (imprimir_arvore (Some v) t = Val [] t) as Hi
      by (unfold imprimir_arvore, bind; rewrite He; done).
    repeat split; try done.
    + unfold processar_operacao, _processar_sucessor, bind, ret. by rewrite Hs.
    + unfold processar_operacao, _processar_impressao, bind, ret. by rewrite Hi.
  - intros Hv. destruct HB as [Hlen _ _ _ _].
    destruct (consulta_fora t k v Hlen Hv) as [Hs He].
    assert (imprimir_arvore (Some v) t = Exc IndexError t) as Hi
      by (unfold imprimir_arvore, bind; rewrite He; done).
    repeat split; try done.
    + unfold processar_operacao, _processar_sucessor, bind, ret. by rewrite Hs.
    + unfold processar_operacao, _processar_impressao, bind, ret. by rewrite Hi.
Qed.

Lemma versao_na_fronteira_witness :
  alcancavel exemplo_5 ∧ versao_atual exemplo_5 < 9 ∧ -100 <= -1 < 0 ∧ -101 < -100 ∧
  (buscar_sucessor 3 (Some 9) exemplo_5 =
     buscar_sucessor 3 (Some (versao_atual exemplo_5)) exemplo_5 ∧
   imprimir_arvore (Some 9) exemplo_5 =
     imprimir_arvore (Some (versao_atual exemplo_5)) exemplo_5) ∧
  (buscar_sucessor 3 (Some (-1)) exemplo_5 = Val None exemplo_5 ∧
   imprimir_arvore (Some (-1)) exemplo_5 = Val [] exemplo_5 ∧
   processar_operacao (SUC 3 (-1)) exemplo_5 =
     Val {| linhas := Some [eco_SUC 3 (-1); "infinito"]; console := [] |} exemplo_5 ∧
   processar_operacao (IMP (-1)) exemplo_5 =
     Val {| linhas := Some [eco_IMP (-1); ""]; console := [] |} exemplo_5) ∧
  (buscar_sucessor 3 (Some (-101)) exemplo_5 = Exc IndexError exemplo_5 ∧
   imprimir_arvore (Some (-101)) exemplo_5 = Exc IndexError exemplo_5 ∧
   processar_operacao (SUC 3 (-101)) exemplo_5 =
     Val {| linhas := None; console := [ErroAoProcessar (Some IndexError)] |}
       exemplo_5 ∧
   processar_operacao (IMP (-101)) exemplo_5 =
     Val {| linhas := None; console := [ErroAoProcessar (Some IndexError)] |}
       exemplo_5).
Proof.
  assert (alcancavel exemplo_5) as H by (apply alcancavel_aplicar, alc_vazia).
  assert (versao_atual exemplo_5 < 9) as H9 by (vm_compute; reflexivity).
  assert (-100 <= -1 < 0) as H1 by lia.
  assert (-101 < -100) as H101 by lia.
  split; [exact H|]. split; [exact H9|]. split; [exact H1|]. split; [exact H101|].
  split; [|split].
  - exact (proj1 (versao_na_fronteira exemplo_5 3 9 H) H9).
  - exact (proj1 (proj2 (versao_na_fronteira exemplo_5 3 (-1) H)) H1).
  - exact (proj2 (proj2 (versao_na_fronteira exemplo_5 3 (-101) H)) H101).
Defined.

(** C8 as stated fails for negative versions: after the five insertions,
    version -1 is answered, with no successor and an empty dump, and nothing
    is reported on the console. *)
Lemma versao_negativa_respondida :
  alcancavel exemplo_5 ∧
  buscar_sucessor 3 (Some (-1)) exemplo_5 = Val None exemplo_5 ∧
  imprimir_arvore (Some (-1)) exemplo_5 = Val [] exemplo_5 ∧
  processar_operacao (SUC 3 (-1)) exemplo_5 =
    Val {| linhas := Some ["SUC 3 -1"; "infinito"]; console := [] |} exemplo_5 ∧
  processar_operacao (IMP (-1)) exemplo_5 =
    Val {| linhas := Some ["IMP -1"; ""]; console := [] |} exemplo_5.
Proof.
  split; [apply alcancavel_aplicar, alc_vazia|].
  repeat split; vm_compute; reflexivity.
Qed.

(** ** Old versions after a removal *)

(** C1, evaluated on the demonstration of the claim. After the five
    insertions the dump of version 5 lists the keys 3, 5, 7, 10, 15; after
    [REM 5] the same query lists 3, 7, 7, 10, 15: the removed node had two
    children, and the key of its successor was written into the object
    itself, which every version shares. *)
Theorem versao_5_reescrita :
  saida_de (executar [INC 10; INC 5; INC 15; INC 3; INC 7; IMP 5; REM 5; IMP 5; IMP 6])
  = ["IMP 5"; "3,1,N 5,0,N 7,2,R 10,1,N 15,2,R";
     "IMP 5"; "3,1,N 7,0,N 7,2,R 10,1,N 15,2,R";
     "IMP 6"; "3,1,N 7,0,N 10,1,N 15,2,R"].
Proof. vm_compute. reflexivity. Qed.

(** C4, evaluated at a version rewritten by a later removal. After the
    insertions of 10, 5, 20, 15, 17 and the removals of 17 and 15, the dump
    of version 5 lists the key 17, and the successor of 15 at version 5 is
    answered 20. *)
Theorem sucessor_apos_remocao :
  saida_de (executar [INC 10; INC 5; INC 20; INC 15; INC 17; SUC 15 5;
                      REM 17; REM 15; IMP 5; SUC 15 5])
  = ["SUC 15 5"; "17";
     "IMP 5"; "5,2,R 10,1,N 20,0,N 17,2,R 20,1,N";
     "SUC 15 5"; "20"].
Proof. vm_compute. reflexivity. Qed.

(** ** The colours left by a rebalancing case *)

Inductive Caso := EE | ED | DE | DD.

(** The helper that [_balancear_apos_inclusao] calls in each case. *)
Definition executar_caso (c : Caso) : Ref -> Z -> M Memoria Ref :=
  match c with
  | EE => _balancear_caso_esquerda_esquerda
  | ED => _balancear_caso_esquerda_direita
  | DE => _balancear_caso_direita_esquerda
  | DD => _balancear_caso_direita_direita
  end.

(** The tests of [_balancear_apos_inclusao], read on the tree under the
    node: which case fires, if any. *)
Definition caso_direito (a : arv) : option Caso :=
  match a with
  | Nodo _ _ _ _ (Nodo VERMELHO _ _ de dd) =>
      if e_verm de then Some DE else if e_verm dd then Some DD else None
  | _ => None
  end.

Definition caso_disparado (a : arv) : option Caso :=
  match a with
  | Nodo _ _ _ (Nodo VERMELHO _ _ ee ed) _ =>
      if e_verm ee then Some EE else if e_verm ed then Some ED else caso_direito a
  | _ => caso_direito a
  end.

(** The colours, at version [v], of a node and of its two children. *)
Definition cores_triangulo (m : Memoria) (v : Z) (r : Ref) : option (Cor * Cor * Cor) :=
  n ← m !! r;
  e ← No.obter_filho_esquerdo n v;
  d ← No.obter_filho_direito n v;
  ne ← m !! e;
  nd ← m !! d;
  Some (No.obter_cor n v, No.obter_cor ne v, No.obter_cor nd v).

Lemma bind_passo {S A B} (c : M S A) (k : A -> M S B) s a s' :
  c s = Val a s' → bind c k s = k a s'.
Proof. unfold bind. by intros ->. Qed.

Section LeiturasDeFilhos.
Variables (m : Memoria) (v : Z) (r : Ref) (x : Visao).
Hypothesis Hx : vis m v r = Some x.

Lemma obter_filho_esquerdo_vis : obter_filho_esquerdo r v m = Val (vs_esq x) m.
Proof using Hx.
  apply vis_Some in Hx as (n & Hn & ->).
  unfold obter_filho_esquerdo, bind, ler, ret. by rewrite Hn.
Qed.

Lemma obter_filho_direito_vis : obter_filho_direito r v m = Val (vs_dir x) m.
Proof using Hx.
  apply vis_Some in Hx as (n & Hn & ->).
  unfold obter_filho_direito, bind, ler, ret. by rewrite Hn.
Qed.

Lemma obter_cor_vis : obter_cor r v m = Val (vs_cor x) m.
Proof using Hx.
  apply vis_Some in Hx as (n & Hn & ->).
  unfold obter_cor, bind, ler, ret. by rewrite Hn.
Qed.

End LeiturasDeFilhos.

Lemma e_vermelho_rep m v o a : rep m v o a → e_vermelho o v m = Val (e_verm a) m.
Proof.
  destruct a as [|c r k e d]; simpl.
  - by intros ->.
  - intros (-> & oe & od & Hr & _). simpl.
    rewrite (bind_passo _ _ _ _ _ (obter_cor_vis _ _ _ _ Hr)). simpl. by destruct c.
Qed.

Lemma cores_triangulo_rep m v r c k ce re ke ee ed cd rd kd de dd :
  rep m v (Some r) (Nodo c r k (Nodo ce re ke ee ed) (Nodo cd rd kd de dd)) →
  cores_triangulo m v r = Some (c, ce, cd).
Proof.
  intros (_ & oe & od & (n & Hn & E)%vis_Some &
          (-> & ? & ? & (ne & Hne & Ee)%vis_Some & _) &
          (-> & ? & ? & (nd & Hnd & Ed)%vis_Some & _)).
  unfold cores_triangulo. rewrite Hn. simpl.
  apply (f_equal vs_esq) in E as E1. apply (f_equal vs_dir) in E as E2.
  apply (f_equal vs_cor) in E as E3. apply (f_equal vs_cor) in Ee.
  apply (f_equal vs_cor) in Ed. simpl in *.
  rewrite <- E1, <- E2. simpl. rewrite Hne, Hnd. simpl. congruence.
Qed.

Ltac ler_passo :=
  first
    [ erewrite bind_passo by (apply obter_filho_esquerdo_vis; eassumption)
    | erewrite bind_passo by (apply obter_filho_direito_vis; eassumption)
    | erewrite bind_passo by (apply e_vermelho_rep; eassumption) ];
  cbn [vs_esq vs_dir].

Ltac ret_passo :=
  cbn [e_verm objeto];
  match goal with
  | |- context [bind (ret ?y) ?k ?s] =>
      change (bind (ret y) k s) with (k y s); cbn beta
  end.

(** On a represented tree, [_balancear_apos_inclusao] calls the helper of
    the case that [caso_disparado] names. *)
Lemma lado_direito_despacha m v no a c :
  rep m v (Some no) a → caso_direito a = Some c →
  _balancear_lado_direito no v m = executar_caso c no v m.
Proof.
  destruct a as [|c0 r k e d]; [done|].
  intros Hrep Hc. pose proof Hrep as ([= <-] & oe & od & Hno & He & Hd).
  cbn [caso_direito] in Hc.
  destruct d as [|[] fd xd de dd]; try done.
  pose proof Hd as (-> & ode & odd & Hfd & Hde & Hdd).
  unfold _balancear_lado_direito. do 2 ler_passo. ret_passo.
  do 3 ler_passo.
  destruct (e_verm de); [by injection Hc as <-|].
  ler_passo. destruct (e_verm dd); [by injection Hc as <-|done].
Qed.

Lemma balancear_despacha m v no a c :
  rep m v (Some no) a → caso_disparado a = Some c →
  _balancear_apos_inclusao no v m = executar_caso c no v m.
Proof.
  destruct a as [|c0 r k e d]; [done|].
  intros Hrep Hc. pose proof Hrep as ([= <-] & oe & od & Hno & He & Hd).
  cbn [caso_disparado] in Hc. unfold _balancear_apos_inclusao. do 2 ler_passo.
  destruct e as [|[] fe xe ee ed]; cbn [e_verm].
  - by eapply lado_direito_despacha.
  - pose proof He as (-> & oee & oed & Hfe & Hee & Hed).
    ret_passo. do 3 ler_passo.
    destruct (e_verm ee); [by injection Hc as <-|].
    ler_passo. destruct (e_verm ed); [by injection Hc as <-|].
    by eapply lado_direito_despacha.
  - by eapply lado_direito_despacha.
Qed.

Lemma caso_direito_balancear a c :
  caso_direito a = Some c →
  ∃ cr r k ce re ke ee ed cd rd kd de dd,
    lado_direito a =
      Nodo cr r k (Nodo ce re ke ee ed) (Nodo cd rd kd de dd) ∧
    (cr, ce, cd) = (VERMELHO, PRETO, PRETO).
Proof.
  destruct a as [|c0 r k e d]; [done|]. cbn [caso_direito lado_direito].
  destruct d as [|[] fd xd de dd]; try done.
  destruct (e_verm de) eqn:Ede.
  - intros _. apply e_verm_Nodo in Ede as (r1 & k1 & e1 & d1 & ->).
    cbn [rot_DE]. by eexists _, _, _, _, _, _, _, _, _, _, _, _, _.
  - destruct (e_verm dd) eqn:Edd; [|done].
    intros _. apply e_verm_Nodo in Edd as (r1 & k1 & e1 & d1 & ->).
    cbn [rot_DD pintar]. by eexists _, _, _, _, _, _, _, _, _, _, _, _, _.
Qed.

Lemma caso_disparado_balancear a c :
  caso_disparado a = Some c →
  ∃ cr r k ce re ke ee ed cd rd kd de dd,
    balancear a =
      Nodo cr r k (Nodo ce re ke ee ed) (Nodo cd rd kd de dd) ∧
    (cr, ce, cd) = (VERMELHO, PRETO, PRETO).
Proof.
  destruct a as [|c0 r k e d]; [done|]. unfold balancear. cbn [caso_disparado].
  destruct e as [|[] fe xe ee ed]; try apply caso_direito_balancear.
  destruct (e_verm ee) eqn:Eee.
  - intros _. apply e_verm_Nodo in Eee as (r1 & k1 & e1 & d1 & ->).
    cbn [rot_EE pintar]. by eexists _, _, _, _, _, _, _, _, _, _, _, _, _.
  - destruct (e_verm ed) eqn:Eed; [|apply caso_direito_balancear].
    intros _. apply e_verm_Nodo in Eed as (r1 & k1 & e1 & d1 & ->).
    cbn [rot_ED]. by eexists _, _, _, _, _, _, _, _, _, _, _, _, _.
Qed.

(** C3, as the code has it. Whenever one of the four cases fires in
    [_balancear_apos_inclusao], on a node whose subtree has no repeated
    object, the helper of the case returns, and at that version the node it
    returns is RED and both children of that node are BLACK. *)
Theorem cores_apos_caso (m : Memoria) (v : Z) (no : Ref) (a : arv) (c : Caso) :
  rep m v (Some no) a → NoDup (refs a) → caso_disparado a = Some c →
  ∃ r m', _balancear_apos_inclusao no v m = Val r m' ∧
          executar_caso c no v m = Val r m' ∧
          cores_triangulo m' v r = Some (VERMELHO, PRETO, PRETO).
Proof.
  intros Hrep Hnd Hc.
  destruct a as [|c0 r0 k e d]; [done|]. pose proof Hrep as (Hno & _).
  injection Hno as <-.
  destruct (rep_balancear m v c0 no k e d Hrep Hnd) as (r & m' & Hb & Hrep' & _).
  destruct (caso_disparado_balancear _ _ Hc)
    as (cr & r1 & k1 & ce & re & ke & ee & ed & cd & rd & kd & de & dd & Hbal & Hcores).
  rewrite Hbal in Hrep'. pose proof Hrep' as (Hr & _). injection Hr as ->.
  exists r1, m'. split; [done|]. split.
  - by rewrite <- (balancear_despacha m v no _ c Hrep Hc).
  - rewrite (cores_triangulo_rep _ _ _ _ _ _ _ _ _ _ _ _ _ _ _ Hrep'). by f_equal.
Qed.

(** Six insertions; the seventh, of key 2, reaches the node of key 3 with a
    red child (key 1) that has a red right child (the new node). *)
Definition exemplo_6_inclusoes : Arvore :=
  aplicar [INC 10; INC 5; INC 15; INC 3; INC 7; INC 1] arvore_vazia.

(** The heap in the middle of [incluir 2], when [_incluir_recursivo] at the
    node of key 3 (object 3) is about to call [_balancear_apos_inclusao]. *)
Definition antes_do_caso : Memoria :=
  match (fe <~ _incluir_recursivo 7 (Some 5%nat) 2 7 ;;
         definir_filho_esquerdo 3 fe 7 ;;;
         definir_pai_se fe 3 7) (memoria exemplo_6_inclusoes) with
  | Val _ m => m
  | _ => []
  end.

Definition triangulo_3 : arv :=
  Nodo PRETO 3 3 (Nodo VERMELHO 5 1 Folha (Nodo VERMELHO 6 2 Folha Folha)) Folha.

Lemma cores_apos_caso_witness :
  rep antes_do_caso 7 (Some 3%nat) triangulo_3 ∧ NoDup (refs triangulo_3) ∧
  caso_disparado triangulo_3 = Some ED ∧
  ∃ r m', _balancear_apos_inclusao 3 7 antes_do_caso = Val r m' ∧
          executar_caso ED 3 7 antes_do_caso = Val r m' ∧
          cores_triangulo m' 7 r = Some (VERMELHO, PRETO, PRETO).
Proof.
  assert (rep antes_do_caso 7 (Some 3%nat) triangulo_3) as Hrep.
  { unfold triangulo_3. cbn [rep]. split; [reflexivity|].
    exists (Some 5%nat), None. split; [vm_compute; reflexivity|].
    split; [|reflexivity]. split; [reflexivity|].
    exists None, (Some 6%nat). split; [vm_compute; reflexivity|].
    split; [reflexivity|]. split; [reflexivity|].
    exists None, None. split; [vm_compute; reflexivity|]. split; reflexivity. }
  assert (NoDup (refs triangulo_3)) as Hnd.
  { unfold triangulo_3. cbn [refs app]. repeat (apply NoDup_cons; split).
    - intros Hin. repeat (apply elem_of_cons in Hin as [Hin|Hin]; [discriminate Hin|]).
      by apply elem_of_nil in Hin.
    - intros Hin. repeat (apply elem_of_cons in Hin as [Hin|Hin]; [discriminate Hin|]).
      by apply elem_of_nil in Hin.
    - apply not_elem_of_nil.
    - apply NoDup_nil_2. }
  split; [exact Hrep|]. split; [exact Hnd|]. split; [reflexivity|].
  exact (cores_apos_caso antes_do_caso 7 3 triangulo_3 ED Hrep Hnd eq_refl).
Defined.

(** C3 as stated fails: when the left-right case fires at the node of key 3
    during [INC 2], the node returned (key 2) is RED and its children (keys
    1 and 3) are BLACK, and the dump of the new version shows them so. *)
Lemma triangulo_vermelho_preto_preto :
  (∃ r m', _balancear_apos_inclusao 3 7 antes_do_caso = Val r m' ∧
           _balancear_caso_esquerda_direita 3 7 antes_do_caso = Val r m' ∧
           cores_triangulo m' 7 r = Some (VERMELHO, PRETO, PRETO)) ∧
  saida_de (executar [INC 10; INC 5; INC 15; INC 3; INC 7; INC 1; INC 2; IMP 7])
  = ["IMP 7"; "1,2,N 2,1,R 3,2,N 5,0,N 7,2,R 10,1,N 15,2,R"].
Proof.
  split; [|vm_compute; reflexivity].
  eexists _, _. split; [vm_compute; reflexivity|].
  split; vm_compute; reflexivity.
Qed.

(** ** Mutations that change no key *)

(** *** A removal that finds no node leaves keys and removal marks alone *)

Section LeiturasVivas.
Variables (m : Memoria) (v : Z) (r : Ref) (x : Visao).
Hypothesis Hx : vis m v r = Some x.

Lemma esta_ativo_vis : esta_ativo r v m = Val (vs_ativo x) m.
Proof using Hx.
  apply vis_Some in Hx as (n & Hn & ->).
  unfold esta_ativo, bind, ler, ret. by rewrite Hn.
Qed.

Lemma obter_valor_vis : obter_valor r m = Val (vs_valor x) m.
Proof using Hx.
  apply vis_Some in Hx as (n & Hn & ->).
  unfold obter_valor, bind, ler, ret. by rewrite Hn.
Qed.

End LeiturasVivas.

Section RemocaoAusente.
Variable V' : Z.
Hypothesis V'_nao_zero : V' ≠ 0.

Local Abbreviation Q := (quadro V' (Rt V')).

Lemma pos_respeita {A} (c : M Memoria A) m0 m1 :
  respeita V' (Rt V') c → Q m0 m1 → pos c (Q m0) m1.
Proof.
  intros Hc H01 s' Hs'. eapply quadro_trans; [apply _|done|]. by apply (Hc m1).
Qed.

Lemma pos_leitura {A B} (c : M Memoria A) (k : A -> M Memoria B) m a :
  c m = Val a m → pos (k a) (Q m) m → pos (bind c k) (Q m) m.
Proof. intros Hc Hk s'. unfold bind. rewrite Hc. apply Hk. Qed.

Lemma remover_ausente_quadro fuel : ∀ a m o valor,
  rep m V' o a → abb a → (valor ∉ chaves a) →
  pos (_remover_recursivo fuel o valor V') (Q m) m.
Proof using V'_nao_zero.
  induction fuel as [|fuel IH]; intros a m o valor Hrep Habb Hk.
  { apply pos_divergir. }
  destruct a as [|c no k e d].
  - simpl in Hrep. subst o. apply pos_ret, quadro_refl, _.
  - pose proof Hrep as (-> & oe & od & Hno & He & Hd).
    apply abb_Nodo in Habb as (Hae & Had & _ & _).
    cbn [chaves] in Hk. rewrite elem_of_app, elem_of_cons in Hk.
    cbn [_remover_recursivo].
    eapply pos_leitura; [by eapply esta_ativo_vis|]. cbn [vs_ativo negb].
    eapply pos_leitura; [by eapply obter_valor_vis|]. cbn [vs_valor].
    destruct (valor <? k) eqn:E1; [|destruct (k <? valor) eqn:E2].
    + eapply pos_leitura; [by eapply obter_filho_esquerdo_vis|]. cbn [vs_esq].
      apply pos_quadro_bind; [apply _|apply quadro_refl, _| |].
      * eapply IH; [done|done|tauto].
      * intros fe m1 _ H1. apply pos_respeita; [|done].
        apply respeita_bind; [apply _| |intros _].
        { apply resp_definir_filho_esquerdo; [done|apply _..]. }
        apply respeita_bind; [apply _| |intros _].
        { apply resp_definir_pai_se; [done|apply _..]. }
        apply resp_balancear_apos_remocao; [done|apply _..].
    + eapply pos_leitura; [by eapply obter_filho_direito_vis|]. cbn [vs_dir].
      apply pos_quadro_bind; [apply _|apply quadro_refl, _| |].
      * eapply IH; [done|done|tauto].
      * intros fd m1 _ H1. apply pos_respeita; [|done].
        apply respeita_bind; [apply _| |intros _].
        { apply resp_definir_filho_direito; [done|apply _..]. }
        apply respeita_bind; [apply _| |intros _].
        { apply resp_definir_pai_se; [done|apply _..]. }
        apply resp_balancear_apos_remocao; [done|apply _..].
    + apply Z.ltb_ge in E1, E2. assert (valor = k) by lia. tauto.
Qed.

End RemocaoAusente.

(** *** Queries on two heaps that agree at a version *)

(** The outcome of a call, without the state it leaves. *)
Definition resultado {S A} (r : Res S A) : option (A + Excecao) :=
  match r with
  | Val a _ => Some (inl a)
  | Exc e _ => Some (inr e)
  | Div => None
  end.

Section Consultas.
Variables (m m' : Memoria) (v : Z).
Hypothesis Hvis : ∀ r, vis m' v r = vis m v r.

(** [c] reads both heaps alike, and writes neither. *)
Definition mesma {A} (c : M Memoria A) : Prop :=
  match c m, c m' with
  | Val a s, Val a' s' => a = a' ∧ s = m ∧ s' = m'
  | Exc e s, Exc e' s' => e = e' ∧ s = m ∧ s' = m'
  | Div, Div => True
  | _, _ => False
  end.

Lemma mesma_ret {A} (a : A) : mesma (ret a).
Proof. by unfold mesma, ret. Qed.

Lemma mesma_bind {A B} (c : M Memoria A) (k : A -> M Memoria B) :
  mesma c → (∀ a, mesma (k a)) → mesma (bind c k).
Proof.
  unfold mesma, bind. intros Hc Hk.
  destruct (c m) as [a s|e s|], (c m') as [a' s'|e' s'|]; try done.
  destruct Hc as (<- & -> & ->). apply Hk.
Qed.

Lemma mesma_leitura {A} (f : No.t -> A) (g : Visao -> A) r :
  (∀ n, f n = g (visao_de v n)) → mesma (n <~ ler r ;; ret (f n)).
Proof using Hvis.
  intros Hfg. unfold mesma, bind, ler, ret. specialize (Hvis r). unfold vis in Hvis.
  destruct (m !! r) as [n|], (m' !! r) as [n'|]; try done.
  simpl in Hvis. apply (inj Some) in Hvis. by rewrite !Hfg, Hvis.
Qed.

Lemma mesma_esta_ativo r : mesma (esta_ativo r v).
Proof using Hvis. by apply (mesma_leitura _ vs_ativo). Qed.

Lemma mesma_obter_valor r : mesma (obter_valor r).
Proof using Hvis. by apply (mesma_leitura _ vs_valor). Qed.

Lemma mesma_obter_cor r : mesma (obter_cor r v).
Proof using Hvis. by apply (mesma_leitura _ vs_cor). Qed.

Lemma mesma_obter_filho_esquerdo r : mesma (obter_filho_esquerdo r v).
Proof using Hvis. by apply (mesma_leitura _ vs_esq). Qed.

Lemma mesma_obter_filho_direito r : mesma (obter_filho_direito r v).
Proof using Hvis. by apply (mesma_leitura _ vs_dir). Qed.

Lemma mesma_laco_sucessor fuel : ∀ atual suc valor,
  mesma (_laco_sucessor fuel atual suc valor v).
Proof using Hvis.
  induction fuel as [|fuel IH]; intros atual suc valor; [done|].
  destruct atual as [a|]; cbn [_laco_sucessor]; [|apply mesma_ret].
  apply mesma_bind; [apply mesma_esta_ativo|]. intros [|]; [|apply mesma_ret].
  apply mesma_bind; [apply mesma_obter_valor|]. intros a_valor.
  destruct (valor <? a_valor).
  - apply mesma_bind; [apply mesma_obter_filho_esquerdo|]. intros fe. apply IH.
  - apply mesma_bind; [apply mesma_obter_filho_direito|]. intros fd. apply IH.
Qed.

Lemma mesma_percorrer_em_ordem fuel : ∀ no p res,
  mesma (_percorrer_em_ordem fuel no v p res).
Proof using Hvis.
  induction fuel as [|fuel IH]; intros no p res; [done|].
  destruct no as [n|]; cbn [_percorrer_em_ordem]; [|apply mesma_ret].
  apply mesma_bind; [apply mesma_esta_ativo|]. intros [|]; [|apply mesma_ret].
  cbn [negb].
  apply mesma_bind; [apply mesma_obter_filho_esquerdo|]. intros fe.
  apply mesma_bind; [destruct fe; [apply IH|apply mesma_ret]|]. intros res1.
  apply mesma_bind; [apply mesma_obter_cor|]. intros cor.
  apply mesma_bind; [apply mesma_obter_valor|]. intros no_valor.
  apply mesma_bind; [apply mesma_obter_filho_direito|]. intros fd.
  destruct fd; [apply IH|apply mesma_ret].
Qed.

Lemma resultado_na_memoria {A} (c : M Memoria A) t t' :
  memoria t = m → memoria t' = m' → mesma c →
  resultado (na_memoria c t') = resultado (na_memoria c t).
Proof.
  intros Hm Hm'. unfold mesma, na_memoria. rewrite Hm, Hm'.
  destruct (c m) as [a s|e s|], (c m') as [a' s'|e' s'|];
    try done; by intros (-> & _).
Qed.

End Consultas.

Lemma vis_versao_anterior V v m m' :
  quadro (V + 1) (Rt (V + 1)) m m' → length m' = length m → v <= V →
  ∀ r, vis m' v r = vis m v r.
Proof.
  intros Hq Hlen Hv r. destruct (decide (r < length m)%nat) as [Hr|Hr].
  - eapply vis_quadro_Rt; [done|lia|done].
  - unfold vis. rewrite !lookup_ge_None_2 by lia. done.
Qed.

(** Every query at a version up to [V] has the same outcome on [t'] as on
    [t]. *)
Definition mesmas_consultas (V : Z) (t t' : Arvore) : Prop :=
  ∀ k v, 0 <= v <= V →
    resultado (buscar_sucessor k (Some v) t') =
      resultado (buscar_sucessor k (Some v) t) ∧
    resultado (imprimir_arvore (Some v) t') =
      resultado (imprimir_arvore (Some v) t).

Lemma resultado_bind_ret {S A B} (c : M S A) (f : A -> B) s s' :
  resultado (c s') = resultado (c s) →
  resultado ((x <~ c ;; ret (f x)) s') = resultado ((x <~ c ;; ret (f x)) s).
Proof.
  unfold bind, ret. destruct (c s) as [a s1|e s1|], (c s') as [a' s1'|e' s1'|];
    simpl; try done; by intros [= ->].
Qed.

Lemma consultas_preservadas t t' o :
  0 <= versao_atual t < 99 → length (raizes t) = 100%nat →
  versao_atual t' = versao_atual t + 1 →
  raizes t' = <[Z.to_nat (versao_atual t + 1) := o]> (raizes t) →
  length (memoria t') = length (memoria t) →
  quadro (versao_atual t + 1) (Rt (versao_atual t + 1)) (memoria t) (memoria t') →
  mesmas_consultas (versao_atual t) t t'.
Proof.
  intros HV Hlen Hva Hrz Hmem Hq k v Hv.
  pose proof (vis_versao_anterior _ v _ _ Hq Hmem ltac:(lia)) as Hvis.
  assert (py_obter (raizes t') v = py_obter (raizes t) v) as Hraiz.
  { rewrite !py_obter_dentro by (rewrite ?Hrz, ?length_insert; lia).
    rewrite Hrz. apply list_lookup_insert_ne. lia. }
  split.
  - unfold buscar_sucessor, bind, ler_versao_atual, ler_raiz, combustivel.
    rewrite Hva, !ajustar_versao_dentro by lia. rewrite Hraiz.
    destruct (py_obter (raizes t) v) as [raiz|]; [|done].
    cbn beta iota. rewrite Hmem.
    eapply resultado_na_memoria; [done..|]. by apply mesma_laco_sucessor.
  - unfold imprimir_arvore. apply resultado_bind_ret.
    unfold entradas_arvore, bind, ler_versao_atual, ler_raiz, combustivel.
    rewrite Hva, !ajustar_versao_dentro by lia. rewrite Hraiz.
    destruct (py_obter (raizes t) v) as [[raiz|]|]; [|done..].
    cbn beta iota. rewrite Hmem.
    eapply resultado_na_memoria; [done..|]. by apply mesma_percorrer_em_ordem.
Qed.

Lemma remover_ausente_Rt t valor a t' :
  Atual t a → versao_atual t < 99 → (valor ∉ chaves a) →
  remover valor t = Val tt t' →
  quadro (versao_atual t + 1) (Rt (versao_atual t + 1)) (memoria t) (memoria t').
Proof.
  intros [Hlen HV Hlim (raiz & Hraiz & Hrep) Hnd Habb] Hcap Hk Hrem.
  destruct (remover_nucleo t valor raiz a ltac:(lia) Hlim Hrep Hnd)
    as (o1 & m1 & m2 & a' & Hrec & Hpin & _).
  pose proof (mutar_resultado _remover_recursivo t valor raiz o1 m1 m2
                Hlen HV Hraiz Hrec Hpin) as Hmut.
  rewrite <- remover_mutar, decide_True in Hmut by done.
  rewrite Hmut in Hrem. injection Hrem as <-. cbn [memoria].
  assert (versao_atual t + 1 ≠ 0) as HV' by lia.
  apply (rep_posterior _ (versao_atual t + 1)) in Hrep; [|done|lia].
  eapply quadro_trans; [apply _| |].
  - apply (remover_ausente_quadro _ HV' (S (length (memoria t))) a (memoria t)
             raiz valor Hrep Habb Hk m1). by rewrite Hrec.
  - apply (resp_pintar_raiz (versao_atual t + 1) HV' (Rt (versao_atual t + 1))
             o1 m1 m2). by rewrite Hpin.
Qed.

(** C2, as the code has it. On a state reached from the empty tree below
    the cap, [incluir] of a key that is alive, and [remover] of a key that
    is not, return and produce a new version: [versao_atual] grows by one,
    the keys alive at the new version are the keys alive before, and every
    query at a version up to the previous [versao_atual] has the outcome it
    had before. *)
Theorem mutacao_sem_efeito (t : Arvore) (valor : Z) (ks : list Z) :
  alcancavel t → versao_atual t < 99 → chaves_vivas t = Some ks →
  (valor ∈ ks →
     ∃ t', incluir valor t = Val tt t' ∧
           versao_atual t' = versao_atual t + 1 ∧
           chaves_vivas t' = Some ks ∧
           mesmas_consultas (versao_atual t) t t') ∧
  (valor ∉ ks →
     ∃ t', remover valor t = Val tt t' ∧
           versao_atual t' = versao_atual t + 1 ∧
           chaves_vivas t' = Some ks ∧
           mesmas_consultas (versao_atual t) t t').
Proof.
  intros Ht Hcap Hks.
  destruct (alcancavel_Atual t Ht Hcap) as [a Ha].
  rewrite (chaves_vivas_Atual t a Ha) in Hks. injection Hks as <-.
  pose proof Ha as [Hlen HV _ _ _ Habb]. split.
  - intros Hin.
    destruct (incluir_abaixo t valor a Ha Hcap) as (t' & E & Hv & Hmem & Ha').
    exists t'. split; [done|]. split; [done|]. split.
    { rewrite (chaves_vivas_Atual t' _ Ha'), chaves_pintar.
      by rewrite chaves_ins_presente. }
    rewrite (proj2 (busca_chaves valor a Habb) Hin) in Hmem.
    destruct (incluir_quadro t valor t' ltac:(lia) (f_equal estado_final E))
      as [Hq [(_ & _ & Hn)|(_ & _ & nova & Hatr)]]; [by destruct (Hn tt)|].
    apply py_atribuir_Some in Hatr as [_ Hrz]; [|lia].
    eapply consultas_preservadas; [lia|done..].
  - intros Hout.
    destruct (remover_abaixo t valor a Ha Hcap)
      as (t' & a' & E & Hv & Hmem & Hd & Ha').
    exists t'. split; [done|]. split; [done|]. split.
    { rewrite (chaves_vivas_Atual t' _ Ha'), (descolorir_chaves _ _ Hd).
      by rewrite chaves_del_ausente. }
    destruct (remover_quadro t valor t' ltac:(lia) (f_equal estado_final E))
      as [_ [(_ & _ & Hn)|(_ & _ & nova & Hatr)]]; [by destruct (Hn tt)|].
    apply py_atribuir_Some in Hatr as [_ Hrz]; [|lia].
    eapply consultas_preservadas; [lia|done..|].
    by eapply remover_ausente_Rt.
Qed.

Lemma mutacao_sem_efeito_witness :
  alcancavel exemplo_5 ∧ versao_atual exemplo_5 < 99 ∧
  chaves_vivas exemplo_5 = Some [3; 5; 7; 10; 15] ∧
  (∃ t', incluir 7 exemplo_5 = Val tt t' ∧
         versao_atual t' = versao_atual exemplo_5 + 1 ∧
         chaves_vivas t' = Some [3; 5; 7; 10; 15] ∧
         mesmas_consultas (versao_atual exemplo_5) exemplo_5 t') ∧
  (∃ t', remover 8 exemplo_5 = Val tt t' ∧
         versao_atual t' = versao_atual exemplo_5 + 1 ∧
         chaves_vivas t' = Some [3; 5; 7; 10; 15] ∧
         mesmas_consultas (versao_atual exemplo_5) exemplo_5 t').
Proof.
  assert (alcancavel exemplo_5) as H by (apply alcancavel_aplicar, alc_vazia).
  assert (versao_atual exemplo_5 < 99) as Hv by (vm_compute; reflexivity).
  assert (chaves_vivas exemplo_5 = Some [3; 5; 7; 10; 15]) as Hks
    by (vm_compute; reflexivity).
  assert (7 ∈ [3; 5; 7; 10; 15]) as H7 by (do 2 right; left).
  assert (8 ∉ [3; 5; 7; 10; 15]) as H8.
  { intros Hin. repeat (apply elem_of_cons in Hin as [Hin|Hin]; [discriminate Hin|]).
    by apply elem_of_nil in Hin. }
  split; [exact H|]. split; [exact Hv|]. split; [exact Hks|]. split.
  - exact (proj1 (mutacao_sem_efeito exemplo_5 7 _ H Hv Hks) H7).
  - exact (proj2 (mutacao_sem_efeito exemplo_5 8 _ H Hv Hks) H8).
Defined.

(** One insertion of key 1. *)
Definition exemplo_1 : Arvore := aplicar [INC 1] arvore_vazia.

(** C2 as stated fails: inserting key 1 again, and removing a key from the
    empty tree, each produce a new version. *)
Lemma mutacao_sem_efeito_cria_versao :
  (chaves_vivas exemplo_1 = Some [1] ∧ versao_atual exemplo_1 = 1 ∧
   ∃ t', incluir 1 exemplo_1 = Val tt t' ∧ versao_atual t' = 2) ∧
  (chaves_vivas arvore_vazia = Some [] ∧ versao_atual arvore_vazia = 0 ∧
   ∃ t', remover 1 arvore_vazia = Val tt t' ∧ versao_atual t' = 1).
Proof.
  split.
  - split; [vm_compute; reflexivity|]. split; [vm_compute; reflexivity|].
    eexists. split; vm_compute; reflexivity.
  - split; [vm_compute; reflexivity|]. split; [vm_compute; reflexivity|].
    eexists. split; vm_compute; reflexivity.
Qed.

(** * Further properties of the code *)

(** ** no.py: histories *)

(** X1. [_obter_versao_valida] answers the greatest version recorded in the
    history that is not above the version asked for; when the history
    records nothing at or below it, the answer is 0. *)
Theorem versao_valida_maxima {A} (h : gmap Z A) (v : Z) :
  (is_Some (h !! No._obter_versao_valida v h) ∧
   No._obter_versao_valida v h <= v ∧
   ∀ x, is_Some (h !! x) → x <= v → x <= No._obter_versao_valida v h) ∨
  (No._obter_versao_valida v h = 0 ∧ ∀ x, is_Some (h !! x) → v < x).
Proof.
  destruct (versao_valida_casos h v) as [[Hno E]|(m & E & Hs & Hl & Hmax)].
  - right. done.
  - left. rewrite E. done.
Qed.

(** X2. A colour written at version [v] is the colour read at [v] and at
    every later version up to the next recorded one; when [v] is not 0,
    reads at earlier versions are not affected. *)
Theorem cor_escrita_e_lida (n : No.t) (c : Cor) (v u : Z) :
  (v <= u → (∀ x, is_Some (No.historico_cores n !! x) → x <= u → x <= v) →
     No.obter_cor (No.definir_cor n c v) u = c) ∧
  (u < v → v ≠ 0 →
     No.obter_cor (No.definir_cor n c v) u = No.obter_cor n u).
Proof.
  split.
  - intros Hu Hmax. unfold No.obter_cor, No.definir_cor. cbn [No.historico_cores].
    rewrite (versao_valida_max _ u v).
    + by rewrite lookup_insert_eq.
    + rewrite lookup_insert_eq. by eexists.
    + done.
    + intros x Hx Hxu. apply lookup_insert_is_Some in Hx as [->|[_ Hx]]; [lia|auto].
  - intros Hu Hv. rewrite !obter_cor_consultar. cbn [No.definir_cor No.historico_cores].
    by apply consultar_insert_lt.
Qed.

Lemma cor_escrita_e_lida_witness :
  5 <= 7 ∧
  (∀ x, is_Some (No.historico_cores (No.init 10 VERMELHO 3) !! x) → x <= 7 → x <= 5) ∧
  No.obter_cor (No.definir_cor (No.init 10 VERMELHO 3) PRETO 5) 7 = PRETO ∧
  4 < 5 ∧ 5 ≠ 0 ∧
  No.obter_cor (No.definir_cor (No.init 10 VERMELHO 3) PRETO 5) 4 =
    No.obter_cor (No.init 10 VERMELHO 3) 4.
Proof.
  assert (5 <= 7) as H1 by lia.
  assert (∀ x, is_Some (No.historico_cores (No.init 10 VERMELHO 3) !! x) →
               x <= 7 → x <= 5) as H2.
  { intros x Hx _. cbn [No.init No.historico_cores] in Hx.
    apply lookup_singleton_is_Some in Hx. lia. }
  assert (4 < 5) as H3 by lia.
  assert (5 ≠ 0) as H4 by lia.
  split; [exact H1|]. split; [exact H2|]. split.
  - exact (proj1 (cor_escrita_e_lida (No.init 10 VERMELHO 3) PRETO 5 7) H1 H2).
  - split; [exact H3|]. split; [exact H4|].
    exact (proj2 (cor_escrita_e_lida (No.init 10 VERMELHO 3) PRETO 5 4) H3 H4).
Defined.

(** X3. A read at a version below every recorded one falls back to the
    entry of version 0, and to BLACK when there is none; so a colour written
    at version 0 is also what such earlier (negative) versions read. *)
Theorem cor_antes_do_historico (n : No.t) (c : Cor) (u : Z) :
  (∀ x, is_Some (No.historico_cores n !! x) → u < x) →
  No.obter_cor n u = default PRETO (No.historico_cores n !! 0) ∧
  (u < 0 → No.obter_cor (No.definir_cor n c 0) u = c).
Proof.
  intros Hno. split.
  - unfold No.obter_cor. by rewrite versao_valida_nenhuma.
  - intros Hu. unfold No.obter_cor, No.definir_cor. cbn [No.historico_cores].
    rewrite versao_valida_nenhuma.
    + by rewrite lookup_insert_eq.
    + intros x Hx. apply lookup_insert_is_Some in Hx as [E|[_ Hx]]; [lia|auto].
Qed.

Lemma cor_antes_do_historico_witness :
  (∀ x, is_Some (No.historico_cores (No.init 10 VERMELHO 3) !! x) → -2 < x) ∧
  No.obter_cor (No.init 10 VERMELHO 3) (-2) =
    default PRETO (No.historico_cores (No.init 10 VERMELHO 3) !! 0) ∧
  No.obter_cor (No.definir_cor (No.init 10 VERMELHO 3) VERMELHO 0) (-2) = VERMELHO.
Proof.
  assert (∀ x, is_Some (No.historico_cores (No.init 10 VERMELHO 3) !! x) → -2 < x)
    as H.
  { intros x Hx. cbn [No.init No.historico_cores] in Hx.
    apply lookup_singleton_is_Some in Hx. lia. }
  split; [exact H|]. split.
  - exact (proj1 (cor_antes_do_historico (No.init 10 VERMELHO 3) VERMELHO (-2) H)).
  - exact (proj2 (cor_antes_do_historico (No.init 10 VERMELHO 3) VERMELHO (-2) H)
             ltac:(lia)).
Defined.

(** X4. [definir_filho_esquerdo] at version [v] sets the left child read at
    [v] and keeps the right child read at [v]; [definir_filho_direito] sets
    the right child and keeps the left one. *)
Theorem filho_escrito_e_lido (n : No.t) (f : option Ref) (v : Z) :
  No.obter_filho_esquerdo (No.definir_filho_esquerdo n f v) v = f ∧
  No.obter_filho_direito (No.definir_filho_esquerdo n f v) v =
    No.obter_filho_direito n v ∧
  No.obter_filho_direito (No.definir_filho_direito n f v) v = f ∧
  No.obter_filho_esquerdo (No.definir_filho_direito n f v) v =
    No.obter_filho_esquerdo n v.
Proof.
  unfold No.obter_filho_esquerdo, No.obter_filho_direito,
    No.definir_filho_esquerdo, No.definir_filho_direito.
  rewrite !obter_filhos_definir_filhos. done.
Qed.

(** ** arvore_rubro_negra.py: the queries *)

(** *** Queries write nothing *)

(** [c] leaves the heap as it found it, whatever its outcome. *)
Definition so_le {A} (c : M Memoria A) : Prop := ∀ m, pos c (eq m) m.

Lemma so_le_ret {A} (a : A) : so_le (ret a).
Proof. intros m. by apply pos_ret. Qed.

Lemma so_le_bind {A B} (c : M Memoria A) (k : A -> M Memoria B) :
  so_le c → (∀ a, so_le (k a)) → so_le (bind c k).
Proof.
  intros Hc Hk m. apply (pos_bind _ _ _ (eq m)).
  - apply Hc.
  - intros a s1 _ <-. apply Hk.
  - done.
Qed.

Lemma so_le_leitura {A} (f : No.t -> A) r : so_le (n <~ ler r ;; ret (f n)).
Proof.
  apply so_le_bind; [|intros; apply so_le_ret].
  intros m s'. unfold ler. destruct (m !! r); [|done]. by intros [= <-].
Qed.

Lemma so_le_laco_sucessor fuel : ∀ atual suc valor v,
  so_le (_laco_sucessor fuel atual suc valor v).
Proof.
  induction fuel as [|fuel IH]; intros atual suc valor v.
  { intros m. apply pos_divergir. }
  destruct atual as [a|]; cbn [_laco_sucessor]; [|apply so_le_ret].
  apply so_le_bind; [apply so_le_leitura|]. intros [|]; [|apply so_le_ret].
  apply so_le_bind; [apply so_le_leitura|]. intros a_valor.
  destruct (valor <? a_valor).
  - apply so_le_bind; [apply so_le_leitura|]. intros fe. apply IH.
  - apply so_le_bind; [apply so_le_leitura|]. intros fd. apply IH.
Qed.

Lemma so_le_percorrer_em_ordem fuel : ∀ no v p res,
  so_le (_percorrer_em_ordem fuel no v p res).
Proof.
  induction fuel as [|fuel IH]; intros no v p res.
  { intros m. apply pos_divergir. }
  destruct no as [n|]; cbn [_percorrer_em_ordem]; [|apply so_le_ret].
  apply so_le_bind; [apply so_le_leitura|]. intros [|]; [|apply so_le_ret].
  cbn [negb].
  apply so_le_bind; [apply so_le_leitura|]. intros fe.
  apply so_le_bind; [destruct fe; [apply IH|apply so_le_ret]|]. intros res1.
  apply so_le_bind; [apply so_le_leitura|]. intros cor.
  apply so_le_bind; [apply so_le_leitura|]. intros no_valor.
  apply so_le_bind; [apply so_le_leitura|]. intros fd.
  destruct fd; [apply IH|apply so_le_ret].
Qed.

Lemma na_memoria_so_le {A} (c : M Memoria A) t :
  so_le c → pos (na_memoria c) (eq t) t.
Proof.
  intros Hc t'. unfold na_memoria. specialize (Hc (memoria t)). unfold pos in Hc.
  destruct (c (memoria t)) as [a m'|e m'|]; simpl; [| |done].
  - intros [= <-]. rewrite <- (Hc m' eq_refl). by destruct t.
  - intros [= <-]. rewrite <- (Hc m' eq_refl). by destruct t.
Qed.

Lemma buscar_sucessor_so_le k v t : pos (buscar_sucessor k v) (eq t) t.
Proof.
  intros t'. unfold buscar_sucessor, bind, ler_versao_atual, ler_raiz, combustivel.
  destruct (py_obter _ _) as [raiz|]; [|by intros [= <-]].
  apply na_memoria_so_le, so_le_laco_sucessor.
Qed.

Lemma entradas_arvore_so_le v t : pos (entradas_arvore v) (eq t) t.
Proof.
  intros t'. unfold entradas_arvore, bind, ler_versao_atual, ler_raiz, combustivel.
  destruct (py_obter _ _) as [[raiz|]|]; [|by intros [= <-]..].
  apply na_memoria_so_le, so_le_percorrer_em_ordem.
Qed.

Lemma imprimir_arvore_so_le v t : pos (imprimir_arvore v) (eq t) t.
Proof.
  unfold imprimir_arvore. apply (pos_bind _ _ _ (eq t)).
  - apply entradas_arvore_so_le.
  - intros es s1 _ <-. by apply pos_ret.
  - done.
Qed.

(** X5. The queries are read-only: whatever [buscar_sucessor] and
    [imprimir_arvore] answer, and also when they raise, the tree, its roots
    table, its version counter and every object are left as they were. *)
Theorem consultas_nao_escrevem (t : Arvore) (k : Z) (v : option Z) :
  (∀ t', estado_final (buscar_sucessor k v t) = Some t' → t' = t) ∧
  (∀ t', estado_final (imprimir_arvore v t) = Some t' → t' = t).
Proof.
  split; intros t' H; symmetry.
  - by apply (buscar_sucessor_so_le k v t).
  - by apply (imprimir_arvore_so_le v t).
Qed.

(** *** The successor on a search tree *)

(** The loop of [buscar_sucessor], on trees. *)
Fixpoint suc_arv (valor : Z) (a : arv) (sucessor : option Z) : option Z :=
  match a with
  | Folha => sucessor
  | Nodo _ _ k e d =>
      if valor <? k then suc_arv valor e (Some k) else suc_arv valor d sucessor
  end.

Lemma wp_laco_sucessor v fuel : ∀ a m o suc valor,
  rep m v o a → (altura a < fuel)%nat →
  wp (_laco_sucessor fuel o suc valor v) m
     (fun r m' => r = suc_arv valor a suc ∧ m' = m).
Proof.
  induction fuel as [|fuel IH]; intros a m o suc valor Hrep Hfuel; [lia|].
  destruct a as [|c no k e d].
  - simpl in Hrep. subst o. by apply wp_ret.
  - pose proof Hrep as (-> & oe & od & Hvis & He & Hd).
    cbn [altura] in Hfuel. cbn [_laco_sucessor suc_arv].
    apply wp_bind. eapply wp_esta_ativo; [exact Hvis|]. cbn [vs_ativo].
    apply wp_bind. eapply wp_obter_valor; [exact Hvis|]. cbn [vs_valor].
    destruct (valor <? k).
    + apply wp_bind. eapply wp_obter_filho_esquerdo; [exact Hvis|]. cbn [vs_esq].
      apply IH; [done|lia].
    + apply wp_bind. eapply wp_obter_filho_direito; [exact Hvis|]. cbn [vs_dir].
      apply IH; [done|lia].
Qed.

(** What [suc_arv] answers on a search tree whose keys are all below the
    candidate it starts with. *)
Definition menor_acima (valor : Z) (ks : list Z) (r : option Z) : Prop :=
  match r with
  | Some s => s ∈ ks ∧ valor < s ∧ ∀ x, x ∈ ks → valor < x → s <= x
  | None => ∀ x, x ∈ ks → x <= valor
  end.

Lemma suc_arv_correta valor : ∀ a suc,
  abb a →
  match suc with
  | Some s0 => valor < s0 ∧ ∀ x, x ∈ chaves a → x < s0
  | None => True
  end →
  match suc_arv valor a suc with
  | Some s =>
      valor < s ∧ (s ∈ chaves a ∨ suc = Some s) ∧
      ∀ x, x ∈ chaves a → valor < x → s <= x
  | None => suc = None ∧ ∀ x, x ∈ chaves a → x <= valor
  end.
Proof.
  induction a as [|c r k e IHe d IHd]; intros suc Habb Hsuc.
  - cbn [suc_arv chaves]. destruct suc as [s0|].
    + destruct Hsuc as [H1 _]. split; [done|]. split; [by right|].
      by intros x ?%elem_of_nil.
    + split; [done|]. by intros x ?%elem_of_nil.
  - apply abb_Nodo in Habb as (He & Hd & Hek & Hdk). cbn [suc_arv].
    destruct (valor <? k) eqn:E.
    + apply Z.ltb_lt in E.
      specialize (IHe (Some k) He ltac:(split; [done|apply Hek])).
      destruct (suc_arv valor e (Some k)) as [s|]; [|by destruct IHe].
      destruct IHe as (H1 & H2 & H3). split; [done|]. split.
      * left. cbn [chaves]. rewrite elem_of_app, elem_of_cons.
        destruct H2 as [H2|[= ->]]; auto.
      * intros x Hx Hvx. cbn [chaves] in Hx.
        rewrite elem_of_app, elem_of_cons in Hx.
        assert (s <= k) as Hsk.
        { destruct H2 as [H2%Hek|[= ->]]; lia. }
        destruct Hx as [Hx|[->|Hx%Hdk]]; [by apply H3|lia|lia].
    + apply Z.ltb_ge in E.
      assert (match suc with
              | Some s0 => valor < s0 ∧ ∀ x, x ∈ chaves d → x < s0
              | None => True
              end) as Hsuc'.
      { destruct suc as [s0|]; [|done]. destruct Hsuc as [H1 H2]. split; [done|].
        intros x Hx. apply H2. cbn [chaves]. rewrite elem_of_app, elem_of_cons. auto. }
      specialize (IHd suc Hd Hsuc').
      destruct (suc_arv valor d suc) as [s|].
      * destruct IHd as (H1 & H2 & H3). split; [done|]. split.
        { destruct H2 as [H2|H2]; [left|by right].
          cbn [chaves]. rewrite elem_of_app, elem_of_cons. auto. }
        intros x Hx Hvx. cbn [chaves] in Hx.
        rewrite elem_of_app, elem_of_cons in Hx.
        destruct Hx as [Hx%Hek|[->|Hx]]; [lia|lia|by apply H3].
      * destruct IHd as [-> H3]. split; [done|].
        intros x Hx. cbn [chaves] in Hx. rewrite elem_of_app, elem_of_cons in Hx.
        destruct Hx as [Hx%Hek|[->|Hx]]; [lia|lia|by apply H3].
Qed.

Lemma suc_arv_menor_acima valor a :
  abb a → menor_acima valor (chaves a) (suc_arv valor a None).
Proof.
  intros Habb. pose proof (suc_arv_correta valor a None Habb I) as H.
  unfold menor_acima. destruct (suc_arv valor a None) as [s|].
  - destruct H as (H1 & [H2|[=]] & H3). done.
  - by destruct H.
Qed.

Lemma buscar_sucessor_rep t v o a k :
  length (raizes t) = 100%nat → 0 <= v <= versao_atual t → versao_atual t <= 99 →
  raizes t !! Z.to_nat v = Some o → rep (memoria t) v o a → NoDup (refs a) →
  buscar_sucessor k (Some v) t = Val (suc_arv k a None) t.
Proof.
  intros Hlen Hv HV Ho Hrep Hnd.
  unfold buscar_sucessor, bind, ler_versao_atual, ler_raiz, combustivel.
  rewrite ajustar_versao_dentro by lia.
  rewrite py_obter_dentro, Ho by lia.
  apply na_memoria_Val.
  destruct (wp_laco_sucessor v (S (length (memoria t))) a (memoria t) o None k Hrep)
    as (r & m' & E & -> & ->); [by eapply altura_combustivel|done].
Qed.

Lemma buscar_sucessor_None k t :
  buscar_sucessor k None t = buscar_sucessor k (Some (versao_atual t)) t.
Proof.
  unfold buscar_sucessor, bind, ler_versao_atual. simpl. by rewrite Z.ltb_irrefl.
Qed.

(** X6. At the current version the successor is right: when every earlier
    mutation has returned, [buscar_sucessor k] returns, and its answer is
    the least key of the current dump that is greater than [k], or [None]
    when the dump has no key greater than [k]. *)
Theorem sucessor_na_versao_atual (t : Arvore) (k : Z) (ks : list Z) :
  alcancavel_normal t → chaves_vivas t = Some ks →
  ∃ r, buscar_sucessor k None t = Val r t ∧ menor_acima k ks r.
Proof.
  intros Ht Hks. destruct (alcancavel_normal_Atual t Ht) as [a Ha].
  rewrite (chaves_vivas_Atual t a Ha) in Hks. injection Hks as <-.
  destruct Ha as [Hlen HV _ (raiz & Hraiz & Hrep) Hnd Habb].
  exists (suc_arv k a None). split; [|by apply suc_arv_menor_acima].
  rewrite buscar_sucessor_None.
  by apply (buscar_sucessor_rep t (versao_atual t) raiz a); [|lia|lia|..].
Qed.

Lemma exemplo_5_normal : alcancavel_normal exemplo_5.
Proof.
  apply alcancavel_abaixo; [apply alcancavel_aplicar, alc_vazia|].
  vm_compute. reflexivity.
Qed.

Lemma sucessor_na_versao_atual_witness :
  alcancavel_normal exemplo_5 ∧ chaves_vivas exemplo_5 = Some [3; 5; 7; 10; 15] ∧
  ∃ r, buscar_sucessor 6 None exemplo_5 = Val r exemplo_5 ∧
       menor_acima 6 [3; 5; 7; 10; 15] r.
Proof.
  assert (chaves_vivas exemplo_5 = Some [3; 5; 7; 10; 15]) as Hks
    by (vm_compute; reflexivity).
  split; [exact exemplo_5_normal|]. split; [exact Hks|].
  exact (sucessor_na_versao_atual exemplo_5 6 _ exemplo_5_normal Hks).
Defined.

(** X7. When every earlier mutation has returned, the dump of the current
    version is returned and lists its keys in strictly increasing order: the
    current version is a search tree without repeated keys. *)
Theorem despejo_atual_ordenado (t : Arvore) :
  alcancavel_normal t →
  ∃ es, entradas_arvore None t = Val es t ∧
        imprimir_arvore None t = Val (map formatar es) t ∧
        StronglySorted Z.lt (map e_valor es).
Proof.
  intros Ht. destruct (alcancavel_normal_Atual t Ht) as [a Ha].
  destruct Ha as [Hlen HV _ (raiz & Hraiz & Hrep) Hnd Habb].
  assert (entradas_arvore None t = Val (listar 0 a) t) as E.
  { rewrite entradas_None.
    by apply (entradas_rep t (versao_atual t) raiz a); [|lia|lia|..]. }
  exists (listar 0 a). split; [done|]. split.
  - unfold imprimir_arvore, bind. by rewrite E.
  - by rewrite valores_listar.
Qed.

Lemma despejo_atual_ordenado_witness :
  alcancavel_normal exemplo_5 ∧
  ∃ es, entradas_arvore None exemplo_5 = Val es exemplo_5 ∧
        imprimir_arvore None exemplo_5 = Val (map formatar es) exemplo_5 ∧
        StronglySorted Z.lt (map e_valor es).
Proof.
  split; [exact exemplo_5_normal|].
  exact (despejo_atual_ordenado exemplo_5 exemplo_5_normal).
Defined.

(** ** arvore_rubro_negra.py: what a mutation does to the current keys *)

(** X8. Below the cap, [incluir k] returns and the keys of the new current
    version are the previous keys together with [k], listed in strictly
    increasing order; one object is allocated when [k] was absent, and none
    when it was present. *)
Theorem incluir_acrescenta_chave (t : Arvore) (k : Z) (ks : list Z) :
  alcancavel t → versao_atual t < 99 → chaves_vivas t = Some ks →
  ∃ t' ks', incluir k t = Val tt t' ∧
            chaves_vivas t' = Some ks' ∧
            StronglySorted Z.lt ks' ∧
            (∀ x, x ∈ ks' ↔ x = k ∨ x ∈ ks) ∧
            length (memoria t') =
              (if bool_decide (k ∈ ks) then length (memoria t)
               else S (length (memoria t))).
Proof.
  intros Ht Hcap Hks. destruct (alcancavel_Atual t Ht Hcap) as [a Ha].
  rewrite (chaves_vivas_Atual t a Ha) in Hks. injection Hks as <-.
  destruct (incluir_abaixo t k a Ha Hcap) as (t' & E & _ & Hmem & Ha').
  pose proof Ha as [_ _ _ _ _ Habb].
  exists t', (chaves (pintar PRETO (ins k (length (memoria t)) a))).
  split; [done|]. split; [by apply chaves_vivas_Atual|].
  split; [by destruct Ha'|]. split.
  - intros x. by rewrite chaves_pintar, chaves_ins.
  - rewrite Hmem. destruct (busca k a) eqn:Eb.
    + rewrite bool_decide_true; [done|]. by apply busca_chaves.
    + rewrite bool_decide_false; [done|]. rewrite <- busca_chaves by done.
      by rewrite Eb.
Qed.

Lemma incluir_acrescenta_chave_witness :
  alcancavel exemplo_5 ∧ versao_atual exemplo_5 < 99 ∧
  chaves_vivas exemplo_5 = Some [3; 5; 7; 10; 15] ∧
  ∃ t' ks', incluir 8 exemplo_5 = Val tt t' ∧
            chaves_vivas t' = Some ks' ∧
            StronglySorted Z.lt ks' ∧
            (∀ x, x ∈ ks' ↔ x = 8 ∨ x ∈ [3; 5; 7; 10; 15]) ∧
            length (memoria t') =
              (if bool_decide (8 ∈ [3; 5; 7; 10; 15])
               then length (memoria exemplo_5)
               else S (length (memoria exemplo_5))).
Proof.
  assert (alcancavel exemplo_5) as H by (apply alcancavel_aplicar, alc_vazia).
  assert (versao_atual exemplo_5 < 99) as Hv by (vm_compute; reflexivity).
  assert (chaves_vivas exemplo_5 = Some [3; 5; 7; 10; 15]) as Hks
    by (vm_compute; reflexivity).
  split; [exact H|]. split; [exact Hv|]. split; [exact Hks|].
  exact (incluir_acrescenta_chave exemplo_5 8 _ H Hv Hks).
Defined.

(** X9. Below the cap, [remover k] returns and the keys of the new current
    version are the previous keys other than [k], listed in strictly
    increasing order; no object is allocated. *)
Theorem remover_retira_chave (t : Arvore) (k : Z) (ks : list Z) :
  alcancavel t → versao_atual t < 99 → chaves_vivas t = Some ks →
  ∃ t' ks', remover k t = Val tt t' ∧
            chaves_vivas t' = Some ks' ∧
            StronglySorted Z.lt ks' ∧
            (∀ x, x ∈ ks' ↔ x ∈ ks ∧ x ≠ k) ∧
            length (memoria t') = length (memoria t).
Proof.
  intros Ht Hcap Hks. destruct (alcancavel_Atual t Ht Hcap) as [a Ha].
  rewrite (chaves_vivas_Atual t a Ha) in Hks. injection Hks as <-.
  destruct (remover_abaixo t k a Ha Hcap) as (t' & a' & E & _ & Hmem & Hd & Ha').
  pose proof Ha as [_ _ _ _ _ Habb].
  exists t', (chaves a').
  split; [done|]. split; [by apply chaves_vivas_Atual|].
  split; [by destruct Ha'|]. split; [|done].
  intros x. rewrite (descolorir_chaves _ _ Hd). by apply chaves_del.
Qed.

Lemma remover_retira_chave_witness :
  alcancavel exemplo_5 ∧ versao_atual exemplo_5 < 99 ∧
  chaves_vivas exemplo_5 = Some [3; 5; 7; 10; 15] ∧
  ∃ t' ks', remover 5 exemplo_5 = Val tt t' ∧
            chaves_vivas t' = Some ks' ∧
            StronglySorted Z.lt ks' ∧
            (∀ x, x ∈ ks' ↔ x ∈ [3; 5; 7; 10; 15] ∧ x ≠ 5) ∧
            length (memoria t') = length (memoria exemplo_5).
Proof.
  assert (alcancavel exemplo_5) as H by (apply alcancavel_aplicar, alc_vazia).
  assert (versao_atual exemplo_5 < 99) as Hv by (vm_compute; reflexivity).
  assert (chaves_vivas exemplo_5 = Some [3; 5; 7; 10; 15]) as Hks
    by (vm_compute; reflexivity).
  split; [exact H|]. split; [exact Hv|]. split; [exact Hks|].
  exact (remover_retira_chave exemplo_5 5 _ H Hv Hks).
Defined.

(** ** arvore_rubro_negra.py: the versions of a tree built by insertions *)

Lemma consultas_VersaoOk t v a :
  length (raizes t) = 100%nat → 0 <= v <= versao_atual t → versao_atual t <= 99 →
  VersaoOk t v a →
  entradas_arvore (Some v) t = Val (listar 0 a) t ∧
  imprimir_arvore (Some v) t = Val (map formatar (listar 0 a)) t ∧
  ∀ k, buscar_sucessor k (Some v) t = Val (suc_arv k a None) t.
Proof.
  intros Hlen Hv HV [(o & Ho & Hrep) Hnd _ _ _ _].
  assert (entradas_arvore (Some v) t = Val (listar 0 a) t) as E
    by (by apply (entradas_rep t v o a)).
  split; [done|]. split.
  - unfold imprimir_arvore, bind. by rewrite E.
  - intros k. by apply (buscar_sucessor_rep t v o a).
Qed.

(** An insertion, returning or not, leaves what an earlier version denotes. *)
Lemma inclusao_mantem_versao t k t' v a :
  InvInc t → estado_final (incluir k t) = Some t' →
  0 <= v <= versao_atual t → VersaoOk t v a →
  VersaoOk t' v a ∧ versao_atual t <= versao_atual t'.
Proof.
  intros [Hlen HV _ _] Hf Hv Hok.
  destruct (incluir_quadro t k t' ltac:(lia) Hf)
    as [Hq [(Hrz & Hva & _)|(_ & Hva & nova & Hatr)]].
  - split; [|lia]. eapply (VersaoOk_quadro t); [done|lia|by rewrite Hrz|done].
  - split; [|lia]. apply py_atribuir_Some in Hatr as [_ Hrz]; [|lia].
    eapply (VersaoOk_quadro t); [done|lia| |done].
    rewrite Hrz. apply list_lookup_insert_ne. lia.
Qed.

Lemma exemplo_5_inclusoes : alcancavel_inc exemplo_5.
Proof. apply alcancavel_inc_aplicar; [reflexivity|apply ai_vazia]. Qed.

(** The keys of a represented tree are the keys of its objects. *)
Lemma rep_chaves m v o a x :
  rep m v o a →
  x ∈ chaves a ↔ ∃ r n, r ∈ refs a ∧ m !! r = Some n ∧ No.valor n = x.
Proof.
  revert o. induction a as [|c r0 k e IHe d IHd]; intros o.
  - intros _. cbn [chaves refs]. split; [by intros ?%elem_of_nil|].
    by intros (r & n & ?%elem_of_nil & _).
  - intros (-> & oe & od & (n0 & Hn0 & E)%vis_Some & He & Hd).
    apply (f_equal vs_valor) in E. simpl in E.
    cbn [chaves refs]. rewrite elem_of_app, elem_of_cons, (IHe _ He), (IHd _ Hd).
    split.
    + intros [(r & n & Hr & Hn & Hx)|[->|(r & n & Hr & Hn & Hx)]].
      * exists r, n. rewrite elem_of_app. auto.
      * exists r0, n0. rewrite elem_of_app, elem_of_cons. auto.
      * exists r, n. rewrite elem_of_app, elem_of_cons. auto.
    + intros (r & n & Hr & Hn & Hx). rewrite elem_of_app, elem_of_cons in Hr.
      destruct Hr as [Hr|[->|Hr]]; [left; eauto|right; left|right; right; eauto].
      congruence.
Qed.

Lemma rep_ativo m v o a r :
  rep m v o a → r ∈ refs a → ∃ n, m !! r = Some n ∧ No.esta_ativo n v = true.
Proof.
  revert o. induction a as [|c r0 k e IHe d IHd]; intros o.
  - intros _ ?%elem_of_nil. done.
  - intros (-> & oe & od & (n0 & Hn0 & E)%vis_Some & He & Hd).
    apply (f_equal vs_ativo) in E. simpl in E.
    cbn [refs]. rewrite elem_of_app, elem_of_cons.
    intros [Hr|[->|Hr]]; [by eapply IHe|by exists n0|by eapply IHd].
Qed.

(** X11. In a tree built by insertions only, at every version up to the
    current one: the dump is returned and lists, in strictly increasing
    order, exactly the keys of the objects alive at that version, and the
    successor of a key is the least listed key greater than it, or [None]
    when no listed key is greater. *)
Theorem versoes_apos_inclusoes (t : Arvore) (k v : Z) :
  alcancavel_inc t → 0 <= v <= versao_atual t →
  ∃ es r,
    entradas_arvore (Some v) t = Val es t ∧
    StronglySorted Z.lt (map e_valor es) ∧
    (∀ x, x ∈ map e_valor es ↔
          ∃ o n, memoria t !! o = Some n ∧ No.esta_ativo n v = true ∧
                 No.valor n = x) ∧
    buscar_sucessor k (Some v) t = Val r t ∧
    menor_acima k (map e_valor es) r.
Proof.
  intros Ht Hv. pose proof (alcancavel_inc_InvInc t Ht) as [Hlen HV _ Hver].
  destruct (Hver v Hv) as [a Hok].
  destruct (consultas_VersaoOk t v a Hlen Hv ltac:(lia) Hok) as (He & _ & Hs).
  destruct Hok as [(o & Ho & Hrep) Hnd Habb _ _ Hviv].
  exists (listar 0 a), (suc_arv k a None). rewrite valores_listar.
  split; [done|]. split; [done|]. split; [|split; [done|by apply suc_arv_menor_acima]].
  intros x. rewrite (rep_chaves _ _ _ _ x Hrep). split.
  - intros (r & n & Hr & Hn & Hx).
    destruct (rep_ativo _ _ _ _ r Hrep Hr) as (n' & Hn' & Hat).
    exists r, n. split; [done|]. split; [congruence|done].
  - intros (r & n & Hn & Hat & Hx). exists r, n. split; [by eapply Hviv|done].
Qed.

Lemma versoes_apos_inclusoes_witness :
  alcancavel_inc exemplo_5 ∧ 0 <= 3 <= versao_atual exemplo_5 ∧
  ∃ es r,
    entradas_arvore (Some 3) exemplo_5 = Val es exemplo_5 ∧
    StronglySorted Z.lt (map e_valor es) ∧
    (∀ x, x ∈ map e_valor es ↔
          ∃ o n, memoria exemplo_5 !! o = Some n ∧ No.esta_ativo n 3 = true ∧
                 No.valor n = x) ∧
    buscar_sucessor 6 (Some 3) exemplo_5 = Val r exemplo_5 ∧
    menor_acima 6 (map e_valor es) r.
Proof.
  assert (0 <= 3 <= versao_atual exemplo_5) as Hv by (vm_compute; split; discriminate).
  split; [exact exemplo_5_inclusoes|]. split; [exact Hv|].
  exact (versoes_apos_inclusoes exemplo_5 6 3 exemplo_5_inclusoes Hv).
Defined.

(** ** arvore_rubro_negra.py: the two rotations *)

(** [_rotacao_esquerda] *)
Definition _rotacao_esquerda (no : Ref) (versao : Z) : M Memoria Ref :=
  filho_direito <~ obter_filho_direito no versao ;;
  match filho_direito with
  | None => ret no
  | Some fd =>
    neto <~ obter_filho_esquerdo fd versao ;;
    definir_filho_direito no neto versao ;;;
    neto' <~ obter_filho_esquerdo fd versao ;;
    (match neto' with
     | Some _ =>
         neto'' <~ obter_filho_esquerdo fd versao ;;
         n <~ objeto neto'' ;;
         definir_pai n (Some no) versao
     | None => ret tt
     end) ;;;
    definir_filho_esquerdo fd (Some no) versao ;;;
    pai <~ obter_pai no versao ;;
    definir_pai fd pai versao ;;;
    definir_pai no filho_direito versao ;;;
    ret fd
  end.

(** [_rotacao_direita] *)
Definition _rotacao_direita (no : Ref) (versao : Z) : M Memoria Ref :=
  filho_esquerdo <~ obter_filho_esquerdo no versao ;;
  match filho_esquerdo with
  | None => ret no
  | Some fe =>
    neto <~ obter_filho_direito fe versao ;;
    definir_filho_esquerdo no neto versao ;;;
    neto' <~ obter_filho_direito fe versao ;;
    (match neto' with
     | Some _ =>
         neto'' <~ obter_filho_direito fe versao ;;
         n <~ objeto neto'' ;;
         definir_pai n (Some no) versao
     | None => ret tt
     end) ;;;
    definir_filho_direito fe (Some no) versao ;;;
    pai <~ obter_pai no versao ;;
    definir_pai fe pai versao ;;;
    definir_pai no filho_esquerdo versao ;;;
    ret fe
  end.

(** The rotations, on trees. *)
Definition rot_esq (a : arv) : arv :=
  match a with
  | Nodo c no x e (Nodo cd fd xd de dd) => Nodo cd fd xd (Nodo c no x e de) dd
  | _ => a
  end.

Definition rot_dir (a : arv) : arv :=
  match a with
  | Nodo c no x (Nodo ce fe xe ee ed) d => Nodo ce fe xe ee (Nodo c no x ed d)
  | _ => a
  end.

Lemma chaves_rot_esq a : chaves (rot_esq a) = chaves a.
Proof.
  destruct a as [|c no x e [|cd fd xd de dd]]; try done.
  cbn [rot_esq chaves]. by rewrite <- !app_assoc.
Qed.

Lemma chaves_rot_dir a : chaves (rot_dir a) = chaves a.
Proof.
  destruct a as [|c no x [|ce fe xe ee ed] d]; try done.
  cbn [rot_dir chaves]. by rewrite <- !app_assoc.
Qed.

Lemma refs_rot_esq a : refs (rot_esq a) = refs a.
Proof.
  destruct a as [|c no x e [|cd fd xd de dd]]; try done.
  cbn [rot_esq refs]. by rewrite <- !app_assoc.
Qed.

Lemma refs_rot_dir a : refs (rot_dir a) = refs a.
Proof.
  destruct a as [|c no x [|ce fe xe ee ed] d]; try done.
  cbn [rot_dir refs]. by rewrite <- !app_assoc.
Qed.

Lemma rot_dir_rot_esq c no x e cd fd xd de dd :
  rot_dir (rot_esq (Nodo c no x e (Nodo cd fd xd de dd))) =
  Nodo c no x e (Nodo cd fd xd de dd).
Proof. done. Qed.

Ltac wp_passo_pai :=
  first [ wp_passo | eapply wp_obter_pai; [vis_resolver|intros ?]; wp_limpar ].

Section RotacoesSimples.
Variables (m : Memoria) (v : Z).

Lemma rep_rotacao_esquerda c no x e cd fd xd de dd :
  rep m v (Some no) (Nodo c no x e (Nodo cd fd xd de dd)) →
  NoDup (refs (Nodo c no x e (Nodo cd fd xd de dd))) →
  wp (_rotacao_esquerda no v) m (fun r m' =>
    r = fd ∧
    rep m' v (Some fd) (Nodo cd fd xd (Nodo c no x e de) dd) ∧
    length m' = length m ∧
    ∀ r', r' ∉ refs (Nodo c no x e (Nodo cd fd xd de dd)) →
          vis m' v r' = vis m v r').
Proof.
  intros (_ & oe & od & Hno & He & (-> & ode & odd & Hfd & Hde & Hdd)) Hnd.
  simpl in Hnd.
  assert (no ≠ fd) as N1 by distintos.
  unfold _rotacao_esquerda. do 7 wp_passo.
  destruct ode as [rde|].
  - destruct (rep_Some _ _ _ _ Hde) as [Hin [xr Hxr]].
    assert (no ≠ rde ∧ fd ≠ rde) as (N2 & N3) by distintos.
    repeat wp_passo_pai.
    split; [done|]. split; [rep_resolver|split; [congruence|]].
    intros r' Hr'. fora_da_arvore Hr'.
  - repeat wp_passo_pai.
    split; [done|]. split; [rep_resolver|split; [congruence|]].
    intros r' Hr'. fora_da_arvore Hr'.
Qed.

Lemma rep_rotacao_direita c no x ce fe xe ee ed d :
  rep m v (Some no) (Nodo c no x (Nodo ce fe xe ee ed) d) →
  NoDup (refs (Nodo c no x (Nodo ce fe xe ee ed) d)) →
  wp (_rotacao_direita no v) m (fun r m' =>
    r = fe ∧
    rep m' v (Some fe) (Nodo ce fe xe ee (Nodo c no x ed d)) ∧
    length m' = length m ∧
    ∀ r', r' ∉ refs (Nodo c no x (Nodo ce fe xe ee ed) d) →
          vis m' v r' = vis m v r').
Proof.
  intros (_ & oe & od & Hno & (-> & oee & oed & Hfe & Hee & Hed) & Hd) Hnd.
  simpl in Hnd.
  assert (no ≠ fe) as N1 by distintos.
  unfold _rotacao_direita. do 7 wp_passo.
  destruct oed as [red|].
  - destruct (rep_Some _ _ _ _ Hed) as [Hin [xr Hxr]].
    assert (no ≠ red ∧ fe ≠ red) as (N2 & N3) by distintos.
    repeat wp_passo_pai.
    split; [done|]. split; [rep_resolver|split; [congruence|]].
    intros r' Hr'. fora_da_arvore Hr'.
  - repeat wp_passo_pai.
    split; [done|]. split; [rep_resolver|split; [congruence|]].
    intros r' Hr'. fora_da_arvore Hr'.
Qed.

End RotacoesSimples.

Lemma rep_sem_filho_direito m v no c x e :
  rep m v (Some no) (Nodo c no x e Folha) → _rotacao_esquerda no v m = Val no m.
Proof.
  intros (_ & oe & od & Hno & _ & Hd). simpl in Hd. subst od.
  unfold _rotacao_esquerda.
  by rewrite (bind_passo _ _ _ _ _ (obter_filho_direito_vis _ _ _ _ Hno)).
Qed.

Lemma rep_sem_filho_esquerdo m v no c x d :
  rep m v (Some no) (Nodo c no x Folha d) → _rotacao_direita no v m = Val no m.
Proof.
  intros (_ & oe & od & Hno & He & _). simpl in He. subst oe.
  unfold _rotacao_direita.
  by rewrite (bind_passo _ _ _ _ _ (obter_filho_esquerdo_vis _ _ _ _ Hno)).
Qed.

(** The keys that the dump lists under an object. *)
Lemma chaves_percorridas m v o a p :
  rep m v o a → NoDup (refs a) →
  ∃ es, _percorrer_em_ordem (S (length m)) o v p [] m = Val es m ∧
        map e_valor es = chaves a.
Proof.
  intros Hrep Hnd. exists (listar p a). split; [|apply valores_listar].
  rewrite (rep_percorrer v _ a m o p []); [done|done|].
  by eapply altura_combustivel.
Qed.

(** X12. [_rotacao_esquerda] on the root of a subtree without repeated
    objects returns; the right child becomes the root, the old root its left
    child, and the left subtree of the right child the right subtree of the
    old root; with no right child the node is returned and nothing is
    written. The in-order traversal lists the same keys before and after,
    and the objects outside the subtree are seen as before. *)
Theorem rotacao_esquerda_correta (m : Memoria) (v : Z) (no : Ref) (a : arv) :
  rep m v (Some no) a → NoDup (refs a) →
  ∃ r m', _rotacao_esquerda no v m = Val r m' ∧
          rep m' v (Some r) (rot_esq a) ∧
          length m' = length m ∧
          (∀ r', r' ∉ refs a → vis m' v r' = vis m v r') ∧
          (∀ c x s, a = Nodo c no x s Folha → r = no ∧ m' = m) ∧
          (∀ p, ∃ es es',
             _percorrer_em_ordem (S (length m)) (Some no) v p [] m = Val es m ∧
             _percorrer_em_ordem (S (length m')) (Some r) v p [] m' = Val es' m' ∧
             map e_valor es' = map e_valor es).
Proof.
  intros Hrep Hnd.
  assert (∃ r m', _rotacao_esquerda no v m = Val r m' ∧
                  rep m' v (Some r) (rot_esq a) ∧ length m' = length m ∧
                  (∀ r', r' ∉ refs a → vis m' v r' = vis m v r') ∧
                  (∀ c x s, a = Nodo c no x s Folha → r = no ∧ m' = m))
    as (r & m' & Hrot & Hrep' & Hlen & Hfr & Hsem).
  { destruct a as [|c r0 x e d]; [done|]. pose proof Hrep as ([= <-] & _).
    destruct d as [|cd fd xd de dd].
    - exists no, m. split; [by eapply rep_sem_filho_direito|]. done.
    - destruct (rep_rotacao_esquerda m v c no x e cd fd xd de dd Hrep Hnd)
        as (r & m' & Hrot & -> & Hrep' & Hlen & Hfr).
      exists fd, m'. split; [done|]. split; [done|]. split; [done|].
      split; [done|]. intros c0 x0 s0 Hs. discriminate Hs. }
  exists r, m'. split; [done|]. split; [done|]. split; [done|].
  split; [done|]. split; [done|].
  intros p.
  destruct (chaves_percorridas m v (Some no) a p Hrep Hnd) as (es & He & Hk).
  destruct (chaves_percorridas m' v (Some r) (rot_esq a) p Hrep')
    as (es' & He' & Hk'); [by rewrite refs_rot_esq|].
  exists es, es'. split; [done|]. split; [done|].
  by rewrite Hk', chaves_rot_esq.
Qed.

(** X13. [_rotacao_direita], symmetrically: the left child becomes the root,
    the old root its right child, and the right subtree of the left child
    the left subtree of the old root; with no left child the node is
    returned and nothing is written. The in-order traversal lists the same
    keys before and after. *)
Theorem rotacao_direita_correta (m : Memoria) (v : Z) (no : Ref) (a : arv) :
  rep m v (Some no) a → NoDup (refs a) →
  ∃ r m', _rotacao_direita no v m = Val r m' ∧
          rep m' v (Some r) (rot_dir a) ∧
          length m' = length m ∧
          (∀ r', r' ∉ refs a → vis m' v r' = vis m v r') ∧
          (∀ c x s, a = Nodo c no x Folha s → r = no ∧ m' = m) ∧
          (∀ p, ∃ es es',
             _percorrer_em_ordem (S (length m)) (Some no) v p [] m = Val es m ∧
             _percorrer_em_ordem (S (length m')) (Some r) v p [] m' = Val es' m' ∧
             map e_valor es' = map e_valor es).
Proof.
  intros Hrep Hnd.
  assert (∃ r m', _rotacao_direita no v m = Val r m' ∧
                  rep m' v (Some r) (rot_dir a) ∧ length m' = length m ∧
                  (∀ r', r' ∉ refs a → vis m' v r' = vis m v r') ∧
                  (∀ c x s, a = Nodo c no x Folha s → r = no ∧ m' = m))
    as (r & m' & Hrot & Hrep' & Hlen & Hfr & Hsem).
  { destruct a as [|c r0 x e d]; [done|]. pose proof Hrep as ([= <-] & _).
    destruct e as [|ce fe xe ee ed].
    - exists no, m. split; [by eapply rep_sem_filho_esquerdo|]. done.
    - destruct (rep_rotacao_direita m v c no x ce fe xe ee ed d Hrep Hnd)
        as (r & m' & Hrot & -> & Hrep' & Hlen & Hfr).
      exists fe, m'. split; [done|]. split; [done|]. split; [done|].
      split; [done|]. intros c0 x0 s0 Hs. discriminate Hs. }
  exists r, m'. split; [done|]. split; [done|]. split; [done|].
  split; [done|]. split; [done|].
  intros p.
  destruct (chaves_percorridas m v (Some no) a p Hrep Hnd) as (es & He & Hk).
  destruct (chaves_percorridas m' v (Some r) (rot_dir a) p Hrep')
    as (es' & He' & Hk'); [by rewrite refs_rot_dir|].
  exists es, es'. split; [done|]. split; [done|].
  by rewrite Hk', chaves_rot_dir.
Qed.

(** X14. A left rotation followed by a right rotation of the node it
    returns gives back the subtree: when the node has a right child, the
    first rotation returns that child, the second returns the node, and
    every object of the subtree has again the key, colour and children it
    had; the objects outside the subtree are seen as before. *)
Theorem rotacoes_ida_e_volta (m : Memoria) (v : Z) (no fd : Ref) (c cd : Cor)
    (x xd : Z) (e de dd : arv) :
  rep m v (Some no) (Nodo c no x e (Nodo cd fd xd de dd)) →
  NoDup (refs (Nodo c no x e (Nodo cd fd xd de dd))) →
  ∃ m1 m2, _rotacao_esquerda no v m = Val fd m1 ∧
           _rotacao_direita fd v m1 = Val no m2 ∧
           rep m2 v (Some no) (Nodo c no x e (Nodo cd fd xd de dd)) ∧
           length m2 = length m ∧
           ∀ r', r' ∉ refs (Nodo c no x e (Nodo cd fd xd de dd)) →
                 vis m2 v r' = vis m v r'.
Proof.
  intros Hrep Hnd.
  destruct (rep_rotacao_esquerda m v c no x e cd fd xd de dd Hrep Hnd)
    as (r1 & m1 & E1 & -> & Hrep1 & Hlen1 & Hfr1).
  assert (refs (Nodo cd fd xd (Nodo c no x e de) dd) =
          refs (Nodo c no x e (Nodo cd fd xd de dd))) as Hrefs
    by apply (refs_rot_esq (Nodo c no x e (Nodo cd fd xd de dd))).
  destruct (rep_rotacao_direita m1 v cd fd xd c no x e de dd Hrep1)
    as (r2 & m2 & E2 & -> & Hrep2 & Hlen2 & Hfr2); [by rewrite Hrefs|].
  exists m1, m2. split; [done|]. split; [done|]. split; [done|].
  split; [congruence|].
  intros r' Hr'. rewrite Hfr2 by (by rewrite Hrefs). by apply Hfr1.
Qed.

(** The heap and the subtree used to run the helpers: the node of key 3
    (object 3), its red left child of key 1 (object 5) and the red right
    child of that one, of key 2 (object 6), at version 7. *)
Lemma rep_triangulo_3 : rep antes_do_caso 7 (Some 3%nat) triangulo_3.
Proof.
  unfold triangulo_3. cbn [rep]. split; [reflexivity|].
  exists (Some 5%nat), None. split; [vm_compute; reflexivity|].
  split; [|reflexivity]. split; [reflexivity|].
  exists None, (Some 6%nat). split; [vm_compute; reflexivity|].
  split; [reflexivity|]. split; [reflexivity|].
  exists None, None. split; [vm_compute; reflexivity|]. split; reflexivity.
Qed.

Lemma NoDup_pequena (l : list nat) : bool_decide (NoDup l) = true → NoDup l.
Proof. intros H. by apply bool_decide_eq_true in H. Qed.

Lemma nodup_triangulo_3 : NoDup (refs triangulo_3).
Proof. apply NoDup_pequena. vm_compute. reflexivity. Qed.

Definition subarvore_1 : arv :=
  Nodo VERMELHO 5 1 Folha (Nodo VERMELHO 6 2 Folha Folha).

Lemma rep_subarvore_1 : rep antes_do_caso 7 (Some 5%nat) subarvore_1.
Proof.
  unfold subarvore_1. cbn [rep]. split; [reflexivity|].
  exists None, (Some 6%nat). split; [vm_compute; reflexivity|].
  split; [reflexivity|]. split; [reflexivity|].
  exists None, None. split; [vm_compute; reflexivity|]. split; reflexivity.
Qed.

Lemma nodup_subarvore_1 : NoDup (refs subarvore_1).
Proof. apply NoDup_pequena. vm_compute. reflexivity. Qed.

Lemma rotacao_esquerda_correta_witness :
  rep antes_do_caso 7 (Some 5%nat) subarvore_1 ∧ NoDup (refs subarvore_1) ∧
  ∃ r m', _rotacao_esquerda 5 7 antes_do_caso = Val r m' ∧
          rep m' 7 (Some r) (rot_esq subarvore_1) ∧
          length m' = length antes_do_caso ∧
          (∀ r', r' ∉ refs subarvore_1 → vis m' 7 r' = vis antes_do_caso 7 r') ∧
          (∀ c x s, subarvore_1 = Nodo c 5 x s Folha →
                    r = 5%nat ∧ m' = antes_do_caso) ∧
          (∀ p, ∃ es es',
             _percorrer_em_ordem (S (length antes_do_caso)) (Some 5%nat) 7 p []
               antes_do_caso = Val es antes_do_caso ∧
             _percorrer_em_ordem (S (length m')) (Some r) 7 p [] m' = Val es' m' ∧
             map e_valor es' = map e_valor es).
Proof.
  split; [exact rep_subarvore_1|]. split; [exact nodup_subarvore_1|].
  exact (rotacao_esquerda_correta antes_do_caso 7 5 subarvore_1
           rep_subarvore_1 nodup_subarvore_1).
Defined.

Lemma rotacao_direita_correta_witness :
  rep antes_do_caso 7 (Some 3%nat) triangulo_3 ∧ NoDup (refs triangulo_3) ∧
  ∃ r m', _rotacao_direita 3 7 antes_do_caso = Val r m' ∧
          rep m' 7 (Some r) (rot_dir triangulo_3) ∧
          length m' = length antes_do_caso ∧
          (∀ r', r' ∉ refs triangulo_3 → vis m' 7 r' = vis antes_do_caso 7 r') ∧
          (∀ c x s, triangulo_3 = Nodo c 3 x Folha s →
                    r = 3%nat ∧ m' = antes_do_caso) ∧
          (∀ p, ∃ es es',
             _percorrer_em_ordem (S (length antes_do_caso)) (Some 3%nat) 7 p []
               antes_do_caso = Val es antes_do_caso ∧
             _percorrer_em_ordem (S (length m')) (Some r) 7 p [] m' = Val es' m' ∧
             map e_valor es' = map e_valor es).
Proof.
  split; [exact rep_triangulo_3|]. split; [exact nodup_triangulo_3|].
  exact (rotacao_direita_correta antes_do_caso 7 3 triangulo_3
           rep_triangulo_3 nodup_triangulo_3).
Defined.

Lemma rotacoes_ida_e_volta_witness :
  rep antes_do_caso 7 (Some 5%nat)
    (Nodo VERMELHO 5 1 Folha (Nodo VERMELHO 6 2 Folha Folha)) ∧
  NoDup (refs (Nodo VERMELHO 5 1 Folha (Nodo VERMELHO 6 2 Folha Folha))) ∧
  ∃ m1 m2, _rotacao_esquerda 5 7 antes_do_caso = Val 6%nat m1 ∧
           _rotacao_direita 6 7 m1 = Val 5%nat m2 ∧
           rep m2 7 (Some 5%nat)
             (Nodo VERMELHO 5 1 Folha (Nodo VERMELHO 6 2 Folha Folha)) ∧
           length m2 = length antes_do_caso ∧
           ∀ r', r' ∉ refs (Nodo VERMELHO 5 1 Folha (Nodo VERMELHO 6 2 Folha Folha)) →
                 vis m2 7 r' = vis antes_do_caso 7 r'.
Proof.
  split; [exact rep_subarvore_1|]. split; [exact nodup_subarvore_1|].
  exact (rotacoes_ida_e_volta antes_do_caso 7 5 6 VERMELHO VERMELHO 1 2
           Folha Folha Folha rep_subarvore_1 nodup_subarvore_1).
Defined.

(** ** arvore_rubro_negra.py: the least key of a subtree *)

(** X15. On a search tree, [_encontrar_minimo] writes nothing and returns
    the object that holds the least key of the tree; it returns [None] only
    for the empty tree. *)
Theorem encontrar_minimo_correto (m : Memoria) (v : Z) (o : option Ref) (a : arv)
    (fuel : nat) :
  rep m v o a → abb a → (altura a < fuel)%nat →
  ∃ r, _encontrar_minimo fuel o v m = Val r m ∧
       match r with
       | Some obj =>
           ∃ n, m !! obj = Some n ∧ No.valor n ∈ chaves a ∧
                ∀ x, x ∈ chaves a → No.valor n <= x
       | None => o = None
       end.
Proof.
  intros Hrep Habb Hfuel.
  destruct (rep_encontrar_minimo v fuel a m o Hrep Hfuel) as (r & m' & E & -> & ->).
  exists (fst <$> minimo a). split; [done|].
  destruct (minimo a) as [[obj k]|] eqn:Emin; simpl.
  - destruct (minimo_vis _ _ _ _ _ _ Hrep Emin) as (y & (n & Hn & ->)%vis_Some & Hk).
    simpl in Hk. exists n. split; [done|]. rewrite Hk.
    split; [by eapply minimo_elem|]. by eapply minimo_menor.
  - apply minimo_Folha in Emin. subst a. exact Hrep.
Qed.

Lemma abb_triangulo_3 : abb triangulo_3.
Proof.
  unfold abb, triangulo_3. cbn [chaves app].
  repeat (apply SSorted_cons; [|repeat constructor; lia]). constructor.
Qed.

Lemma encontrar_minimo_correto_witness :
  rep antes_do_caso 7 (Some 3%nat) triangulo_3 ∧ abb triangulo_3 ∧
  (altura triangulo_3 < 8)%nat ∧
  ∃ r, _encontrar_minimo 8 (Some 3%nat) 7 antes_do_caso = Val r antes_do_caso ∧
       match r with
       | Some obj =>
           ∃ n, antes_do_caso !! obj = Some n ∧ No.valor n ∈ chaves triangulo_3 ∧
                ∀ x, x ∈ chaves triangulo_3 → No.valor n <= x
       | None => Some 3%nat = None
       end.
Proof.
  assert (altura triangulo_3 < 8)%nat as Hf by (vm_compute; lia).
  split; [exact rep_triangulo_3|]. split; [exact abb_triangulo_3|].
  split; [exact Hf|].
  exact (encontrar_minimo_correto antes_do_caso 7 (Some 3%nat) triangulo_3 8
           rep_triangulo_3 abb_triangulo_3 Hf).
Defined.

(** ** arvore_rubro_negra.py: balance under insertions *)

(** What a node adds to the number of black nodes of a path. *)
Definition peso (c : Cor) : nat :=
  match c with PRETO => 1 | VERMELHO => 0 end.

(** [equilibrada a h]: every path from the root of [a] to a leaf goes
    through [h] black nodes. *)
Fixpoint equilibrada (a : arv) (h : nat) : Prop :=
  match a with
  | Folha => h = 0%nat
  | Nodo c _ _ e d =>
      ∃ h0, h = (h0 + peso c)%nat ∧ equilibrada e h0 ∧ equilibrada d h0
  end.

Lemma equilibrada_unica a h h' : equilibrada a h → equilibrada a h' → h = h'.
Proof.
  revert h h'. induction a as [|c r k e IHe d IHd]; intros h h'; simpl.
  - by intros -> ->.
  - intros (h0 & -> & He & _) (h1 & -> & He' & _). by rewrite (IHe _ _ He He').
Qed.

Lemma equilibrada_lado_direito r k e d h :
  equilibrada e h → equilibrada d h →
  equilibrada (lado_direito (Nodo PRETO r k e d)) (S h).
Proof.
  intros He Hd. unfold lado_direito.
  destruct d as [|[] fd xd de dd].
  - simpl in *. exists h. split; [lia|done].
  - destruct Hd as (h0 & E & Hde & Hdd). simpl in E.
    assert (h0 = h) as -> by lia.
    destruct (e_verm de) eqn:Ede; [|destruct (e_verm dd) eqn:Edd].
    + apply e_verm_Nodo in Ede as (r1 & k1 & e1 & d1 & ->).
      destruct Hde as (h1 & E1 & He1 & Hd1). simpl in E1.
      assert (h1 = h) as -> by lia.
      cbn [rot_DE equilibrada peso]. exists (S h). split; [lia|]. split.
      * exists h. split; [lia|done].
      * exists h. split; [lia|done].
    + apply e_verm_Nodo in Edd as (r1 & k1 & e1 & d1 & ->).
      destruct Hdd as (h1 & E1 & He1 & Hd1). simpl in E1.
      assert (h1 = h) as -> by lia.
      cbn [rot_DD pintar equilibrada peso]. exists (S h). split; [lia|]. split.
      * exists h. split; [lia|done].
      * exists h. split; [lia|done].
    + cbn [equilibrada peso]. exists h. split; [lia|]. split; [done|].
      exists h. split; [lia|done].
  - cbn [equilibrada peso]. exists h. split; [lia|done].
Qed.

(** Rebalancing under a black node keeps the black heights equal. *)
Lemma equilibrada_balancear r k e d h :
  equilibrada e h → equilibrada d h →
  equilibrada (balancear (Nodo PRETO r k e d)) (S h).
Proof.
  intros He Hd. unfold balancear.
  destruct e as [|[] fe xe ee ed]; try by apply equilibrada_lado_direito.
  pose proof He as (h0 & E & Hee & Hed). simpl in E.
  assert (h0 = h) as -> by lia.
  destruct (e_verm ee) eqn:Eee; [|destruct (e_verm ed) eqn:Eed].
  - apply e_verm_Nodo in Eee as (r1 & k1 & e1 & d1 & ->).
    destruct Hee as (h1 & E1 & He1 & Hd1). simpl in E1.
    assert (h1 = h) as -> by lia.
    cbn [rot_EE pintar equilibrada peso]. exists (S h). split; [lia|]. split.
    + exists h. split; [lia|done].
    + exists h. split; [lia|done].
  - apply e_verm_Nodo in Eed as (r1 & k1 & e1 & d1 & ->).
    destruct Hed as (h1 & E1 & He1 & Hd1). simpl in E1.
    assert (h1 = h) as -> by lia.
    cbn [rot_ED equilibrada peso]. exists (S h). split; [lia|]. split.
    + exists h. split; [lia|done].
    + exists h. split; [lia|done].
  - by apply equilibrada_lado_direito.
Qed.

(** Insertion in a well-coloured tree keeps the black heights. *)
Lemma equilibrada_ins valor novo a h :
  sem_vv a → equilibrada a h → equilibrada (ins valor novo a) h.
Proof.
  revert h. induction a as [|c r k e IHe d IHd]; intros h; cbn [ins].
  - intros _ ->. cbn [equilibrada peso]. exists 0%nat. done.
  - intros (Hc & Hse & Hsd) (h0 & -> & He & Hd).
    destruct (valor <? k) eqn:E1; [|destruct (k <? valor) eqn:E2].
    + specialize (IHe h0 Hse He). destruct c.
      * destruct (Hc eq_refl) as [Hve _].
        rewrite balancear_sem_vv; [|by apply sem_vv_ins|done].
        exists h0. done.
      * cbn [peso]. replace (h0 + 1)%nat with (S h0) by lia.
        by apply equilibrada_balancear.
    + specialize (IHd h0 Hsd Hd). destruct c.
      * destruct (Hc eq_refl) as [_ Hvd].
        rewrite balancear_sem_vv; [|done|by apply sem_vv_ins].
        exists h0. done.
      * cbn [peso]. replace (h0 + 1)%nat with (S h0) by lia.
        by apply equilibrada_balancear.
    + exists h0. done.
Qed.

Lemma equilibrada_pintar a h :
  equilibrada a h → ∃ h', equilibrada (pintar PRETO a) h'.
Proof.
  destruct a as [|c r k e d]; simpl; [eauto|].
  intros (h0 & _ & He & Hd). exists (h0 + 1)%nat, h0. done.
Qed.

(** A tree with equal black heights and no red node under a red node is
    not deep: its height is at most twice the black height (plus one under a
    red root), and it has at least [2 ^ h - 1] nodes. *)
Lemma altura_equilibrada a h :
  sem_vv a → equilibrada a h →
  (altura a ≤ 2 * h + (if e_verm a then 1 else 0))%nat.
Proof.
  revert h. induction a as [|c r k e IHe d IHd]; intros h; simpl.
  - intros _ ->. lia.
  - intros (Hc & Hse & Hsd) (h0 & -> & He & Hd).
    specialize (IHe h0 Hse He). specialize (IHd h0 Hsd Hd).
    destruct c; simpl.
    + destruct (Hc eq_refl) as [Eve Evd]. rewrite Eve in IHe. rewrite Evd in IHd. lia.
    + destruct (e_verm e), (e_verm d); lia.
Qed.

Lemma tamanho_equilibrada a h :
  equilibrada a h → (2 ^ h ≤ S (length (chaves a)))%nat.
Proof.
  revert h. induction a as [|c r k e IHe d IHd]; intros h; simpl.
  - intros ->. simpl. lia.
  - intros (h0 & -> & He & Hd).
    specialize (IHe h0 He). specialize (IHd h0 Hd).
    rewrite length_app. simpl.
    assert (2 ^ (h0 + peso c) ≤ 2 * 2 ^ h0)%nat.
    { destruct c; simpl; rewrite ?Nat.add_0_r.
      - lia.
      - rewrite Nat.add_1_r. simpl. lia. }
    lia.
Qed.

Lemma profundidade_listar p a x :
  x ∈ listar p a → p <= e_profundidade x < p + Z.of_nat (altura a).
Proof.
  revert p. induction a as [|c r k e IHe d IHd]; intros p; simpl.
  - by intros ?%elem_of_nil.
  - rewrite elem_of_app, elem_of_cons. intros [Hx|[->|Hx]].
    + specialize (IHe _ Hx). lia.
    + simpl. lia.
    + specialize (IHd _ Hx). lia.
Qed.

(** *** The invariant, along insertions *)

Lemma rep_None_Folha m v a : rep m v None a → a = Folha.
Proof. destruct a; [done|]. by intros [? _]. Qed.

Lemma alcancavel_inc_equilibrada t :
  alcancavel_inc t →
  ∀ v, 0 <= v <= versao_atual t → ∃ a h, VersaoOk t v a ∧ equilibrada a h.
Proof.
  induction 1 as [|t valor t' Ht IH Hf].
  - intros v Hv. destruct InvInc_vazia as [_ _ _ Hver].
    destruct (Hver v Hv) as [a Hok]. exists a, 0%nat. split; [done|].
    destruct Hok as [(o & Ho & Hrep) _ _ _ _ _].
    unfold arvore_vazia in Ho. cbn [raizes] in Ho.
    apply lookup_replicate in Ho as [-> _].
    by rewrite (rep_None_Folha _ _ _ Hrep).
  - intros v Hv. pose proof (alcancavel_inc_InvInc t Ht) as Hinv.
    pose proof Hinv as [Hlen HV Hlim Hver].
    destruct (decide (v <= versao_atual t)) as [Hle|Hgt].
    + destruct (IH v ltac:(lia)) as (a & h & Hok & Heq).
      exists a, h. split; [|done].
      apply (inclusao_mantem_versao t valor t' v a); [done|done|lia|done].
    + destruct (incluir_quadro t valor t' ltac:(lia) Hf)
        as [_ [(_ & Hva & _)|(Hval & Hva & nova & Hatr)]]; [lia|].
      apply py_atribuir_Some in Hatr as [Hcap _]; [|lia].
      assert (v = versao_atual t + 1) as -> by lia.
      destruct (IH (versao_atual t) ltac:(lia)) as (a & h & Hok & Heq).
      destruct Hok as [(raiz & Hraiz & Hrep) Hnd Habb Hvv Hrt Hviv].
      destruct (incluir_ok t valor raiz a Hlen ltac:(lia) Hraiz
                  (Hlim ltac:(lia)) Hrep Hnd) as (m' & raiz' & Hinc & Hrep' & _).
      rewrite Hinc in Hval. injection Hval as <-.
      pose proof (InvInc_passo t valor _ Hinv Hf) as [_ _ _ Hver'].
      cbn [versao_atual] in Hver'.
      destruct (Hver' (versao_atual t + 1) ltac:(lia)) as [a' Hok'].
      pose proof Hok' as [(o' & Ho' & Hrep'') _ _ _ _ _].
      cbn [raizes memoria] in Ho', Hrep''.
      rewrite list_lookup_insert_eq in Ho' by lia. injection Ho' as <-.
      rewrite (rep_unica _ _ _ _ _ Hrep'' Hrep') in Hok'.
      destruct (equilibrada_pintar _ _ (equilibrada_ins valor (length (memoria t))
                                          a h Hvv Heq)) as [h' Hh'].
      eauto.
Qed.

(** X16. A tree built by insertions only stays balanced, at every version:
    the dump of the version is returned, and a node listed at depth [d]
    comes with at least [2 ^ ceil (d / 2) - 1] listed nodes, so the depth of
    every node is at most twice the logarithm of the number of nodes plus
    one. *)
Theorem profundidade_apos_inclusoes (t : Arvore) (v : Z) :
  alcancavel_inc t → 0 <= v <= versao_atual t →
  ∃ es, entradas_arvore (Some v) t = Val es t ∧
        ∀ x, x ∈ es →
          0 <= e_profundidade x ∧
          (2 ^ (Z.to_nat (e_profundidade x + 1) / 2) ≤ S (length es))%nat.
Proof.
  intros Ht Hv. pose proof (alcancavel_inc_InvInc t Ht) as [Hlen HV _ _].
  destruct (alcancavel_inc_equilibrada t Ht v Hv) as (a & h & Hok & Heq).
  destruct (consultas_VersaoOk t v a Hlen Hv ltac:(lia) Hok) as (He & _).
  destruct Hok as [_ _ _ Hvv Hrt _].
  exists (listar 0 a). split; [done|]. intros x Hx.
  pose proof (profundidade_listar 0 a x Hx) as Hp.
  pose proof (altura_equilibrada a h Hvv Heq) as Ha. rewrite Hrt in Ha.
  pose proof (tamanho_equilibrada a h Heq) as Hs.
  split; [lia|].
  assert (length (listar 0 a) = length (chaves a)) as ->
    by (by rewrite <- (valores_listar 0 a), length_map).
  trans (2 ^ h)%nat; [|done].
  apply Nat.pow_le_mono_r; [lia|].
  apply Nat.Div0.div_le_upper_bound. lia.
Qed.

Lemma profundidade_apos_inclusoes_witness :
  alcancavel_inc exemplo_5 ∧ 0 <= 5 <= versao_atual exemplo_5 ∧
  ∃ es, entradas_arvore (Some 5) exemplo_5 = Val es exemplo_5 ∧
        ∀ x, x ∈ es →
          0 <= e_profundidade x ∧
          (2 ^ (Z.to_nat (e_profundidade x + 1) / 2) ≤ S (length es))%nat.
Proof.
  assert (0 <= 5 <= versao_atual exemplo_5) as Hv by (vm_compute; split; discriminate).
  split; [exact exemplo_5_inclusoes|]. split; [exact Hv|].
  exact (profundidade_apos_inclusoes exemplo_5 5 exemplo_5_inclusoes Hv).
Defined.

(** ** arvore_rubro_negra.py: the roots table *)

Lemma mutacao_quadro t c op t' :
  0 <= versao_atual t → mutacao c = Some op → estado_final (op t) = Some t' →
  quadro (versao_atual t + 1) (Rh (versao_atual t + 1)) (memoria t) (memoria t') ∧
  ((raizes t' = raizes t ∧ versao_atual t' = versao_atual t) ∨
   (versao_atual t' = versao_atual t + 1 ∧
    ∃ nova, py_atribuir (raizes t) (versao_atual t + 1) nova = Some (raizes t'))).
Proof.
  intros HV Hc Hf. destruct c as [valor|valor| | | |]; try done; injection Hc as <-.
  - destruct (incluir_quadro t valor t' HV Hf) as [Hq Hcasos].
    split; [by apply quadro_Rt_Rh|].
    destruct Hcasos as [(? & ? & _)|(_ & ? & ?)]; [left|right]; done.
  - destruct (remover_quadro t valor t' HV Hf) as [Hq Hcasos].
    split; [done|].
    destruct Hcasos as [(? & ? & _)|(_ & ? & ?)]; [left|right]; done.
Qed.

Lemma raizes_acima_vazias t :
  alcancavel t →
  ∀ i, (Z.to_nat (versao_atual t) < i < 100)%nat → raizes t !! i = Some None.
Proof.
  induction 1 as [|t valor t' Ht IH Hf|t valor t' Ht IH Hf]; intros i Hi.
  - unfold arvore_vazia. cbn [raizes]. apply lookup_replicate. split; [done|lia].
  - pose proof (alcancavel_Base _ Ht) as [Hlen HV _ _ _].
    destruct (mutacao_quadro t (INC valor) _ t' ltac:(lia) eq_refl Hf)
      as [_ [(Hrz & Hva)|(Hva & nova & Hatr)]].
    + rewrite Hrz. apply IH. lia.
    + apply py_atribuir_Some in Hatr as [_ ->]; [|lia].
      rewrite list_lookup_insert_ne by lia. apply IH. lia.
  - pose proof (alcancavel_Base _ Ht) as [Hlen HV _ _ _].
    destruct (mutacao_quadro t (REM valor) _ t' ltac:(lia) eq_refl Hf)
      as [_ [(Hrz & Hva)|(Hva & nova & Hatr)]].
    + rewrite Hrz. apply IH. lia.
    + apply py_atribuir_Some in Hatr as [_ ->]; [|lia].
      rewrite list_lookup_insert_ne by lia. apply IH. lia.
Qed.

(** X17. The roots table of a tree reached from the empty tree, through
    calls that returned or raised: it has 100 slots, [versao_atual] is
    between 0 and 99, every slot above [versao_atual] is still [None], and
    every root is an object of the heap. *)
Theorem tabela_de_raizes (t : Arvore) :
  alcancavel t →
  length (raizes t) = 100%nat ∧ 0 <= versao_atual t <= 99 ∧
  (∀ i, (Z.to_nat (versao_atual t) < i < 100)%nat → raizes t !! i = Some None) ∧
  (∀ i r, raizes t !! i = Some (Some r) → (r < length (memoria t))%nat).
Proof.
  intros Ht. pose proof (alcancavel_Base _ Ht) as [Hlen HV _ Hval _].
  split; [done|]. split; [done|]. split; [by apply raizes_acima_vazias|done].
Qed.

Lemma tabela_de_raizes_witness :
  alcancavel exemplo_6 ∧
  length (raizes exemplo_6) = 100%nat ∧ 0 <= versao_atual exemplo_6 <= 99 ∧
  (∀ i, (Z.to_nat (versao_atual exemplo_6) < i < 100)%nat →
        raizes exemplo_6 !! i = Some None) ∧
  (∀ i r, raizes exemplo_6 !! i = Some (Some r) →
          (r < length (memoria exemplo_6))%nat).
Proof.
  assert (alcancavel exemplo_6) as H
    by (apply alcancavel_aplicar, alcancavel_aplicar, alc_vazia).
  split; [exact H|]. exact (tabela_de_raizes exemplo_6 H).
Defined.

(** X18. What a mutation never does, returning or raising: it never
    rewrites the root of an existing version, never lowers [versao_atual]
    nor raises it by more than one, and never removes an object from the
    heap nor changes the creation version of one. *)
Theorem mutacao_nunca_reescreve (t t' : Arvore) (c : Comando) (op : M Arvore unit) :
  alcancavel t → mutacao c = Some op → estado_final (op t) = Some t' →
  versao_atual t <= versao_atual t' <= versao_atual t + 1 ∧
  (∀ i, 0 <= i <= versao_atual t →
        raizes t' !! Z.to_nat i = raizes t !! Z.to_nat i) ∧
  (∀ r n, memoria t !! r = Some n →
          ∃ n', memoria t' !! r = Some n' ∧
                No.versao_criacao n' = No.versao_criacao n).
Proof.
  intros Ht Hc Hf. pose proof (alcancavel_Base _ Ht) as [Hlen HV _ _ _].
  destruct (mutacao_quadro t c op t' ltac:(lia) Hc Hf) as [Hq Hcasos].
  split; [|split].
  - destruct Hcasos as [(_ & ->)|(-> & _)]; lia.
  - intros i Hi. destruct Hcasos as [(-> & _)|(_ & nova & Hatr)]; [done|].
    apply py_atribuir_Some in Hatr as [_ ->]; [|lia].
    apply list_lookup_insert_ne. lia.
  - intros r n Hn. destruct Hq as (_ & Hold & _).
    destruct (Hold r n Hn) as (n' & Hn' & HR). exists n'. split; [done|].
    by destruct HR.
Qed.

Lemma mutacao_nunca_reescreve_witness :
  alcancavel exemplo_5 ∧ mutacao (REM 5) = Some (remover 5) ∧
  estado_final (remover 5 exemplo_5) = Some exemplo_6 ∧
  versao_atual exemplo_5 <= versao_atual exemplo_6 <= versao_atual exemplo_5 + 1 ∧
  (∀ i, 0 <= i <= versao_atual exemplo_5 →
        raizes exemplo_6 !! Z.to_nat i = raizes exemplo_5 !! Z.to_nat i) ∧
  (∀ r n, memoria exemplo_5 !! r = Some n →
          ∃ n', memoria exemplo_6 !! r = Some n' ∧
                No.versao_criacao n' = No.versao_criacao n).
Proof.
  assert (alcancavel exemplo_5) as H by (apply alcancavel_aplicar, alc_vazia).
  assert (estado_final (remover 5 exemplo_5) = Some exemplo_6) as Hf
    by (vm_compute; reflexivity).
  split; [exact H|]. split; [reflexivity|]. split; [exact Hf|].
  exact (mutacao_nunca_reescreve exemplo_5 exemplo_6 (REM 5) (remover 5) H eq_refl Hf).
Defined.

(** ** arvore_rubro_negra.py: every version of every reachable tree *)

(** Two trees with the same objects in the same places and the same
    colours; the keys may differ. *)
Fixpoint mesma_forma (a a' : arv) : Prop :=
  match a, a' with
  | Folha, Folha => True
  | Nodo c r _ e d, Nodo c' r' _ e' d' =>
      c' = c ∧ r' = r ∧ mesma_forma e e' ∧ mesma_forma d d'
  | _, _ => False
  end.

Lemma mesma_forma_refl a : mesma_forma a a.
Proof. induction a; simpl; auto. Qed.

Lemma mesma_forma_refs a a' : mesma_forma a a' → refs a' = refs a.
Proof.
  revert a'. induction a as [|c r k e IHe d IHd]; intros [|c' r' k' e' d']; try done.
  simpl. intros (_ & -> & He & Hd). by rewrite (IHe _ He), (IHd _ Hd).
Qed.

(** What the dump shows of the form of a tree: depth and colour. *)
Definition forma_da_entrada (x : Entrada) : Z * Cor :=
  (e_profundidade x, e_cor x).

Lemma mesma_forma_listar a a' p :
  mesma_forma a a' →
  map forma_da_entrada (listar p a') = map forma_da_entrada (listar p a).
Proof.
  revert a' p. induction a as [|c r k e IHe d IHd]; intros [|c' r' k' e' d'] p; try done.
  simpl. intros (-> & -> & He & Hd).
  rewrite !map_app. simpl. by rewrite (IHe _ _ He), (IHd _ _ Hd).
Qed.

(** An earlier version after an operation at [V'] that may overwrite keys
    and stamp removals: the same objects, colours and links. *)
Lemma visao_Rh V' v n n' :
  Rh V' n n' → v < V' → No.esta_ativo n v = true →
  visao_de v n' =
  {| vs_valor := No.valor n'; vs_ativo := true; vs_cor := No.obter_cor n v;
     vs_esq := No.obter_filho_esquerdo n v; vs_dir := No.obter_filho_direito n v |}.
Proof.
  intros [Hc Hco Hf _ _ _ _ Hr] Hv Hat. unfold visao_de. f_equal.
  - unfold No.esta_ativo in *. rewrite Hc.
    apply andb_true_iff in Hat as [H1 H2]. apply andb_true_iff. split; [done|].
    destruct Hr as [->| ->]; [done|]. apply Z.ltb_lt. lia.
  - by apply Hco.
  - unfold No.obter_filho_esquerdo. by rewrite Hf.
  - unfold No.obter_filho_direito. by rewrite Hf.
Qed.

Lemma rep_quadro_Rh V' v m m' : ∀ a o,
  quadro V' (Rh V') m m' → v < V' → rep m v o a →
  ∃ a', rep m' v o a' ∧ mesma_forma a a'.
Proof.
  induction a as [|c r k e IHe d IHd]; intros o Hq Hv.
  - intros Hrep. exists Folha. done.
  - intros (-> & oe & od & (n & Hn & E)%vis_Some & He & Hd).
    destruct (IHe oe Hq Hv He) as (e' & He' & Hfe).
    destruct (IHd od Hq Hv Hd) as (d' & Hd' & Hfd).
    pose proof Hq as (_ & Hold & _).
    destruct (Hold r n Hn) as (n' & Hn' & HR).
    apply (f_equal vs_ativo) in E as Ea. apply (f_equal vs_cor) in E as Ec.
    apply (f_equal vs_esq) in E as Ee. apply (f_equal vs_dir) in E as Ed.
    simpl in Ea, Ec, Ee, Ed.
    exists (Nodo c r (No.valor n') e' d'). split; [|done].
    split; [done|]. exists oe, od. split; [|done].
    apply vis_Some. exists n'. split; [done|].
    rewrite (visao_Rh V' v n n' HR Hv) by done. by rewrite <- Ec, <- Ee, <- Ed.
Qed.

Lemma refs_chaves_length a : length (refs a) = length (chaves a).
Proof.
  induction a as [|c r k e IHe d IHd]; simpl; [done|].
  rewrite !length_app. simpl. by rewrite IHe, IHd.
Qed.

(** Every version up to the current one denotes a finite tree without
    repeated objects. *)
Definition VersaoFinita (t : Arvore) (v : Z) (a : arv) : Prop :=
  (∃ o, raizes t !! Z.to_nat v = Some o ∧ rep (memoria t) v o a) ∧ NoDup (refs a).

Lemma VersaoFinita_vazia v : 0 <= v <= 0 → VersaoFinita arvore_vazia v Folha.
Proof.
  intros Hv. split; [|constructor]. exists None. split; [|done].
  unfold arvore_vazia. cbn [raizes]. apply lookup_replicate. split; [done|lia].
Qed.

(** A mutation, returning or not, leaves the form of an earlier version. *)
Lemma mutacao_mantem_forma t c op t' v a :
  alcancavel t → mutacao c = Some op → estado_final (op t) = Some t' →
  0 <= v <= versao_atual t → VersaoFinita t v a →
  ∃ a', VersaoFinita t' v a' ∧ mesma_forma a a'.
Proof.
  intros Ht Hc Hf Hv [(o & Ho & Hrep) Hnd].
  pose proof (alcancavel_Base _ Ht) as [Hlen HV _ _ _].
  destruct (mutacao_quadro t c op t' ltac:(lia) Hc Hf) as [Hq Hcasos].
  destruct (rep_quadro_Rh (versao_atual t + 1) v _ _ a o Hq ltac:(lia) Hrep)
    as (a' & Hrep' & Hfa).
  exists a'. split; [|done]. split; [|by rewrite (mesma_forma_refs _ _ Hfa)].
  exists o. split; [|done].
  destruct Hcasos as [(-> & _)|(_ & nova & Hatr)]; [done|].
  apply py_atribuir_Some in Hatr as [_ ->]; [|lia].
  rewrite list_lookup_insert_ne by lia. done.
Qed.

Lemma alcancavel_versoes_finitas t :
  alcancavel t → ∀ v, 0 <= v <= versao_atual t → ∃ a, VersaoFinita t v a.
Proof.
  induction 1 as [|t valor t' Ht IH Hf|t valor t' Ht IH Hf]; intros v Hv.
  - exists Folha. by apply VersaoFinita_vazia.
  - pose proof (alcancavel_Base _ Ht) as [Hlen HV _ _ _].
    destruct (decide (v <= versao_atual t)) as [Hle|Hgt].
    + destruct (IH v ltac:(lia)) as [a Ha].
      destruct (mutacao_mantem_forma t (INC valor) _ t' v a Ht eq_refl Hf
                  ltac:(lia) Ha) as (a' & Ha' & _). eauto.
    + destruct (incluir_quadro t valor t' ltac:(lia) Hf)
        as [_ [(_ & Hva & _)|(Hval & Hva & nova & Hatr)]]; [lia|].
      apply py_atribuir_Some in Hatr as [Hcap _]; [|lia].
      assert (alcancavel_normal t') as Hn'.
      { eapply an_incluir; [|exact Hval]. apply alcancavel_abaixo; [done|lia]. }
      destruct (alcancavel_normal_Atual t' Hn') as [a' [_ _ _ Hrep' Hnd' _]].
      assert (v = versao_atual t') as -> by lia.
      exists a'. by split.
  - pose proof (alcancavel_Base _ Ht) as [Hlen HV _ _ _].
    destruct (decide (v <= versao_atual t)) as [Hle|Hgt].
    + destruct (IH v ltac:(lia)) as [a Ha].
      destruct (mutacao_mantem_forma t (REM valor) _ t' v a Ht eq_refl Hf
                  ltac:(lia) Ha) as (a' & Ha' & _). eauto.
    + destruct (remover_quadro t valor t' ltac:(lia) Hf)
        as [_ [(_ & Hva & _)|(Hval & Hva & nova & Hatr)]]; [lia|].
      apply py_atribuir_Some in Hatr as [Hcap _]; [|lia].
      assert (alcancavel_normal t') as Hn'.
      { eapply an_remover; [|exact Hval]. apply alcancavel_abaixo; [done|lia]. }
      destruct (alcancavel_normal_Atual t' Hn') as [a' [_ _ _ Hrep' Hnd' _]].
      assert (v = versao_atual t') as -> by lia.
      exists a'. by split.
Qed.

Lemma consultas_VersaoFinita t v a :
  length (raizes t) = 100%nat → 0 <= v <= versao_atual t → versao_atual t <= 99 →
  VersaoFinita t v a →
  entradas_arvore (Some v) t = Val (listar 0 a) t ∧
  imprimir_arvore (Some v) t = Val (map formatar (listar 0 a)) t ∧
  ∀ k, buscar_sucessor k (Some v) t = Val (suc_arv k a None) t.
Proof.
  intros Hlen Hv HV [(o & Ho & Hrep) Hnd].
  assert (entradas_arvore (Some v) t = Val (listar 0 a) t) as E
    by (by apply (entradas_rep t v o a)).
  split; [done|]. split.
  - unfold imprimir_arvore, bind. by rewrite E.
  - intros k. by apply (buscar_sucessor_rep t v o a).
Qed.

(** On every reachable state the traversal and the successor loop return,
    for every version argument from -100 on. *)
Lemma consultas_retornam t k v :
  alcancavel t → -100 <= v →
  ∃ es s, entradas_arvore (Some v) t = Val es t ∧
          buscar_sucessor k (Some v) t = Val s t ∧
          (length es ≤ length (memoria t))%nat.
Proof.
  intros Ht Hv. pose proof (alcancavel_Base _ Ht) as HB.
  pose proof HB as [Hlen HV _ _ _].
  assert (∀ u, 0 <= u <= versao_atual t →
            ∃ es s, entradas_arvore (Some u) t = Val es t ∧
                    buscar_sucessor k (Some u) t = Val s t ∧
                    (length es ≤ length (memoria t))%nat) as Hdentro.
  { intros u Hu. destruct (alcancavel_versoes_finitas t Ht u Hu) as [a Ha].
    destruct (consultas_VersaoFinita t u a Hlen Hu ltac:(lia) Ha) as (He & _ & Hs).
    exists (listar 0 a), (suc_arv k a None).
    split; [done|]. split; [done|].
    destruct Ha as [(o & _ & Hrep) Hnd].
    rewrite <- (length_map e_valor), valores_listar.
    rewrite <- (refs_chaves_length a). by eapply refs_length. }
  destruct (decide (v < 0)) as [Hneg|Hpos].
  - destruct (consulta_negativa t k v HB ltac:(lia)) as [Hs He].
    exists [], None. split; [done|]. split; [done|simpl; lia].
  - destruct (decide (v <= versao_atual t)) as [Hle|Hgt].
    + apply Hdentro. lia.
    + destruct (Hdentro (versao_atual t) ltac:(lia)) as (es & s & He & Hs & Hl).
      exists es, s. split; [|split; [|done]].
      * rewrite <- He. unfold entradas_arvore, bind, ler_versao_atual.
        rewrite ajustar_versao_acima by lia. rewrite ajustar_versao_dentro by lia.
        done.
      * rewrite <- Hs. unfold buscar_sucessor, bind, ler_versao_atual.
        rewrite ajustar_versao_acima by lia. rewrite ajustar_versao_dentro by lia.
        done.
Qed.

(** X19. On every state reached from the empty tree (through calls that
    returned or raised), the queries always return for every version from
    -100 on: they neither raise nor run forever, and the dump lists at most
    as many entries as there are objects. *)
Theorem consultas_sempre_retornam (t : Arvore) (k v : Z) :
  alcancavel t → -100 <= v →
  ∃ linhas s, imprimir_arvore (Some v) t = Val linhas t ∧
              buscar_sucessor k (Some v) t = Val s t ∧
              (length linhas ≤ length (memoria t))%nat.
Proof.
  intros Ht Hv.
  destruct (consultas_retornam t k v Ht Hv) as (es & s & He & Hs & Hl).
  exists (map formatar es), s. split; [|split; [done|]].
  - unfold imprimir_arvore, bind. by rewrite He.
  - by rewrite length_map.
Qed.

Lemma consultas_sempre_retornam_witness :
  alcancavel exemplo_6 ∧ -100 <= 5 ∧
  ∃ linhas s, imprimir_arvore (Some 5) exemplo_6 = Val linhas exemplo_6 ∧
              buscar_sucessor 4 (Some 5) exemplo_6 = Val s exemplo_6 ∧
              (length linhas ≤ length (memoria exemplo_6))%nat.
Proof.
  assert (alcancavel exemplo_6) as H
    by (apply alcancavel_aplicar, alcancavel_aplicar, alc_vazia).
  assert (-100 <= 5) as Hv by lia.
  split; [exact H|]. split; [exact Hv|].
  exact (consultas_sempre_retornam exemplo_6 4 5 H Hv).
Defined.

(** An insertion, returning or not, leaves what an earlier version denotes,
    keys included. *)
Lemma inclusao_mantem_finita t k t' v a :
  alcancavel t → estado_final (incluir k t) = Some t' →
  0 <= v <= versao_atual t → VersaoFinita t v a → VersaoFinita t' v a.
Proof.
  intros Ht Hf Hv [(o & Ho & Hrep) Hnd].
  pose proof (alcancavel_Base _ Ht) as [Hlen HV _ _ _].
  destruct (incluir_quadro t k t' ltac:(lia) Hf) as [Hq Hcasos].
  split; [|done]. exists o. split.
  - destruct Hcasos as [(-> & _)|(_ & _ & nova & Hatr)]; [done|].
    apply py_atribuir_Some in Hatr as [_ ->]; [|lia].
    rewrite list_lookup_insert_ne by lia. done.
  - eapply rep_quadro_Rt; [done|lia|done].
Qed.

(** X10. An insertion never disturbs an existing version: on every state
    reached from the empty tree (insertions and removals, returned or
    raised), after one more [incluir] (also one that raises at the cap), the
    dump of every version up to the current one and the successor of every
    key at such a version are returned with the answers they had before. *)
Theorem inclusao_persistente (t t' : Arvore) (k v : Z) :
  alcancavel t → estado_final (incluir k t) = Some t' →
  0 <= v <= versao_atual t →
  ∃ linhas,
    imprimir_arvore (Some v) t = Val linhas t ∧
    imprimir_arvore (Some v) t' = Val linhas t' ∧
    ∀ q, ∃ s, buscar_sucessor q (Some v) t = Val s t ∧
              buscar_sucessor q (Some v) t' = Val s t'.
Proof.
  intros Ht Hf Hv.
  assert (alcancavel t') as Ht' by (by eapply alc_incluir).
  pose proof (alcancavel_Base _ Ht) as [Hlen HV _ _ _].
  pose proof (alcancavel_Base _ Ht') as [Hlen' HV' _ _ _].
  destruct (mutacao_quadro t (INC k) _ t' ltac:(lia) eq_refl Hf) as [_ Hcasos].
  assert (versao_atual t <= versao_atual t') as Hle
    by (destruct Hcasos as [(_ & ->)|(-> & _)]; lia).
  destruct (alcancavel_versoes_finitas t Ht v Hv) as [a Ha].
  pose proof (inclusao_mantem_finita t k t' v a Ht Hf Hv Ha) as Ha'.
  destruct (consultas_VersaoFinita t v a Hlen Hv ltac:(lia) Ha) as (_ & Hi & Hs).
  destruct (consultas_VersaoFinita t' v a Hlen' ltac:(lia) ltac:(lia) Ha')
    as (_ & Hi' & Hs').
  exists (map formatar (listar 0 a)). split; [done|]. split; [done|].
  intros q. exists (suc_arv q a None). by split.
Qed.

Lemma inclusao_persistente_witness :
  alcancavel exemplo_6 ∧
  estado_final (incluir 8 exemplo_6) = Some (aplicar [INC 8] exemplo_6) ∧
  0 <= 5 <= versao_atual exemplo_6 ∧
  ∃ linhas,
    imprimir_arvore (Some 5) exemplo_6 = Val linhas exemplo_6 ∧
    imprimir_arvore (Some 5) (aplicar [INC 8] exemplo_6) =
      Val linhas (aplicar [INC 8] exemplo_6) ∧
    ∀ q, ∃ s, buscar_sucessor q (Some 5) exemplo_6 = Val s exemplo_6 ∧
              buscar_sucessor q (Some 5) (aplicar [INC 8] exemplo_6) =
                Val s (aplicar [INC 8] exemplo_6).
Proof.
  assert (alcancavel exemplo_6) as H
    by (apply alcancavel_aplicar, alcancavel_aplicar, alc_vazia).
  assert (estado_final (incluir 8 exemplo_6) = Some (aplicar [INC 8] exemplo_6))
    as Hf by (vm_compute; reflexivity).
  assert (0 <= 5 <= versao_atual exemplo_6) as Hv by (vm_compute; split; discriminate).
  split; [exact H|]. split; [exact Hf|]. split; [exact Hv|].
  exact (inclusao_persistente exemplo_6 _ 8 5 H Hf Hv).
Defined.

(** X20. No mutation changes the form of an existing version: after any
    [incluir] or [remover], returned or raised, the dump of every version up
    to the previous current one lists as many entries as before, with the
    same depths and colours in the same order; only the keys shown can
    differ. *)
Theorem mutacao_preserva_forma (t t' : Arvore) (c : Comando) (op : M Arvore unit)
    (v : Z) :
  alcancavel t → mutacao c = Some op → estado_final (op t) = Some t' →
  0 <= v <= versao_atual t →
  ∃ es es', entradas_arvore (Some v) t = Val es t ∧
            entradas_arvore (Some v) t' = Val es' t' ∧
            map forma_da_entrada es' = map forma_da_entrada es.
Proof.
  intros Ht Hc Hf Hv.
  assert (alcancavel t') as Ht'.
  { destruct c as [valor|valor| | | |]; try done; injection Hc as <-.
    - by eapply alc_incluir.
    - by eapply alc_remover. }
  pose proof (alcancavel_Base _ Ht) as [Hlen HV _ _ _].
  pose proof (alcancavel_Base _ Ht') as [Hlen' HV' _ _ _].
  destruct (mutacao_quadro t c op t' ltac:(lia) Hc Hf) as [_ Hcasos].
  assert (versao_atual t <= versao_atual t') as Hle
    by (destruct Hcasos as [(_ & ->)|(-> & _)]; lia).
  destruct (alcancavel_versoes_finitas t Ht v Hv) as [a Ha].
  destruct (mutacao_mantem_forma t c op t' v a Ht Hc Hf Hv Ha) as (a' & Ha' & Hfa).
  destruct (consultas_VersaoFinita t v a Hlen Hv ltac:(lia) Ha) as (He & _).
  destruct (consultas_VersaoFinita t' v a' Hlen' ltac:(lia) ltac:(lia) Ha')
    as (He' & _).
  exists (listar 0 a), (listar 0 a'). split; [done|]. split; [done|].
  by apply mesma_forma_listar.
Qed.

Lemma mutacao_preserva_forma_witness :
  alcancavel exemplo_5 ∧ mutacao (REM 5) = Some (remover 5) ∧
  estado_final (remover 5 exemplo_5) = Some exemplo_6 ∧
  0 <= 5 <= versao_atual exemplo_5 ∧
  ∃ es es', entradas_arvore (Some 5) exemplo_5 = Val es exemplo_5 ∧
            entradas_arvore (Some 5) exemplo_6 = Val es' exemplo_6 ∧
            map forma_da_entrada es' = map forma_da_entrada es.
Proof.
  assert (alcancavel exemplo_5) as H by (apply alcancavel_aplicar, alc_vazia).
  assert (estado_final (remover 5 exemplo_5) = Some exemplo_6) as Hf
    by (vm_compute; reflexivity).
  assert (0 <= 5 <= versao_atual exemplo_5) as Hv by (vm_compute; split; discriminate).
  split; [exact H|]. split; [reflexivity|]. split; [exact Hf|]. split; [exact Hv|].
  exact (mutacao_preserva_forma exemplo_5 exemplo_6 (REM 5) (remover 5) 5
           H eq_refl Hf Hv).
Defined.

(** ** arvore_rubro_negra.py: a mutation and the query after it *)

Lemma sucessor_Atual t a k :
  Atual t a →
  buscar_sucessor k None t = Val (suc_arv k a None) t ∧
  menor_acima k (chaves a) (suc_arv k a None).
Proof.
  intros [Hlen HV _ (raiz & Hraiz & Hrep) Hnd Habb].
  split; [|by apply suc_arv_menor_acima].
  rewrite buscar_sucessor_None.
  by apply (buscar_sucessor_rep t (versao_atual t) raiz a); [|lia|lia|..].
Qed.

(** X21. Insertion and removal, seen through the successor query, below the
    cap: after [incluir k] the successor of [k - 1] is [k]; after
    [remover k] no successor query answers [k]. *)
Theorem mutacao_e_sucessor (t : Arvore) (k : Z) :
  alcancavel t → versao_atual t < 99 →
  (∃ t', incluir k t = Val tt t' ∧
         buscar_sucessor (k - 1) None t' = Val (Some k) t') ∧
  (∃ t', remover k t = Val tt t' ∧
         ∀ q, ∃ s, buscar_sucessor q None t' = Val s t' ∧ s ≠ Some k).
Proof.
  intros Ht Hcap. destruct (alcancavel_Atual t Ht Hcap) as [a Ha].
  pose proof Ha as [_ _ _ _ _ Habb]. split.
  - destruct (incluir_abaixo t k a Ha Hcap) as (t' & E & _ & _ & Ha').
    exists t'. split; [done|].
    destruct (sucessor_Atual t' _ (k - 1) Ha') as [Hs Hm].
    rewrite Hs. f_equal.
    assert (k ∈ chaves (pintar PRETO (ins k (length (memoria t)) a))) as Hk
      by (rewrite chaves_pintar, chaves_ins; by left).
    unfold menor_acima in Hm.
    destruct (suc_arv (k - 1) _ None) as [s|].
    + destruct Hm as (_ & H1 & H2). specialize (H2 k Hk ltac:(lia)).
      f_equal. lia.
    + specialize (Hm k Hk). lia.
  - destruct (remover_abaixo t k a Ha Hcap) as (t' & a' & E & _ & _ & Hd & Ha').
    exists t'. split; [done|]. intros q.
    destruct (sucessor_Atual t' _ q Ha') as [Hs Hm].
    exists (suc_arv q a' None). split; [done|]. intros Hk. rewrite Hk in Hm.
    destruct Hm as (Hin & _). rewrite (descolorir_chaves _ _ Hd) in Hin.
    apply chaves_del in Hin as [_ Hne]; done.
Qed.

Lemma mutacao_e_sucessor_witness :
  alcancavel exemplo_5 ∧ versao_atual exemplo_5 < 99 ∧
  (∃ t', incluir 8 exemplo_5 = Val tt t' ∧
         buscar_sucessor (8 - 1) None t' = Val (Some 8) t') ∧
  (∃ t', remover 8 exemplo_5 = Val tt t' ∧
         ∀ q, ∃ s, buscar_sucessor q None t' = Val s t' ∧ s ≠ Some 8).
Proof.
  assert (alcancavel exemplo_5) as H by (apply alcancavel_aplicar, alc_vazia).
  assert (versao_atual exemplo_5 < 99) as Hv by (vm_compute; reflexivity).
  split; [exact H|]. split; [exact Hv|].
  exact (mutacao_e_sucessor exemplo_5 8 H Hv).
Defined.

(** ** processador_operacoes.py: whole scripts *)

(** X22. The loop over the lines composes: processing a script [cs1 ++ cs2]
    is processing [cs1], then [cs2] from the tree that [cs1] leaves, with
    the output lines and the diagnostics of both in order; an exception that
    the handler does not catch ends the script where it is raised. *)
Theorem processar_linhas_app (cs1 cs2 : list Comando) (t : Arvore) :
  processar_linhas (cs1 ++ cs2) t =
    match processar_linhas cs1 t with
    | Val r1 t1 =>
        match processar_linhas cs2 t1 with
        | Val r2 t2 => Val (fst r1 ++ fst r2, snd r1 ++ snd r2) t2
        | Exc e t2 => Exc e t2
        | Div => Div
        end
    | Exc e t1 => Exc e t1
    | Div => Div
    end.
Proof.
  revert t. induction cs1 as [|c cs1 IH]; intros t.
  - simpl. unfold ret. by destruct (processar_linhas cs2 t) as [[o d] t2|e t2|].
  - cbn [app processar_linhas]. unfold bind, ret.
    destruct (processar_operacao c t) as [sd t0|ex t0|]; [|done..].
    rewrite IH.
    destruct (processar_linhas cs1 t0) as [[o1 d1] t1|e1 t1|]; [|done..].
    destruct (processar_linhas cs2 t1) as [[o2 d2] t2|e2 t2|]; [|done..].
    simpl. by rewrite !app_assoc.
Qed.

(** A line that parses: a mutation, or a query whose version argument is at
    least -100. *)
Definition bem_formado (c : Comando) : Prop :=
  match c with
  | INC _ | REM _ => True
  | SUC _ v | IMP v => -100 <= v
  | Malformada | Desconhecida => False
  end.

Fixpoint n_mutacoes (cs : list Comando) : nat :=
  match cs with
  | [] => 0
  | (INC _ | REM _) :: cs' => S (n_mutacoes cs')
  | _ :: cs' => n_mutacoes cs'
  end.

Fixpoint n_consultas (cs : list Comando) : nat :=
  match cs with
  | [] => 0
  | (SUC _ _ | IMP _) :: cs' => S (n_consultas cs')
  | _ :: cs' => n_consultas cs'
  end.

Lemma processar_consulta t c :
  alcancavel t → bem_formado c → mutacao c = None →
  ∃ l1 l2, processar_operacao c t =
             Val {| linhas := Some [l1; l2]; console := [] |} t.
Proof.
  intros Ht Hc Hm. destruct c as [k|k|k v|v| |]; try done; simpl in Hc.
  - destruct (consultas_retornam t k v Ht Hc) as (es & s & _ & Hs & _).
    eexists _, _. unfold processar_operacao, _processar_sucessor, bind, ret.
    by rewrite Hs.
  - destruct (consultas_retornam t 0 v Ht Hc) as (es & s & He & _ & _).
    eexists _, _.
    unfold processar_operacao, _processar_impressao, imprimir_arvore, bind, ret.
    by rewrite He.
Qed.

Lemma processar_mutacao_abaixo t c op :
  alcancavel_normal t → versao_atual t < 99 → mutacao c = Some op →
  ∃ t', processar_operacao c t = Val {| linhas := None; console := [] |} t' ∧
        alcancavel_normal t' ∧ versao_atual t' = versao_atual t + 1.
Proof.
  intros Ht Hcap Hc. destruct (alcancavel_normal_Atual t Ht) as [a Ha].
  rewrite (processar_mutacao c op t Hc).
  destruct c as [valor|valor| | | |]; try done; injection Hc as <-.
  - destruct (incluir_abaixo t valor a Ha Hcap) as (t' & E & Hv & _).
    exists t'. rewrite E. split; [done|]. split; [by eapply an_incluir|done].
  - destruct (remover_abaixo t valor a Ha Hcap) as (t' & a' & E & Hv & _).
    exists t'. rewrite E. split; [done|]. split; [by eapply an_remover|done].
Qed.

Lemma roteiro_desde cs : ∀ t,
  alcancavel_normal t → Forall bem_formado cs →
  versao_atual t + Z.of_nat (n_mutacoes cs) <= 99 →
  ∃ saida t', processar_linhas cs t = Val (saida, []) t' ∧
              length saida = (2 * n_consultas cs)%nat ∧
              versao_atual t' = versao_atual t + Z.of_nat (n_mutacoes cs) ∧
              alcancavel_normal t'.
Proof.
  induction cs as [|c cs IH]; intros t Ht Hcs Hcap.
  - exists [], t. simpl. repeat split; [lia|done].
  - apply Forall_cons in Hcs as [Hc Hcs].
    destruct (mutacao c) as [op|] eqn:Em.
    + assert (n_mutacoes (c :: cs) = S (n_mutacoes cs)) as En
        by (by destruct c).
      assert (n_consultas (c :: cs) = n_consultas cs) as Eq
        by (by destruct c).
      rewrite En in Hcap |- *. rewrite Eq.
      destruct (processar_mutacao_abaixo t c op Ht ltac:(lia) Em)
        as (t1 & E1 & Ht1 & Hv1).
      destruct (IH t1 Ht1 Hcs ltac:(lia)) as (saida & t' & E & Hl & Hv & Ht').
      exists saida, t'. cbn [processar_linhas]. unfold bind at 1. rewrite E1.
      unfold bind. rewrite E. unfold ret. simpl.
      repeat split; [done|lia|done].
    + assert (n_mutacoes (c :: cs) = n_mutacoes cs) as En
        by (by destruct c).
      assert (n_consultas (c :: cs) = S (n_consultas cs)) as Eq
        by (by destruct c).
      rewrite En in Hcap |- *. rewrite Eq.
      destruct (processar_consulta t c (alcancavel_normal_alcancavel t Ht) Hc Em)
        as (l1 & l2 & E1).
      destruct (IH t Ht Hcs Hcap) as (saida & t' & E & Hl & Hv & Ht').
      exists (l1 :: l2 :: saida), t'. cbn [processar_linhas]. unfold bind at 1.
      rewrite E1. unfold bind. rewrite E. unfold ret. simpl.
      repeat split; [|done..]. rewrite Hl. lia.
Qed.

(** X23. A script of lines that parse, with at most 99 mutations and every
    query version at least -100, run on a new tree, is processed to the end:
    nothing is printed on the console, every query contributes exactly two
    output lines and every mutation none, and [versao_atual] ends as the
    number of mutations. *)
Theorem roteiro_bem_formado (cs : list Comando) :
  Forall bem_formado cs → (n_mutacoes cs ≤ 99)%nat →
  ∃ saida t', executar cs = Val (saida, []) t' ∧
              length saida = (2 * n_consultas cs)%nat ∧
              versao_atual t' = Z.of_nat (n_mutacoes cs).
Proof.
  intros Hcs Hn.
  destruct (roteiro_desde cs arvore_vazia an_vazia Hcs)
    as (saida & t' & E & Hl & Hv & _).
  { unfold arvore_vazia. cbn [versao_atual]. lia. }
  exists saida, t'. split; [done|]. split; [done|].
  rewrite Hv. unfold arvore_vazia. cbn [versao_atual]. lia.
Qed.

Lemma roteiro_bem_formado_witness :
  Forall bem_formado [INC 10; INC 5; SUC 6 2; REM 5; IMP 3; IMP (-1)] ∧
  (n_mutacoes [INC 10; INC 5; SUC 6 2; REM 5; IMP 3; IMP (-1)] ≤ 99)%nat ∧
  ∃ saida t',
    executar [INC 10; INC 5; SUC 6 2; REM 5; IMP 3; IMP (-1)] = Val (saida, []) t' ∧
    length saida =
      (2 * n_consultas [INC 10; INC 5; SUC 6 2; REM 5; IMP 3; IMP (-1)])%nat ∧
    versao_atual t' =
      Z.of_nat (n_mutacoes [INC 10; INC 5; SUC 6 2; REM 5; IMP 3; IMP (-1)]).
Proof.
  assert (Forall bem_formado [INC 10; INC 5; SUC 6 2; REM 5; IMP 3; IMP (-1)]) as H.
  { repeat (apply Forall_cons; split; [simpl; try exact I; lia|]). apply Forall_nil_2. }
  assert (n_mutacoes [INC 10; INC 5; SUC 6 2; REM 5; IMP 3; IMP (-1)] ≤ 99)%nat as Hn
    by (simpl; lia).
  split; [exact H|]. split; [exact Hn|].
  exact (roteiro_bem_formado _ H Hn).
Defined.
